(** * KQL: the grammar of [index.ts] and the Select compiler [parseSelect]

    A shallow embedding of the Parsimmon grammar of KQL and of the
    semantic compiler that turns a Select AST into backend calls.

    JavaScript strings are sequences of UTF-16 code units; they are
    modelled as lists of [N].  Plain objects used as maps (object
    literals, the record-service parameter map, the service registry)
    are finite maps from strings to values: own properties only. *)

From Stdlib Require Import ZArith NArith Lia.
From Stdlib Require String Ascii DecimalString DecimalPos DecimalFacts.
From stdpp Require Import gmap list strings.

#[local] Set Warnings "-register-all".
#[local] Open Scope N_scope.

(** ** Strings as code units *)

Abbreviation char := N (only parsing).
Abbreviation str := (list N) (only parsing).

Definition js (s : String.string) : str :=
  map Ascii.N_of_ascii (String.list_ascii_of_string s).
Arguments js s%_string.

Definition str_eqb (a b : str) : bool := bool_decide (a = b).

(** Code units the grammar names. *)
Definition c_backslash : char := 92.
Definition c_dquote : char := 34.
Definition c_squote : char := 39.
Definition c_minus : char := 45.
Definition c_underscore : char := 95.
Definition c_dot : char := 46.
Definition c_plus : char := 43.

Definition in_range (lo hi c : char) : bool := (lo <=? c) && (c <=? hi).

(** [\s] of an ECMAScript regular expression. *)
Definition is_space (c : char) : bool :=
  in_range 9 13 c || (c =? 32) || (c =? 160) || (c =? 5760)
  || in_range 8192 8202 c || (c =? 8232) || (c =? 8233) || (c =? 8239)
  || (c =? 8287) || (c =? 12288) || (c =? 65279).

(** [.] matches everything but the four line terminators. *)
Definition is_line_terminator (c : char) : bool :=
  (c =? 10) || (c =? 13) || (c =? 8232) || (c =? 8233).

Definition is_dot (c : char) : bool := negb (is_line_terminator c).

Definition is_digit (c : char) : bool := in_range 48 57 c.

Definition is_hex (c : char) : bool :=
  is_digit c || in_range 97 102 c || in_range 65 70 c.

Definition is_quote (c : char) : bool := (c =? c_dquote) || (c =? c_squote).

(** [[a-zA-Z0-9-_]] *)
Definition is_text_char (c : char) : bool :=
  in_range 97 122 c || in_range 65 90 c || is_digit c
  || (c =? c_minus) || (c =? c_underscore).

(** Longest prefix whose code units satisfy [f], and what follows it. *)
Fixpoint span (f : char -> bool) (s : str) : str * str :=
  match s with
  | [] => ([], [])
  | c :: s' => if f c then let '(m, r) := span f s' in (c :: m, r) else ([], s)
  end.

Fixpoint strip_prefix (p s : str) : option str :=
  match p, s with
  | [], _ => Some s
  | a :: p', b :: s' => if a =? b then strip_prefix p' s' else None
  | _ :: _, [] => None
  end.

(** ** interpretEscapes *)

Definition hex_val (c : char) : N :=
  if is_digit c then c - 48
  else if in_range 97 102 c then c - 87
  else c - 55.

(** [String.fromCharCode(parseInt(hex, 16))] on four hex digits. *)
Definition from_hex4 (a b c d : char) : char :=
  ((hex_val a * 16 + hex_val b) * 16 + hex_val c) * 16 + hex_val d.

(** The table [escapes], with the fall-through [return type]. *)
Definition escape_char (type : char) : char :=
  if type =? 98 then 8          (* b *)
  else if type =? 102 then 12   (* f *)
  else if type =? 110 then 10   (* n *)
  else if type =? 114 then 13   (* r *)
  else if type =? 116 then 9    (* t *)
  else type.

(** [str.replace(pattern, ...)] where the pattern is a backslash followed
    by [u] and four hex digits, or by any character but [u].  The pattern
    carries no [g] flag, so the leftmost match is replaced and the rest of
    the string is copied. *)
Fixpoint interpretEscapes (s : str) : str :=
  match s with
  | [] => []
  | c :: s' =>
    if c =? c_backslash then
      match s' with
      | [] => [c]
      | e :: r =>
        if e =? 117 then
          match r with
          | h1 :: h2 :: h3 :: h4 :: r' =>
            if is_hex h1 && is_hex h2 && is_hex h3 && is_hex h4
            then from_hex4 h1 h2 h3 h4 :: r'
            else c :: interpretEscapes s'
          | _ => c :: interpretEscapes s'
          end
        else escape_char e :: r
      end
    else c :: interpretEscapes s'
  end.

(** What replacing every match would give (the same pattern with [g]);
    used to state what the escape rule asks for. *)
Fixpoint interpretEscapes_all (fuel : nat) (s : str) : str :=
  match fuel with
  | O => s
  | S fuel' =>
    match s with
    | [] => []
    | c :: s' =>
      if c =? c_backslash then
        match s' with
        | [] => [c]
        | e :: r =>
          if e =? 117 then
            match r with
            | h1 :: h2 :: h3 :: h4 :: r' =>
              if is_hex h1 && is_hex h2 && is_hex h3 && is_hex h4
              then from_hex4 h1 h2 h3 h4 :: interpretEscapes_all fuel' r'
              else c :: interpretEscapes_all fuel' s'
            | _ => c :: interpretEscapes_all fuel' s'
            end
          else escape_char e :: interpretEscapes_all fuel' r
        end
      else c :: interpretEscapes_all fuel' s'
    end
  end.

(** ** Parsimmon combinators *)

Inductive abort := OutOfFuel | InfiniteLoop.

(** A parser either succeeds with a value and the remaining input, fails
    (and may be backtracked over), or aborts: [InfiniteLoop] is the
    exception [.many()] throws, [OutOfFuel] belongs to the embedding. *)
Inductive res (A : Type) :=
| Ok (v : A) (rest : str)
| Fail
| Abort (e : abort).
Arguments Ok {A} v rest.
Arguments Fail {A}.
Arguments Abort {A} e.

Definition Parser (A : Type) := str -> res A.

Definition of_ {A} (v : A) : Parser A := fun s => Ok v s.

Definition chain {A B} (p : Parser A) (f : A -> Parser B) : Parser B :=
  fun s => match p s with
           | Ok v r => f v r
           | Fail => Fail
           | Abort e => Abort e
           end.

Definition map_ {A B} (f : A -> B) (p : Parser A) : Parser B :=
  chain p (fun v => of_ (f v)).

Definition result {A B} (p : Parser A) (v : B) : Parser B := map_ (fun _ => v) p.

Definition then_ {A B} (p : Parser A) (q : Parser B) : Parser B :=
  chain p (fun _ => q).

Definition skip {A B} (p : Parser A) (q : Parser B) : Parser A :=
  chain p (fun v => result q v).

Definition or_ {A} (p q : Parser A) : Parser A :=
  fun s => match p s with
           | Fail => q s
           | r => r
           end.

Fixpoint alt {A} (ps : list (Parser A)) : Parser A :=
  match ps with
  | [] => fun _ => Fail
  | p :: ps' => or_ p (alt ps')
  end.

(** [.many()]: repeat until the parser fails; a success that consumes
    nothing throws.  The countdown starts at the input's length, which the
    loop cannot exhaust since every round consumes. *)
Fixpoint many_aux {A} (k : nat) (p : Parser A) (s : str) : res (list A) :=
  match p s with
  | Ok v r =>
    if (length r <? length s)%nat then
      match k with
      | O => Abort OutOfFuel
      | S k' =>
        match many_aux k' p r with
        | Ok vs r' => Ok (v :: vs) r'
        | Fail => Fail
        | Abort e => Abort e
        end
      end
    else Abort InfiniteLoop
  | Fail => Ok [] s
  | Abort e => Abort e
  end.

Definition many {A} (p : Parser A) : Parser (list A) :=
  fun s => many_aux (length s) p s.

Definition sepBy1 {A B} (p : Parser A) (separator : Parser B) : Parser (list A) :=
  chain p (fun r => map_ (fun rs => r :: rs) (many (then_ separator p))).

Definition sepBy {A B} (p : Parser A) (separator : Parser B) : Parser (list A) :=
  or_ (sepBy1 p separator) (of_ []).

Definition wrap {A B C} (p : Parser A) (l : Parser B) (r : Parser C) : Parser A :=
  then_ l (skip p r).

(** [P.string(str)] *)
Definition string_lit (w : str) : Parser str :=
  fun s => match strip_prefix w s with
           | Some r => Ok w r
           | None => Fail
           end.

Definition eof : Parser unit :=
  fun s => match s with [] => Ok tt [] | _ => Fail end.

(** ** Lexical helpers *)

(** [whitespace]: any run of [\s]. *)
Definition whitespace : Parser str :=
  fun s => let '(m, r) := span is_space s in Ok m r.

(** [comment]: two dashes and the rest of the line, or [null] ([None]). *)
Definition comment_regexp : Parser (option str) :=
  fun s => match s with
           | a :: b :: r =>
             if (a =? c_minus) && (b =? c_minus)
             then let '(m, r') := span is_dot r in Ok (Some (a :: b :: m)) r'
             else Fail
           | _ => Fail
           end.

Definition comment : Parser (option str) := or_ comment_regexp (of_ None).

Definition token {A} (p : Parser A) : Parser A :=
  skip (skip p whitespace) comment.

Definition word (w : str) : Parser str :=
  token (then_ (token comment) (string_lit w)).

(** ** The AST *)

(** A JavaScript number.  An integer of magnitude at most 2^53 is [Int z],
    however it is written ([18], [18.0], [1.8e1]): [Number] of such a
    literal is that integer, exactly.  Every other number is kept as the
    literal that denotes it, and what IEEE-754 arithmetic makes of it is
    left to [DecOps] below.  ([-0] is kept as written too: it is not the
    number [0].) *)
Inductive jsnum :=
| Int (z : Z)
| Dec (lexeme : str).

(** Values.  [r.constants] yields the matched word, a plain string.  The
    object that [r.fn] builds has its own constructor; an object literal
    that happens to spell the keys [fnName] and [arguments] is an
    [VObject]. *)
Inductive Value :=
| VNull
| VBool (b : bool)
| VNumber (n : jsnum)
| VString (s : str)
| VObject (m : gmap str Value)
| VArray (l : list Value)
| VFn (fnName : str) (arguments : list Value).

Record Key := { alias : option str; key : str }.

Record Condition := { left_ : Key; operator_ : str; right_ : Value }.

Record JoinCondition := { jleft : Key; jright : Key }.

Record DatabaseRef := { name : str; db_alias : option str }.

Record SelectAst := {
  sel_database : DatabaseRef;
  sel_join : option JoinCondition;
  sel_where : option (list Condition);
  sel_limit : option jsnum
}.

Inductive Statement :=
| Select (s : SelectAst)
| Fetch (database : DatabaseRef) (parameters : list Condition)
| Create (type name : str) (parameters : option (list Condition))
| GetConfig (parameters : list Condition)
| UpdateConfig.

(** ** Regular expressions of the grammar *)

(** The pattern of [r.string] after its opening quote: a lazy repetition
    of (backslash and any character, or any character), closed by a quote
    character of either kind.  Returns group 2 and the input after the
    closing quote. *)
Fixpoint string_body (s : str) : option (str * str) :=
  match s with
  | [] => None
  | c :: s' =>
    if is_quote c then Some ([], s')
    else
      let one :=
        if is_dot c then
          match string_body s' with
          | Some (m, r) => Some (c :: m, r)
          | None => None
          end
        else None in
      if c =? c_backslash then
        match s' with
        | d :: s'' =>
          if is_dot d then
            match string_body s'' with
            | Some (m, r) => Some (c :: d :: m, r)
            | None => one
            end
          else one
        | [] => one
        end
      else one
  end.

Definition string_regexp : Parser str :=
  fun s => match s with
           | q :: s' =>
             if is_quote q then
               match string_body s' with
               | Some (m, r) => Ok m r
               | None => Fail
               end
             else Fail
           | [] => Fail
           end.

(** The pattern of [r.text]: any number of [[a-zA-Z0-9-_]]. *)
Definition text_regexp : Parser str :=
  fun s => let '(m, r) := span is_text_char s in Ok m r.

Definition digits1 (s : str) : option (str * str) :=
  let '(m, r) := span is_digit s in
  match m with [] => None | _ => Some (m, r) end.

(** The integer part: a lone [0], or a digit [1-9] and any digits. *)
Definition number_int (s : str) : option (str * str) :=
  match s with
  | c :: r =>
    if c =? 48 then Some ([c], r)
    else if in_range 49 57 c then let '(m, r') := span is_digit r in Some (c :: m, r')
    else None
  | [] => None
  end.

(** The optional fraction: a dot and one or more digits. *)
Definition number_frac (s : str) : str * str :=
  match s with
  | c :: r =>
    if c =? c_dot then
      match digits1 r with Some (m, r') => (c :: m, r') | None => ([], s) end
    else ([], s)
  | [] => ([], s)
  end.

(** The optional exponent: [e] or [E], an optional sign, digits. *)
Definition number_exp (s : str) : str * str :=
  match s with
  | c :: r =>
    if (c =? 101) || (c =? 69) then
      match r with
      | sg :: r1 =>
        if (sg =? c_plus) || (sg =? c_minus) then
          match digits1 r1 with Some (m, r') => (c :: sg :: m, r') | None => ([], s) end
        else
          match digits1 r with Some (m, r') => (c :: m, r') | None => ([], s) end
      | [] => ([], s)
      end
    else ([], s)
  | [] => ([], s)
  end.

Definition digits_val (m : str) : Z :=
  fold_left (fun a c => (a * 10 + Z.of_N (c - 48))%Z) m 0%Z.

Definition max_safe : Z := 9007199254740992.

(** The digits of a fraction part: what follows its dot. *)
Definition frac_digits (fp : str) : str :=
  match fp with
  | _ :: d => d
  | [] => []
  end.

(** The exponent that an exponent part denotes: what follows its [e],
    with the sign if there is one. *)
Definition exp_val (ep : str) : Z :=
  match ep with
  | _ :: sg :: r =>
    if sg =? c_minus then (- digits_val r)%Z
    else if sg =? c_plus then digits_val r
    else digits_val (sg :: r)
  | _ => 0%Z
  end.

(** The magnitude of a literal, when it is an integer of at most 2^53:
    the digits [m] of the integer part and the fraction, scaled by ten to
    the exponent less the number of fraction digits.  A scale above 16
    makes a literal other than zero too large, and a scale below the
    number of digits leaves a fraction. *)
Definition exact_int (ip fp ep : str) : option Z :=
  let ds := ip ++ frac_digits fp in
  let m := digits_val ds in
  let e := (exp_val ep - Z.of_nat (length (frac_digits fp)))%Z in
  if (m =? 0)%Z then Some 0%Z
  else if (0 <=? e)%Z then
    if (e <=? 16)%Z then
      if (m * 10 ^ e <=? max_safe)%Z then Some (m * 10 ^ e)%Z else None
    else None
  else
    if (- e <=? Z.of_nat (length ds))%Z then
      if (m mod 10 ^ (- e) =? 0)%Z then
        if (m / 10 ^ (- e) <=? max_safe)%Z then Some (m / 10 ^ (- e))%Z
        else None
      else None
    else None.

(** [Number(lexeme)] on a lexeme split into sign, integer part, fraction
    and exponent. *)
Definition Number (neg : bool) (ip fp ep : str) : jsnum :=
  let lexeme := (if neg then [c_minus] else []) ++ ip ++ fp ++ ep in
  match exact_int ip fp ep with
  | Some z =>
    if neg && (z =? 0)%Z then Dec lexeme
    else Int (if neg then - z else z)%Z
  | None => Dec lexeme
  end.

(** The JSON number pattern of [r.number] (optional minus sign, integer
    part, optional fraction, optional exponent) followed by [Number]. *)
Definition number_regexp : Parser jsnum :=
  fun s =>
    let '(neg, s1) :=
      match s with
      | c :: r => if c =? c_minus then (true, r) else (false, s)
      | [] => (false, s)
      end in
    match number_int s1 with
    | Some (ip, s2) =>
      let '(fp, s3) := number_frac s2 in
      let '(ep, s4) := number_exp s3 in
      Ok (Number neg ip fp ep) s4
    | None => Fail
    end.

(** ** The language [kql] *)

Module kql.

Definition lbrace := word (js "{").
Definition rbrace := word (js "}").
Definition lbracket := word (js "[").
Definition rbracket := word (js "]").
Definition lParenthesis := word (js "(").
Definition rParenthesis := word (js ")").
Definition comma := word (js ",").
Definition colon := word (js ":").
Definition dot := word (js ".").
Definition and := word (js "and").

Definition comment : Parser (option str) := token comment.

Definition null : Parser Value := result (word (js "null")) VNull.
Definition true : Parser Value := result (word (js "true")) (VBool true).
Definition false : Parser Value := result (word (js "false")) (VBool false).

Definition string : Parser str := map_ interpretEscapes (token string_regexp).

Definition text : Parser str := map_ interpretEscapes (token text_regexp).

Definition constants : Parser str :=
  alt [word (js "current_bounds"); word (js "current_points");
       word (js "current_features")].

Definition number : Parser jsnum := token number_regexp.

Definition operator : Parser str :=
  alt [word (js "="); word (js ">"); word (js ">="); word (js "<");
       word (js "<="); word (js "in"); word (js "is")].

Definition databaseName : Parser str :=
  alt [word (js "tile38"); word (js "metabase"); word (js "url");
       word (js "t"); word (js "m"); word (js "u")].

(** [p.or(optional)] with [optional = P.of(null)] *)
Definition optional {A} (p : Parser A) : Parser (option A) :=
  or_ (map_ Some p) (of_ None).

Definition asAlias : Parser (option str) := optional (then_ (word (js "as")) text).

Definition key : Parser Key :=
  chain (optional (skip text dot)) (fun a =>
  map_ (fun k => {| alias := a; key := k |}) text).

Definition joinCondition : Parser JoinCondition :=
  chain key (fun l =>
  then_ (word (js "=")) (
  map_ (fun r => {| jleft := l; jright := r |}) key)).

Definition join : Parser JoinCondition :=
  then_ (skip (skip (word (js "join")) databaseName) (word (js "on"))) joinCondition.

Definition limit : Parser jsnum := then_ (word (js "limit")) number.

Definition databaseRef : Parser DatabaseRef :=
  chain databaseName (fun n =>
  map_ (fun a => {| name := n; db_alias := a |}) asAlias).

(** The rules that mention [r.value]. *)
Section Rules.
Variable r_value : Parser Value.

Definition array : Parser (list Value) :=
  skip (then_ (alt [lbracket; lParenthesis]) (sepBy r_value comma))
       (alt [rbracket; rParenthesis]).

Definition pair : Parser (str * Value) :=
  chain (skip string colon) (fun k => map_ (fun v => (k, v)) r_value).

Definition object : Parser (gmap str Value) :=
  map_ (fun pairs => fold_left (fun o (kv : str * Value) => <[kv.1 := kv.2]> o) pairs ∅)
       (skip (then_ lbrace (sepBy pair comma)) rbrace).

Definition fn : Parser Value :=
  chain text (fun f =>
  map_ (fun args => VFn f args) (wrap (sepBy r_value comma) lParenthesis rParenthesis)).

Definition value_alt : Parser Value :=
  then_ whitespace
    (alt [map_ VObject object; map_ VArray array; map_ VString string;
          map_ VNumber number; null; true; false; fn;
          map_ VString constants]).

Definition pairCondition : Parser Condition :=
  then_ comment (
  chain key (fun l =>
  chain operator (fun o =>
  map_ (fun r => {| left_ := l; operator_ := o; right_ := r |}) r_value))).

Definition where_ : Parser (list Condition) :=
  then_ (word (js "where")) (sepBy pairCondition and).

Definition parameters : Parser (list Condition) :=
  skip (then_ lParenthesis (sepBy pairCondition comma)) rParenthesis.

Definition select : Parser Statement :=
  then_ whitespace (skip (
    then_ (word (js "select")) (
    then_ (word (js "*")) (
    then_ (word (js "from")) (
    chain databaseRef (fun d =>
    chain (optional join) (fun j =>
    chain (optional where_) (fun w =>
    map_ (fun l => Select {| sel_database := d; sel_join := j;
                             sel_where := w; sel_limit := l |})
         (optional limit)))))))) comment).

Definition fetch : Parser Statement :=
  then_ whitespace (skip (
    then_ (word (js "fetch")) (
    chain databaseRef (fun d =>
    map_ (fun ps => Fetch d ps) parameters))) comment).

Definition create : Parser Statement :=
  then_ whitespace (skip (
    then_ (word (js "create")) (
    chain text (fun t =>
    chain text (fun n =>
    map_ (fun ps => Create t n ps) (optional parameters))))) comment).

Definition getConfig : Parser Statement :=
  then_ whitespace (skip (
    then_ (word (js "get")) (
    then_ (word (js "config")) (
    map_ GetConfig parameters))) comment).

Definition updateConfig : Parser Statement :=
  then_ whitespace (skip (
    then_ (word (js "update")) (
    result (word (js "config")) UpdateConfig)) comment).

Definition parser_alt : Parser Statement :=
  alt [fetch; select; create; getConfig; updateConfig].
End Rules.

(** [r.value] refers to itself through the language object; the embedding
    unrolls that reference [fuel] times. *)
Fixpoint value (fuel : nat) : Parser Value :=
  match fuel with
  | O => fun _ => Abort OutOfFuel
  | S n => value_alt (value n)
  end.

Definition parser (fuel : nat) : Parser Statement := parser_alt (value fuel).


End kql.

(** [kql.parser.tryParse(text)]: the parser followed by end of input; a
    failure is thrown as an exception. *)
Definition tryParse (fuel : nat) (text : str) : res Statement :=
  skip (kql.parser fuel) eof text.

(** ** JavaScript conversions used by the compiler *)

(** What IEEE-754 makes of a literal that is not a small integer: its
    rendering, its predecessor [x - 1], and whether it is zero. *)
Record DecOps := {
  decToString : str -> str;
  decPred : str -> jsnum;
  decIsZero : str -> bool
}.

Definition natToString (n : nat) : str :=
  js (DecimalString.NilZero.string_of_uint (Nat.to_uint n)).

Definition intToString (z : Z) : str :=
  js (DecimalString.NilZero.string_of_int (Z.to_int z)).

Fixpoint joinWith (sep : str) (l : list str) : str :=
  match l with
  | [] => []
  | [x] => x
  | x :: l' => x ++ sep ++ joinWith sep l'
  end.

Definition toLowerChar (c : char) : char := if in_range 65 90 c then c + 32 else c.
Definition toUpperChar (c : char) : char := if in_range 97 122 c then c - 32 else c.

(** Case mapping on the ASCII letters; other code units are kept. *)
Definition toLowerCase (s : str) : str := map toLowerChar s.
Definition toUpperCase (s : str) : str := map toUpperChar s.

Fixpoint dropWhile (f : char -> bool) (s : str) : str :=
  match s with
  | [] => []
  | c :: s' => if f c then dropWhile f s' else s
  end.

Definition trim (s : str) : str :=
  rev (dropWhile is_space (rev (dropWhile is_space s))).

Section Conversions.
Variable ops : DecOps.

Definition numToString (n : jsnum) : str :=
  match n with
  | Int z => intToString z
  | Dec l => decToString ops l
  end.

(** [value - 1]; below -2^53 the difference rounds back. *)
Definition numPred (n : jsnum) : jsnum :=
  match n with
  | Int z => Int (Z.max (z - 1) (- max_safe))
  | Dec l => decPred ops l
  end.

(** [String(v)], as in a template literal. *)
Fixpoint toStr (v : Value) : str :=
  match v with
  | VNull => js "null"
  | VBool b => if b then js "true" else js "false"
  | VNumber n => numToString n
  | VString s => s
  | VObject _ => js "[object Object]"
  | VFn _ _ => js "[object Object]"
  | VArray l =>
    joinWith (js ",")
      (map (fun x => match x with VNull => [] | _ => toStr x end) l)
  end.

(** One element under [Array.prototype.join]: holes, [undefined] and
    [null] give the empty string. *)
Definition joinItem (x : option Value) : str :=
  match x with
  | None | Some VNull => []
  | Some v => toStr v
  end.

Definition arrayJoin (sep : str) (l : list (option Value)) : str :=
  joinWith sep (map joinItem l).

Definition truthy (v : Value) : bool :=
  match v with
  | VNull => false
  | VBool b => b
  | VNumber (Int z) => negb (z =? 0)%Z
  | VNumber (Dec l) => negb (decIsZero ops l)
  | VString s => negb (bool_decide (s = []))
  | _ => true
  end.
End Conversions.

(** [a[i] = v] on an array: extends with holes when [i] is past the end. *)
Definition arraySet {A} (i : nat) (v : option A) (a : list (option A)) : list (option A) :=
  if (i <? length a)%nat then <[i := v]> a
  else a ++ replicate (i - length a) None ++ [v].

(** [a[i]]: [undefined] for a hole and past the end. *)
Definition arrayGet {A} (i : nat) (a : list (option A)) : option A :=
  match a !! i with Some x => x | None => None end.

(** ** Exceptions, calls and responses *)

(** What [parseSelect] can throw.  [Unmodelled] is not an exception of the
    program: it marks the one input the embedding does not follow, an
    object literal that carries a key [fnName] and stands under one of
    [tile38FnKeys], where the code goes on to read [fnName] and [arguments]
    off whatever the literal holds. *)
Inductive exn :=
| TypeError
| Error (msg : str)
| Unmodelled.

(** The HTTP calls of the compiler, by endpoint: the service registry, the
    spatial engine's query endpoint (the area lookups post a query alone,
    the final dispatch a query and a filter), the record service, and the
    spatial engine's registration endpoint (whose url is the record
    service's address followed by the serialised parameter map). *)
Inductive call :=
| GetServices
| PostQuery (query : option str) (filter : option Value)
| GetMetabaseCard (params : gmap str Value)
| PostAdd (params : gmap str Value) (id_field geometry : Value).

(** What the remote systems answer.  Every call is taken to return: the
    registry an object, an area lookup either nothing or a row whose first
    two entries are an id and a geometry, the record service a list of
    rows, the registration a key (or [undefined]).  A call that fails
    rejects [parseSelect] at that point and is not modelled. *)
Record backend := {
  services : gmap str Value;
  adminLookup : option str -> option (option Value * option Value);
  metabaseCard : gmap str Value -> list (gmap str Value);
  addKey : gmap str Value -> Value -> Value -> option Value
}.

Record AreaEntry := {
  area_name : option Value;
  area_id : option Value;
  area_geometry : option Value
}.

Record memorizeAreas := {
  admin2 : gmap str AreaEntry;
  admin3 : gmap str AreaEntry;
  admin4 : gmap str AreaEntry
}.

Record tile38Query := {
  head : list (option Value);
  conditions : list str;
  location : list (option Value);
  filter : Value
}.

(** The state of one compilation: both accumulators, the calls issued so
    far and the area cache. *)
Record builder := {
  tile38 : tile38Query;
  metabaseQuery : gmap str Value;
  trace : list call;
  cache : memorizeAreas
}.

Inductive completion :=
| Normal (b : builder)
| Throw (e : exn) (b : builder).

Definition andThen (c : completion) (k : builder -> completion) : completion :=
  match c with
  | Normal b => k b
  | Throw e b => Throw e b
  end.

Definition emit (c : call) (b : builder) : builder :=
  {| tile38 := tile38 b; metabaseQuery := metabaseQuery b;
     trace := trace b ++ [c]; cache := cache b |}.

Definition withTile38 (f : tile38Query -> tile38Query) (b : builder) : builder :=
  {| tile38 := f (tile38 b); metabaseQuery := metabaseQuery b;
     trace := trace b; cache := cache b |}.

Definition withMetabase (f : gmap str Value -> gmap str Value) (b : builder) : builder :=
  {| tile38 := tile38 b; metabaseQuery := f (metabaseQuery b);
     trace := trace b; cache := cache b |}.

Definition withCache (f : memorizeAreas -> memorizeAreas) (b : builder) : builder :=
  {| tile38 := tile38 b; metabaseQuery := metabaseQuery b;
     trace := trace b; cache := f (cache b) |}.

Definition setHead (i : nat) (v : option Value) (q : tile38Query) : tile38Query :=
  {| head := arraySet i v (head q); conditions := conditions q;
     location := location q; filter := filter q |}.

Definition pushCondition (c : str) (q : tile38Query) : tile38Query :=
  {| head := head q; conditions := conditions q ++ [c];
     location := location q; filter := filter q |}.

Definition setLocation0 (v : option Value) (q : tile38Query) : tile38Query :=
  {| head := head q; conditions := conditions q;
     location := arraySet 0 v (location q); filter := filter q |}.

Definition pushLocation (vs : list (option Value)) (q : tile38Query) : tile38Query :=
  {| head := head q; conditions := conditions q;
     location := location q ++ vs; filter := filter q |}.

Definition setFilter (v : Value) (q : tile38Query) : tile38Query :=
  {| head := head q; conditions := conditions q;
     location := location q; filter := v |}.

Definition setAdmin2 (k : str) (e : AreaEntry) (m : memorizeAreas) : memorizeAreas :=
  {| admin2 := <[k := e]> (admin2 m); admin3 := admin3 m; admin4 := admin4 m |}.

Definition setAdmin3 (k : str) (e : AreaEntry) (m : memorizeAreas) : memorizeAreas :=
  {| admin2 := admin2 m; admin3 := <[k := e]> (admin3 m); admin4 := admin4 m |}.

Definition setAdmin4 (k : str) (e : AreaEntry) (m : memorizeAreas) : memorizeAreas :=
  {| admin2 := admin2 m; admin3 := admin3 m; admin4 := <[k := e]> (admin4 m) |}.

Definition strings_of (l : list Value) : option (list str) :=
  mapM (fun v => match v with VString s => Some s | _ => None end) l.

Definition num (z : Z) : option Value := Some (VNumber (Int z)).

Definition statusToNumber (status : str) : option Value :=
  let k := trim (toLowerCase status) in
  if str_eqb k (js "online") then num 1
  else if str_eqb k (js "busy") then num 2
  else if str_eqb k (js "offline") then num 3
  else None.

Definition orderStatusToNumber (status : str) : option Value :=
  let k := trim (toLowerCase status) in
  if str_eqb k (js "idle") then num 1
  else if str_eqb k (js "assigning") then num 2
  else if str_eqb k (js "accepted") then num 3
  else if str_eqb k (js "in_process") then num 4
  else if str_eqb k (js "completed") then num 5
  else if str_eqb k (js "failed") then num 6
  else None.

(** [str.split("").map(c => c.charCodeAt(0)).join("")] *)
Definition str2Number (s : str) : str :=
  concat (map (fun c => natToString (N.to_nat c)) s).

Definition tile38FnKeys : list str :=
  [js "within"; js "nearby"; js "scan"; js "intersects"; js "search"].

Definition includes (l : list str) (x : str) : bool := bool_decide (x ∈ l).

Definition isTile38 (a : str) : bool :=
  str_eqb a (js "t") || str_eqb a (js "tile38").

(** ** getAdminLevel and parseSelect *)

Section Compiler.
Variable ops : DecOps.
Variable env : backend.

(** [`${x}`] where [x] may be [undefined]. *)
Definition template (x : option Value) : str :=
  match x with
  | None => js "undefined"
  | Some v => toStr ops v
  end.

Definition getAdminLevelQuery (level : str) (name name3 name4 : option Value)
  : option str :=
  if str_eqb level (js "admin2") then
    Some (js "scan admin-2 where name_" ++ template name ++ js " 1 1")
  else if str_eqb level (js "admin3") then
    Some (js "scan admin-3 where name_" ++ template name
          ++ js " 1 1 where parent_id_level_2 " ++ template name3
          ++ js " " ++ template name3)
  else if str_eqb level (js "admin4") then
    Some (js "scan admin-4 where name_" ++ template name
          ++ js " 1 1 where parent_id_level_2 " ++ template name3
          ++ js " " ++ template name3
          ++ js " where parent_id_level_3 " ++ template name4
          ++ js " " ++ template name4)
  else None.

(** A cached entry is the object [{name, id, geometry}]: its [[0]] and
    [[1]] are [undefined]. *)
Definition cachedRow : option Value * option Value := (None, None).

(** Level 2 of [getAdminLevel]; [ids] is [admin.ids]. *)
Definition adminLevel2 (areas : list Value) (st : builder * list (option Value))
  : builder * list (option Value) :=
  let '(b, ids) := st in
  match areas !! 0%nat with
  | Some n0 =>
    if truthy ops n0 then
      let '(b1, admin2v) :=
        match admin2 (cache b) !! toStr ops n0 with
        | Some _ => (b, Some cachedRow)
        | None =>
          let q := getAdminLevelQuery (js "admin2") (Some n0) None None in
          (emit (PostQuery q None) b, adminLookup env q)
        end in
      match admin2v with
      | Some (id, geo) =>
        (withCache (setAdmin2 (toStr ops n0)
           {| area_name := Some n0; area_id := id; area_geometry := geo |}) b1,
         arraySet 0 id ids)
      | None => (b1, ids)
      end
    else st
  | None => st
  end.

(** Level 3: the lookup on a miss is awaited and its answer dropped. *)
Definition adminLevel3 (areas : list Value) (st : builder * list (option Value))
  : builder * list (option Value) :=
  let '(b, ids) := st in
  match areas !! 1%nat with
  | Some n1 =>
    if truthy ops n1 then
      match admin3 (cache b) !! toStr ops n1 with
      | None =>
        (emit (PostQuery (getAdminLevelQuery (js "admin2") (areas !! 0%nat)
                            (arrayGet 0 ids) None) None) b, ids)
      | Some _ =>
        (withCache (setAdmin3 (toStr ops n1)
           {| area_name := Some n1; area_id := cachedRow.1;
              area_geometry := cachedRow.2 |}) b,
         arraySet 1 cachedRow.1 ids)
      end
    else st
  | None => st
  end.

(** Level 4 reads the level-3 cache and stores under [admin4]. *)
Definition adminLevel4 (areas : list Value) (st : builder * list (option Value))
  : builder * list (option Value) :=
  let '(b, ids) := st in
  match areas !! 2%nat with
  | Some n2 =>
    if truthy ops n2 then
      match admin3 (cache b) !! toStr ops n2 with
      | None =>
        (emit (PostQuery (getAdminLevelQuery (js "admin2") (areas !! 0%nat)
                            (arrayGet 0 ids) (arrayGet 1 ids)) None) b, ids)
      | Some _ =>
        (withCache (setAdmin4 (toStr ops n2)
           {| area_name := areas !! 1%nat; area_id := cachedRow.1;
              area_geometry := cachedRow.2 |}) b,
         arraySet 2 cachedRow.1 ids)
      end
    else st
  | None => st
  end.

Definition getAdminLevel (areas : list Value) (b : builder)
  : builder * list (option Value) :=
  adminLevel4 areas (adminLevel3 areas (adminLevel2 areas (b, []))).

(** [admin.getAdminId(level)] is [ids[level - 2]]. *)
Definition getAdminId (ids : list (option Value)) (level : nat) : option Value :=
  match level with
  | S (S i) => arrayGet i ids
  | _ => None
  end.
End Compiler.

(** How one round of the loop over [ast.where] leaves the spatial branch:
    by [continue], by falling out of the branch, or by an exception. *)
Inductive flow :=
| Continue (b : builder)
| Fallthrough (b : builder)
| Raise (e : exn) (b : builder).

Definition wherein (field : str) (count : nat) (items : str) : str :=
  js "wherein " ++ field ++ js " " ++ natToString count ++ js " " ++ items.

Definition metabaseNames : list str := [js "m"; js "metabase"; js "u"; js "url"].

Inductive outcome :=
| Returned
| Thrown (e : exn).

(** What one call of [parseSelect] did: the calls it issued, in order, the
    area cache it leaves, the two accumulators if it got to build them, and
    how it ended. *)
Record run := {
  run_calls : list call;
  run_cache : memorizeAreas;
  run_queries : option (tile38Query * gmap str Value);
  run_outcome : outcome
}.

Section Select.
Variable ops : DecOps.
Variable env : backend.

(** The numeric range clause, by operator. *)
Definition rangeClause (key operator : str) (value : jsnum) : option str :=
  let v := numToString ops value in
  let v1 := numToString ops (numPred ops value) in
  if str_eqb operator (js "=") then
    Some (js "where " ++ key ++ js " " ++ v ++ js " " ++ v)
  else if str_eqb operator (js ">") then
    Some (js "where " ++ key ++ js " " ++ v ++ js " +inf")
  else if str_eqb operator (js ">=") then
    Some (js "where " ++ key ++ js " " ++ v1 ++ js " +inf")
  else if str_eqb operator (js "<") then
    Some (js "where " ++ key ++ js " -inf " ++ v)
  else if str_eqb operator (js "<=") then
    Some (js "where " ++ key ++ js " -inf " ++ v1)
  else None.

(** The branch of the loop body taken when the alias is the spatial
    engine's or the key is one of [tile38FnKeys]. *)
Definition tile38Condition (key operator : str) (value : Value) (b : builder)
  : flow :=
  if includes tile38FnKeys key then
    let b1 := withTile38 (setHead 0 (Some (VString key))) b in
    match value with
    | VNull => Raise TypeError b1
    | VObject m =>
      match m !! js "fnName" with
      | Some _ => Raise Unmodelled b1
      | None => Continue b1
      end
    | VFn f args =>
      let b2 := withTile38 (setLocation0 (Some (VString f))) b1 in
      if str_eqb f (js "get") then
        let '(b3, ids) := getAdminLevel ops env args b2 in
        Continue (withTile38 (pushLocation [getAdminId ids (length args + 1)]) b3)
      else if str_eqb f (js "point") || str_eqb f (js "bounds") then
        Continue (withTile38 (pushLocation (map Some args)) b2)
      else Continue b2
    | _ => Continue b1
    end
  else if str_eqb key (js "id") then
    Continue (withTile38 (setHead 1 (Some value)) b)
  else if str_eqb key (js "status") then
    match value with
    | VArray l =>
      match strings_of l with
      | Some ss =>
        let status := map statusToNumber ss in
        Continue (withTile38 (pushCondition
          (wherein (js "status") (length status) (arrayJoin ops (js " ") status))) b)
      | None => Raise TypeError b
      end
    | _ => Raise TypeError b
    end
  else
    let b1 := if str_eqb key (js "filter")
              then withTile38 (setFilter value) b else b in
    if str_eqb key (js "service") then
      match value with
      | VArray l =>
        match strings_of l with
        | Some ss =>
          let serviceIds :=
            arrayJoin ops (js " ")
              (map (fun v => services env !! trim (toUpperCase v)) ss) in
          Continue (withTile38 (pushCondition
            (wherein (js "service") (length l) serviceIds)) b1)
        | None => Raise TypeError b1
        end
      | _ => Raise TypeError b1
      end
    else
      match value with
      | VArray l =>
        if str_eqb key (js "order_status") then
          match strings_of l with
          | Some ss =>
            let orderStatus := map orderStatusToNumber ss in
            Continue (withTile38 (pushCondition
              (wherein (js "order_status") (length orderStatus)
                 (arrayJoin ops (js " ") orderStatus))) b1)
          | None => Raise TypeError b1
          end
        else
          Continue (withTile38 (pushCondition
            (wherein key (length l) (arrayJoin ops (js " ") (map Some l)))) b1)
      | VNumber n =>
        match rangeClause key operator n with
        | Some clause => Fallthrough (withTile38 (pushCondition clause) b1)
        | None => Fallthrough b1
        end
      | _ => Fallthrough b1
      end.

(** The record-service branch of the loop body. *)
Definition metabaseCondition (alias key : str) (value : Value) (b : builder)
  : builder :=
  if includes metabaseNames alias then
    if str_eqb key (js "id")
    then withMetabase (insert (js "cardid") value) b
    else withMetabase (insert key value) b
  else b.

(** One round of [for (const condition of ast.where)]. *)
Definition whereStep (dbName : str) (condition : Condition) (b : builder)
  : completion :=
  let k := key (left_ condition) in
  let a := default dbName (alias (left_ condition)) in
  let value := right_ condition in
  if isTile38 a || includes tile38FnKeys k then
    match tile38Condition k (operator_ condition) value b with
    | Continue b' => Normal b'
    | Fallthrough b' => Normal (metabaseCondition a k value b')
    | Raise e b' => Throw e b'
    end
  else Normal (metabaseCondition a k value b).

Fixpoint whereLoop (dbName : str) (conds : list Condition) (b : builder)
  : completion :=
  match conds with
  | [] => Normal b
  | c :: conds' => andThen (whereStep dbName c b) (whereLoop dbName conds')
  end.

Definition findAlias (names : list str) (j : JoinCondition) : option Key :=
  List.find (fun o => match alias o with
                      | Some a => includes names a
                      | None => false
                      end) [jleft j; jright j].

(** [if (ast.join) { ... }] *)
Definition joinStep (j : option JoinCondition) (b : builder) : completion :=
  match j with
  | None => Normal b
  | Some jc =>
    let b1 := emit (GetMetabaseCard (metabaseQuery b)) b in
    let mData := metabaseCard env (metabaseQuery b) in
    let tItem := findAlias [js "t"; js "tile38"] jc in
    let mItem := findAlias [js "m"; js "metabase"] jc in
    let ids :=
      match mData, mItem with
      | [], _ => Some []
      | _ :: _, None => None
      | _ :: _, Some mi =>
        mapM (fun o : gmap str Value =>
                match o !! key mi with
                | Some (VString x) => Some (str2Number x)
                | _ => None
                end) mData
      end in
    match ids, tItem with
    | Some ids, Some ti =>
      Normal (withTile38 (pushCondition
        (wherein (key ti) (length ids) (joinWith (js " ") ids))) b1)
    | _, _ => Throw TypeError b1
    end
  end.

(** [if ("cast_to" in metabaseQuery) { ... }] *)
Definition castStep (b : builder) : completion :=
  match metabaseQuery b !! js "cast_to" with
  | None => Normal b
  | Some _ =>
    let q1 := delete (js "cast_to") (metabaseQuery b) in
    let idField := q1 !! js "id_field" in
    let geometry := q1 !! js "geometry" in
    let q2 := delete (js "geometry") (delete (js "id_field") q1) in
    let b1 := withMetabase (fun _ => q2) b in
    match idField with
    | Some idf =>
      if truthy ops idf then
        match geometry with
        | Some geo =>
          if truthy ops geo then
            Normal (withTile38 (setHead 1 (addKey env q2 idf geo))
                      (emit (PostAdd q2 idf geo) b1))
          else Throw (Error (js "missing geometry field")) b1
        | None => Throw (Error (js "missing geometry field")) b1
        end
      else Throw (Error (js "missing id_field field")) b1
    | None => Throw (Error (js "missing id_field field")) b1
    end
  end.

(** The query string posted to the spatial engine. *)
Definition command (q : tile38Query) (limit : option jsnum) : str :=
  arrayJoin ops (js " ")
    (head q
     ++ map (fun c => Some (VString c)) (conditions q)
     ++ [Some (VString (js "limit")); Some (VNumber (default (Int 100) limit))]
     ++ location q).

(** The two closing [if (dbName === ...)] blocks. *)
Definition dispatch (dbName : str) (limit : option jsnum) (b : builder) : builder :=
  let b1 :=
    if isTile38 dbName
    then emit (PostQuery (Some (command (tile38 b) limit)) (Some (filter (tile38 b)))) b
    else b in
  if str_eqb dbName (js "m") || str_eqb dbName (js "metabase")
  then emit (GetMetabaseCard (metabaseQuery b1)) b1
  else b1.

Definition emptyQuery : tile38Query :=
  {| head := []; conditions := []; location := []; filter := VObject ∅ |}.

(** The service registry is fetched, then the loop and the join block
    accumulate both queries. *)
Definition accumulate (memo : memorizeAreas) (ast : SelectAst)
  (conds : list Condition) : completion :=
  let b0 := {| tile38 := emptyQuery; metabaseQuery := ∅;
               trace := [GetServices]; cache := memo |} in
  andThen (whereLoop (name (sel_database ast)) conds b0)
          (joinStep (sel_join ast)).

(** Everything up to and including the [cast_to] block. *)
Definition build (memo : memorizeAreas) (ast : SelectAst) (conds : list Condition)
  : completion :=
  andThen (accumulate memo ast conds) castStep.

Definition finish (c : completion) : run :=
  match c with
  | Normal b =>
    {| run_calls := trace b; run_cache := cache b;
       run_queries := Some (tile38 b, metabaseQuery b);
       run_outcome := Returned |}
  | Throw e b =>
    {| run_calls := trace b; run_cache := cache b;
       run_queries := Some (tile38 b, metabaseQuery b);
       run_outcome := Thrown e |}
  end.

Definition parseSelect (memo : memorizeAreas) (ast : SelectAst) : run :=
  match sel_where ast with
  | None =>
    {| run_calls := []; run_cache := memo; run_queries := None;
       run_outcome := Returned |}
  | Some conds =>
    finish (andThen (build memo ast conds) (fun b =>
      Normal (dispatch (name (sel_database ast)) (sel_limit ast) b)))
  end.
End Select.

(** ** Notions the statements below use *)

(** An instance of [DecOps] for inputs that hold no literal outside the
    small integers: such inputs never reach it. *)
Definition noDec : DecOps :=
  {| decToString := fun l => l; decPred := Dec; decIsZero := fun _ => false |}.

Definition emptyAreas : memorizeAreas :=
  {| admin2 := ∅; admin3 := ∅; admin4 := ∅ |}.

(** A backend that knows no service and no area, has no rows and hands
    out the key [k1]. *)
Definition quietBackend : backend :=
  {| services := ∅;
     adminLookup := fun _ => None;
     metabaseCard := fun _ => [];
     addKey := fun _ _ _ => Some (VString (js "k1")) |}.

(** Calls to the two backends proper; the registry fetch is not counted. *)
Definition backendCall (c : call) : bool :=
  match c with
  | GetServices => false
  | _ => true
  end.

(** Calls that can precede the [cast_to] block: the registry fetch, an
    area lookup (a query posted without a filter) and the join's query. *)
Definition earlyCall (c : call) : bool :=
  match c with
  | GetServices => true
  | PostQuery _ None => true
  | GetMetabaseCard _ => true
  | _ => false
  end.

(** What [token] leaves of the input that follows a token: the whitespace
    is skipped, then one comment if there is one. *)
Definition trail (s : str) : str :=
  let r := (span is_space s).2 in
  match comment_regexp r with
  | Ok _ r' => r'
  | _ => r
  end.

(** The input goes on with a comma or a closing bracket. *)
Definition delimited (r : str) : bool :=
  match r with
  | c :: _ => (c =? 44) || (c =? 93) || (c =? 41)
  | [] => false
  end.

(** [l] is the text of a value literal denoting [v]: placed after a token
    and before a comma or a closing bracket, it is read as [v] and nothing
    more. *)
Definition literal (fuel : nat) (l : str) (v : Value) : Prop :=
  forall r, delimited r = true -> kql.value fuel (trail (l ++ r)) = Ok v r.

(** The text that follows the first literal of a sequence: a comma before
    each of the others, then the closing bracket [c]. *)
Definition tailText (ls : list str) (c : char) (rest : str) : str :=
  concat (map (fun y => js "," ++ y) ls) ++ c :: rest.

(** What [token(comment)], with which every [word] begins, leaves of the
    input. *)
Definition lead (s : str) : str :=
  match token comment s with
  | Ok _ r => r
  | _ => s
  end.

Definition databaseNames : list str :=
  [js "tile38"; js "metabase"; js "url"; js "t"; js "m"; js "u"].

(** The input does not go on with a lower-case letter. *)
Definition nameEnd (rest : str) : bool :=
  match rest with
  | c :: _ => negb (in_range 97 122 c)
  | [] => true
  end.

(** The part of [r.select] that reads [select * from] and the database. *)
Definition selectHead : Parser DatabaseRef :=
  then_ whitespace (
  then_ (word (js "select")) (
  then_ (word (js "*")) (
  then_ (word (js "from")) kql.databaseRef))).

(** [selectHead] and the keyword [join]. *)
Definition joinHead : Parser DatabaseRef :=
  chain selectHead (fun d => result (word (js "join")) d).

(** The part of [r.join] that follows the keyword. *)
Definition joinRest : Parser JoinCondition :=
  then_ (skip kql.databaseName (word (js "on"))) kql.joinCondition.

(** The part of [r.select] that follows the join: [where], [limit] and the
    closing comment. *)
Definition afterJoin (v : Parser Value) (d : DatabaseRef) (j : option JoinCondition)
  : Parser Statement :=
  skip (chain (kql.optional (kql.where_ v)) (fun w =>
        map_ (fun l => Select {| sel_database := d; sel_join := j;
                                 sel_where := w; sel_limit := l |})
             (kql.optional kql.limit))) kql.comment.

(** A code unit that opens no whitespace and no comment. *)
Definition plain (c : char) : bool := negb (is_space c) && negb (c =? c_minus).

(** [q] agrees with [p] wherever [p] does not run out of fuel. *)
Definition refines {A} (p q : Parser A) : Prop :=
  forall s, p s <> Abort OutOfFuel -> q s = p s.

(** A parser never hands back more input than it was given. *)
Definition nonincr {A} (p : Parser A) : Prop :=
  forall s v r, p s = Ok v r -> (length r <= length s)%nat.

(** A parser that succeeds has consumed something. *)
Definition consumes {A} (p : Parser A) : Prop :=
  forall s v r, p s = Ok v r -> (length r < length s)%nat.

(** A parser has fuel enough for every input shorter than [n]. *)
Definition safe {A} (n : nat) (p : Parser A) : Prop :=
  forall s, (length s < n)%nat -> p s <> Abort OutOfFuel.

(** A parser that has no use for fuel. *)
Definition fuelless {A} (p : Parser A) : Prop :=
  forall s, p s <> Abort OutOfFuel.

(** [kql.parser.tryParse(text)], with fuel that is shown to suffice. *)
Definition parse (text : str) : res Statement :=
  tryParse (S (length text)) text.

Definition builderOf (c : completion) : builder :=
  match c with
  | Normal b => b
  | Throw _ b => b
  end.

(** [select * from m join t on t.id = m.order_id where m.cast_to = 't'] *)
Definition castOnly : SelectAst :=
  {| sel_database := {| name := js "m"; db_alias := None |};
     sel_join := Some {| jleft := {| alias := Some (js "t"); key := js "id" |};
                         jright := {| alias := Some (js "m"); key := js "order_id" |} |};
     sel_where := Some [ {| left_ := {| alias := Some (js "m"); key := js "cast_to" |};
                            operator_ := js "="; right_ := VString (js "t") |} ];
     sel_limit := None |}.

(** [select * from t where within in point(1, 2) and id = 'order-stop'
    and age > 18] *)
Definition spatialExample : SelectAst :=
  {| sel_database := {| name := js "t"; db_alias := None |};
     sel_join := None;
     sel_where := Some [
       {| left_ := {| alias := None; key := js "within" |}; operator_ := js "in";
          right_ := VFn (js "point") [VNumber (Int 1); VNumber (Int 2)] |};
       {| left_ := {| alias := None; key := js "id" |}; operator_ := js "=";
          right_ := VString (js "order-stop") |};
       {| left_ := {| alias := None; key := js "age" |}; operator_ := js ">";
          right_ := VNumber (Int 18) |} ];
     sel_limit := None |}.

Definition earlyTrace (b : builder) : Prop :=
  Forall (fun c => earlyCall c = true) (trace b).

Definition specialKeys : list str :=
  tile38FnKeys ++ [js "id"; js "status"; js "order_status"; js "service"; js "filter"].

(** ** The other exports of the compiler's module *)

(** [numberToOrderStatus] and [numberToStatus], on the integers. *)
Definition numberToOrderStatus (status : Z) : option str :=
  if (status =? 1)%Z then Some (js "idle")
  else if (status =? 2)%Z then Some (js "assigning")
  else if (status =? 3)%Z then Some (js "accepted")
  else if (status =? 4)%Z then Some (js "in_process")
  else if (status =? 5)%Z then Some (js "completed")
  else if (status =? 6)%Z then Some (js "failed")
  else None.

Definition numberToStatus (status : Z) : option str :=
  if (status =? 1)%Z then Some (js "online")
  else if (status =? 2)%Z then Some (js "busy")
  else if (status =? 3)%Z then Some (js "offline")
  else None.

(** [s.split(sep)] for a separator of one code unit. *)
Fixpoint split (sep : char) (s : str) : list str :=
  match s with
  | [] => [[]]
  | c :: s' =>
    if c =? sep then [] :: split sep s'
    else match split sep s' with
         | p :: ps => (c :: p) :: ps
         | [] => [[c]]
         end
  end.

(** [str.charAt(0).toUpperCase() + str.slice(1).toLowerCase()] *)
Definition capitalize (s : str) : str :=
  match s with
  | [] => []
  | c :: r => toUpperChar c :: toLowerCase r
  end.

Definition normalizeAreaName (name : str) : str :=
  joinWith [c_underscore] (map capitalize (split c_underscore name)).

(** [v?.fnName] and [v.arguments] on a value. *)
Definition fnNameOf (v : Value) : option Value :=
  match v with
  | VFn f _ => Some (VString f)
  | VObject m => m !! js "fnName"
  | _ => None
  end.

Definition argumentsOf (v : Value) : option Value :=
  match v with
  | VFn _ args => Some (VArray args)
  | VObject m => m !! js "arguments"
  | _ => None
  end.

Definition isGet (o : Condition) : bool :=
  match fnNameOf (right_ o) with
  | Some (VString f) => str_eqb f (js "get")
  | _ => false
  end.

(** [getAreas]: [inr None] is [null], [inl] an exception. *)
Definition getAreas (ast : SelectAst) : exn + option (list str) :=
  match sel_where ast with
  | None => inr None
  | Some conds =>
    match List.find isGet conds with
    | Some token =>
      match argumentsOf (right_ token) with
      | Some (VArray l) =>
        match strings_of l with
        | Some names => inr (Some (map normalizeAreaName names))
        | None => inl TypeError
        end
      | _ => inl TypeError
      end
    | None => inr None
    end
  end.

(** The function that [r.object] maps over its pairs. *)
Definition objectOf (pairs : list (str * Value)) : gmap str Value :=
  fold_left (fun o (kv : str * Value) => <[kv.1 := kv.2]> o) pairs ∅.

(** ** More notions for the statements below *)

(** A parser that never throws. *)
Definition quiet {A} (p : Parser A) : Prop := forall s e, p s <> Abort e.

(** A parser that never throws the error of [.many()]. *)
Definition noloop {A} (p : Parser A) : Prop :=
  forall s, p s <> Abort InfiniteLoop.

(** Code units of the ASCII range, on which the case mappings of the
    embedding are those of JavaScript. *)
Definition ascii (s : str) : Prop := Forall (fun c => c < 128) s.

(** Every name cached in [m] is cached in [m']. *)
Definition cacheLe (m m' : memorizeAreas) : Prop :=
  (forall k, is_Some (admin2 m !! k) -> is_Some (admin2 m' !! k))
  /\ (forall k, is_Some (admin3 m !! k) -> is_Some (admin3 m' !! k))
  /\ (forall k, is_Some (admin4 m !! k) -> is_Some (admin4 m' !! k)).

(** The builder a completion ends with. *)
Definition holds (P : builder -> Prop) (c : completion) : Prop :=
  match c with
  | Normal b => P b
  | Throw _ b => P b
  end.

Definition isOk {A} (r : res A) : bool :=
  match r with
  | Ok _ _ => true
  | _ => false
  end.

(** A code unit that a string literal holds as it is: no quote, no
    backslash, no line terminator. *)
Definition contentChar (c : char) : bool :=
  negb (is_quote c) && is_dot c && negb (c =? c_backslash).

(** The calls a compilation of [ast] may make once the registry is
    fetched: area lookups and the registration at any time, a query with a
    filter when the database is the spatial engine, a query to the record
    service when the statement has a join or the database is the record
    service; never the registry fetch again. *)
Definition allowedCall (ast : SelectAst) (c : call) : Prop :=
  match c with
  | GetServices => False
  | PostQuery _ None => True
  | PostQuery _ (Some _) => isTile38 (name (sel_database ast)) = true
  | GetMetabaseCard _ =>
    sel_join ast <> None
    \/ str_eqb (name (sel_database ast)) (js "m")
       || str_eqb (name (sel_database ast)) (js "metabase") = true
  | PostAdd _ _ _ => True
  end.

(** [b'] is a later state of the compilation of [ast] that [b] belongs
    to. *)
Definition after (ast : SelectAst) (b b' : builder) : Prop :=
  (exists extra, trace b' = trace b ++ extra
                 /\ Forall (allowedCall ast) extra)
  /\ cacheLe (cache b) (cache b').

(** The property names an object literal inherits: reading one of them
    off an object finds a value the object does not hold itself, and
    writing [__proto__] stores none. *)
Definition inheritedNames : list str :=
  [js "constructor"; js "toString"; js "toLocaleString"; js "valueOf";
   js "hasOwnProperty"; js "isPrototypeOf"; js "propertyIsEnumerable";
   js "__proto__"; js "__defineGetter__"; js "__defineSetter__";
   js "__lookupGetter__"; js "__lookupSetter__"].

(** Every index from 1 on is a hole or [undefined]. *)
Definition onlyFirst (ids : list (option Value)) : Prop :=
  forall i, (1 <= i)%nat -> arrayGet i ids = None.

(** A backend that knows one area, [Hanoi], under the id [7]. *)
Definition hanoiBackend : backend :=
  {| services := ∅;
     adminLookup := fun q =>
       if bool_decide (q = Some (js "scan admin-2 where name_Hanoi 1 1"))
       then Some (Some (VNumber (Int 7)), None) else None;
     metabaseCard := fun _ => [];
     addKey := fun _ _ _ => None |}.

Definition freshBuilder : builder :=
  {| tile38 := emptyQuery; metabaseQuery := ∅; trace := [GetServices];
     cache := emptyAreas |}.

(** [select * from m where id = 21041 and cast_to = 't'
    and id_field = 'order_id' and geometry = 'point'] *)
Definition castExample : SelectAst :=
  {| sel_database := {| name := js "m"; db_alias := None |};
     sel_join := None;
     sel_where := Some [
       {| left_ := {| alias := None; key := js "id" |}; operator_ := js "=";
          right_ := VNumber (Int 21041) |};
       {| left_ := {| alias := None; key := js "cast_to" |}; operator_ := js "=";
          right_ := VString (js "t") |};
       {| left_ := {| alias := None; key := js "id_field" |}; operator_ := js "=";
          right_ := VString (js "order_id") |};
       {| left_ := {| alias := None; key := js "geometry" |}; operator_ := js "=";
          right_ := VString (js "point") |} ];
     sel_limit := None |}.


(** Keys the spatial branch treats by name, whatever the right value. *)
Definition namedKeys : list str :=
  tile38FnKeys ++ [js "id"; js "status"; js "service"; js "filter"].

(** A value that is neither an array nor a number. *)
Definition scalarOrObject (v : Value) : bool :=
  match v with
  | VArray _ | VNumber _ => false
  | _ => true
  end.

(** The input does not go on with a digit, a dot or an exponent mark. *)
Definition numberEnd (rest : str) : bool :=
  match rest with
  | c :: _ => negb (is_digit c) && negb (c =? c_dot)
              && negb ((c =? 101) || (c =? 69))
  | [] => true
  end.

(** ** Ordinary inputs

    The embedding reads an object as the map of its own properties, with
    the prototype every object literal starts with, and renders it as
    [[object Object]].  JavaScript does otherwise in a few corners: an
    assignment under the key [__proto__] replaces the prototype instead
    of storing an entry, a property read finds what the prototype chain
    holds, an object with an own [toString] entry cannot be rendered and
    throws a [TypeError], and the case mappings go beyond ASCII.  The
    statements about the compiler that depend on those corners are made
    for the inputs below, on which the embedding and the code agree. *)

(** An object that holds neither [toString] nor [__proto__]. *)
Definition plainObject (m : gmap str Value) : bool :=
  match m !! js "toString", m !! js "__proto__" with
  | None, None => true
  | _, _ => false
  end.

(** A value that [String] and [Array.prototype.join] render without
    throwing and as the embedding renders it: its objects are plain, as
    are the elements of its arrays and the arguments of its calls, and
    its integers are of the exact range. *)
Fixpoint plainValue (v : Value) : bool :=
  match v with
  | VObject m => plainObject m
  | VArray l => forallb plainValue l
  | VFn _ args => forallb plainValue args
  | VNumber (Int z) => (- max_safe <=? z)%Z && (z <=? max_safe)%Z
  | _ => true
  end.

Definition plainItem (x : option Value) : bool :=
  match x with
  | Some v => plainValue v
  | None => true
  end.

(** An object literal that carries [fnName]. *)
Definition fnObject (v : Value) : bool :=
  match v with
  | VObject m => match m !! js "fnName" with Some _ => true | None => false end
  | _ => false
  end.

(** An array whose strings are of the ASCII range. *)
Definition asciiStrings (v : Value) : bool :=
  match v with
  | VArray l =>
    forallb (fun x => match x with
                      | VString s => forallb (fun c => c <? 128) s
                      | _ => true
                      end) l
  | _ => true
  end.

(** A string of UTF-16 units in which every surrogate is paired: the
    strings [encodeURIComponent] accepts; on any other it throws
    [URIError]. *)
Fixpoint wellFormed (s : str) : bool :=
  match s with
  | [] => true
  | c :: r =>
    if in_range 55296 56319 c then
      match r with
      | d :: r' => in_range 56320 57343 d && wellFormed r'
      | [] => false
      end
    else negb (in_range 56320 57343 c) && (c <? 65536) && wellFormed r
  end.

(** A value the parameter map can hold when it is written into a URL
    ([qs.stringify] for the registration, [params] of the record
    service's GET): its strings, also inside arrays, are well formed.
    Objects go through [JSON.stringify] or [String], which escape or drop
    what they hold. *)
Fixpoint encodable (v : Value) : bool :=
  match v with
  | VString s => wellFormed s
  | VArray l => forallb encodable l
  | _ => true
  end.

Section Ordinary.
Variable ops : DecOps.

(** An area whose name is none that the cache objects inherit. *)
Definition ownArea (a : Value) : bool :=
  negb (includes inheritedNames (toStr ops a)).

Definition ownAreas (v : Value) : bool :=
  match v with
  | VFn f args => if str_eqb f (js "get") then forallb ownArea args else true
  | _ => true
  end.

(** An ordinary condition: its key is not [__proto__], its right value is
    plain, under a spatial function key it is no object literal carrying
    [fnName] and its areas are the cache's own, under [service] its
    strings are ASCII, and its key and right value can be written into a
    URL. *)
Definition ordinary (c : Condition) : bool :=
  negb (str_eqb (key (left_ c)) (js "__proto__"))
  && plainValue (right_ c)
  && (if includes tile38FnKeys (key (left_ c))
      then negb (fnObject (right_ c)) && ownAreas (right_ c)
      else true)
  && (if str_eqb (key (left_ c)) (js "service")
      then asciiStrings (right_ c)
      else true)
  && wellFormed (key (left_ c))
  && encodable (right_ c).

(** An ordinary statement: its conditions are ordinary and its limit, if
    an integer, is of the exact range. *)
Definition ordinaryStatement (ast : SelectAst) : bool :=
  forallb ordinary (default [] (sel_where ast))
  && plainItem (VNumber <$> sel_limit ast).
End Ordinary.

(** A backend whose answers are plain where the compiler renders them:
    the service ids, the area ids and the registration key. *)
Definition plainBackend (env : backend) : Prop :=
  (forall k v, services env !! k = Some v -> plainValue v = true)
  /\ (forall q id geo, adminLookup env q = Some (id, geo) -> plainItem id = true)
  /\ (forall q idf geo, plainItem (addKey env q idf geo) = true).

(** A cache whose three objects still have the prototype they were
    created with: nothing was stored under [__proto__]. *)
Definition cleanCache (m : memorizeAreas) : bool :=
  match admin2 m !! js "__proto__", admin3 m !! js "__proto__",
        admin4 m !! js "__proto__" with
  | None, None, None => true
  | _, _, _ => false
  end.

(** Every value the final command renders is plain. *)
Definition plainQuery (b : builder) : Prop :=
  Forall (fun x => plainItem x = true) (head (tile38 b))
  /\ Forall (fun x => plainItem x = true) (location (tile38 b)).

(** * Properties *)

(** ** Small facts about string tests *)

Lemma str_eqb_true (a b : str) : str_eqb a b = true <-> a = b.
Proof. unfold str_eqb. apply bool_decide_eq_true. Qed.

Lemma str_eqb_false (a b : str) : str_eqb a b = false <-> a <> b.
Proof. unfold str_eqb. apply bool_decide_eq_false. Qed.

Lemma str_eqb_refl (a : str) : str_eqb a a = true.
Proof. by apply str_eqb_true. Qed.

Lemma includes_true (l : list str) (x : str) : includes l x = true <-> x ∈ l.
Proof. unfold includes. apply bool_decide_eq_true. Qed.

Lemma includes_false (l : list str) (x : str) : includes l x = false <-> x ∉ l.
Proof. unfold includes. apply bool_decide_eq_false. Qed.

Lemma includes_false_cons (l : list str) (x y : str) :
  includes (y :: l) x = false -> str_eqb x y = false /\ includes l x = false.
Proof.
  rewrite !includes_false, str_eqb_false, not_elem_of_cons. tauto.
Qed.

Lemma isTile38_names (a : str) :
  isTile38 a = true -> a = js "t" \/ a = js "tile38".
Proof.
  unfold isTile38. rewrite orb_true_iff, !str_eqb_true. tauto.
Qed.

Lemma isTile38_not_metabase (a : str) :
  isTile38 a = true -> includes metabaseNames a = false.
Proof. intros [-> | ->]%isTile38_names; reflexivity. Qed.

(** ** The spatial branch on numbers *)

Section RangeClauses.
Variable ops : DecOps.
Variable env : backend.

Lemma tile38Condition_number (k op : str) (v : jsnum) (b : builder) :
  includes specialKeys k = false ->
  tile38Condition ops env k op (VNumber v) b =
  match rangeClause ops k op v with
  | Some clause => Fallthrough (withTile38 (pushCondition clause) b)
  | None => Fallthrough b
  end.
Proof.
  intros Hk. unfold specialKeys in Hk.
  assert (Hfn : includes tile38FnKeys k = false).
  { apply includes_false. apply includes_false in Hk.
    intros Hin. apply Hk. apply elem_of_app. by left. }
  assert (Hrest : includes [js "id"; js "status"; js "order_status";
                            js "service"; js "filter"] k = false).
  { apply includes_false. apply includes_false in Hk.
    intros Hin. apply Hk. apply elem_of_app. by right. }
  apply includes_false_cons in Hrest as [Hid Hrest].
  apply includes_false_cons in Hrest as [Hstatus Hrest].
  apply includes_false_cons in Hrest as [_ Hrest].
  apply includes_false_cons in Hrest as [Hservice Hrest].
  apply includes_false_cons in Hrest as [Hfilter _].
  unfold tile38Condition. rewrite Hfn, Hid, Hstatus, Hfilter, Hservice.
  reflexivity.
Qed.

Lemma whereStep_number (dbName : str) (a : option str) (k op : str)
      (v : jsnum) (b : builder) :
  isTile38 (default dbName a) = true ->
  includes specialKeys k = false ->
  whereStep ops env dbName
    {| left_ := {| alias := a; key := k |}; operator_ := op;
       right_ := VNumber v |} b =
  match rangeClause ops k op v with
  | Some clause => Normal (withTile38 (pushCondition clause) b)
  | None => Normal b
  end.
Proof.
  intros Ha Hk. unfold whereStep. simpl.
  rewrite Ha. simpl. rewrite (tile38Condition_number _ _ _ _ Hk).
  unfold metabaseCondition.
  destruct (rangeClause ops k op v);
    rewrite (isTile38_not_metabase _ Ha); reflexivity.
Qed.
End RangeClauses.

(** C3.  A condition sent to the spatial engine whose key is none of the
    special keys and whose right value is an integer [z] appends one
    clause, chosen by the operator: [=] gives [where key z z], [>] gives
    [where key z +inf], [>=] gives [where key z-1 +inf], [<] gives
    [where key -inf z] and [<=] gives [where key -inf z-1], the numbers
    written in decimal.  The integer is of the range in which [z] and
    [z - 1] are exact: above -2^53 and at most 2^53. *)
Theorem C3_numeric_range_clause
    (ops : DecOps) (env : backend) (dbName : str) (a : option str)
    (k op : str) (z : Z) (b : builder)
    (Hspatial : isTile38 (default dbName a) = true)
    (Hkey : includes specialKeys k = false)
    (Hrange : (- max_safe < z <= max_safe)%Z) :
  let cond := {| left_ := {| alias := a; key := k |}; operator_ := op;
                 right_ := VNumber (Int z) |} in
  let push clause := Normal (withTile38 (pushCondition clause) b) in
  let s := intToString z in
  let s1 := intToString (z - 1) in
  (op = js "=" ->
   whereStep ops env dbName cond b =
   push (js "where " ++ k ++ js " " ++ s ++ js " " ++ s)) /\
  (op = js ">" ->
   whereStep ops env dbName cond b =
   push (js "where " ++ k ++ js " " ++ s ++ js " +inf")) /\
  (op = js ">=" ->
   whereStep ops env dbName cond b =
   push (js "where " ++ k ++ js " " ++ s1 ++ js " +inf")) /\
  (op = js "<" ->
   whereStep ops env dbName cond b =
   push (js "where " ++ k ++ js " -inf " ++ s)) /\
  (op = js "<=" ->
   whereStep ops env dbName cond b =
   push (js "where " ++ k ++ js " -inf " ++ s1)).
Proof.
  intros cond push s s1. subst cond.
  assert (Hpred : numPred ops (Int z) = Int (z - 1)).
  { unfold numPred. f_equal. lia. }
  repeat split; intros ->;
    rewrite (whereStep_number ops env _ _ _ _ _ _ Hspatial Hkey);
    unfold rangeClause; rewrite ?Hpred; reflexivity.
Qed.

(** The condition [t.age >= 18] appends the clause [where age 17 +inf]. *)
Lemma C3_age_ge_18 :
  whereStep noDec quietBackend (js "t")
    {| left_ := {| alias := Some (js "t"); key := js "age" |};
       operator_ := js ">="; right_ := VNumber (Int 18) |}
    {| tile38 := emptyQuery; metabaseQuery := ∅; trace := [GetServices];
       cache := emptyAreas |}
  = Normal
      {| tile38 := {| head := []; conditions := [js "where age 17 +inf"];
                      location := []; filter := VObject ∅ |};
         metabaseQuery := ∅; trace := [GetServices]; cache := emptyAreas |}.
Proof.
  assert (Hrange : (- max_safe < 18 <= max_safe)%Z) by (unfold max_safe; lia).
  pose proof (C3_numeric_range_clause noDec quietBackend (js "t")
                (Some (js "t")) (js "age") (js ">=") 18
                {| tile38 := emptyQuery; metabaseQuery := ∅;
                   trace := [GetServices]; cache := emptyAreas |}
                eq_refl eq_refl Hrange) as H.
  destruct H as (_ & _ & Hge & _).
  rewrite (Hge eq_refl). vm_compute. reflexivity.
Defined.

(** ** The record-service branch *)

(** C2, as the code has it.  A condition that is not sent to the spatial
    engine becomes the entry [key: value] of the parameter map ([id] being
    stored as [cardid]) when its alias, written or defaulted to the
    database name, is one of [m], [metabase], [u], [url] and its key is
    not [__proto__], under which an assignment stores no entry; under any
    other alias it leaves both accumulators as they were. *)
Theorem C2_record_service_condition
    (ops : DecOps) (env : backend) (dbName : str) (c : Condition) (b : builder)
    (Halias : isTile38 (default dbName (alias (left_ c))) = false)
    (Hkey : includes tile38FnKeys (key (left_ c)) = false) :
  let a := default dbName (alias (left_ c)) in
  let k := key (left_ c) in
  (includes metabaseNames a = true -> k <> js "__proto__" ->
   whereStep ops env dbName c b =
   Normal (withMetabase
             (insert (if str_eqb k (js "id") then js "cardid" else k) (right_ c)) b))
  /\
  (includes metabaseNames a = false -> whereStep ops env dbName c b = Normal b).
Proof.
  intros a k. subst a k. unfold whereStep.
  rewrite Halias, Hkey. simpl. unfold metabaseCondition.
  split; [intros -> _ | intros ->; reflexivity].
  destruct (str_eqb (key (left_ c)) (js "id")); reflexivity.
Qed.

Lemma C2_record_service_condition_witness :
  whereStep noDec quietBackend (js "m")
    {| left_ := {| alias := None; key := js "id" |}; operator_ := js "=";
       right_ := VNumber (Int 21041) |}
    {| tile38 := emptyQuery; metabaseQuery := ∅; trace := [GetServices];
       cache := emptyAreas |}
  = Normal
      {| tile38 := emptyQuery;
         metabaseQuery := {[ js "cardid" := VNumber (Int 21041) ]};
         trace := [GetServices]; cache := emptyAreas |}.
Proof.
  destruct (C2_record_service_condition noDec quietBackend (js "m")
              {| left_ := {| alias := None; key := js "id" |};
                 operator_ := js "="; right_ := VNumber (Int 21041) |}
              {| tile38 := emptyQuery; metabaseQuery := ∅;
                 trace := [GetServices]; cache := emptyAreas |}
              eq_refl eq_refl) as [H _].
  rewrite (H eq_refl); [reflexivity | discriminate].
Defined.

(** The statement [select * from m where x.foo = 1] parses to a condition
    under the alias [x]; the condition is not sent to the spatial engine,
    and yet the parameter map gets no entry [foo]. *)
Lemma C2_unknown_alias_dropped :
  let c := {| left_ := {| alias := Some (js "x"); key := js "foo" |};
              operator_ := js "="; right_ := VNumber (Int 1) |} in
  let b := {| tile38 := emptyQuery; metabaseQuery := ∅;
              trace := [GetServices]; cache := emptyAreas |} in
  parse (js "select * from m where x.foo = 1")
  = Ok (Select {| sel_database := {| name := js "m"; db_alias := None |};
                  sel_join := None; sel_where := Some [c];
                  sel_limit := None |}) []
  /\ isTile38 (default (js "m") (alias (left_ c))) = false
  /\ includes tile38FnKeys (key (left_ c)) = false
  /\ whereStep noDec quietBackend (js "m") c b = Normal b
  /\ metabaseQuery b !! js "foo" = None.
Proof. vm_compute. repeat split; reflexivity. Qed.

(** ** Null [where] *)

(** C10.  With [where] null, [parseSelect] returns at once: no call is
    issued, neither accumulator is built and the area cache is untouched,
    whatever the database, the join and the limit. *)
Theorem C10_null_where_no_effect
    (ops : DecOps) (env : backend) (memo : memorizeAreas)
    (db : DatabaseRef) (j : option JoinCondition) (l : option jsnum) :
  parseSelect ops env memo
    {| sel_database := db; sel_join := j; sel_where := None; sel_limit := l |}
  = {| run_calls := []; run_cache := memo; run_queries := None;
       run_outcome := Returned |}.
Proof. reflexivity. Qed.

(** ** Strings *)

(** C5.  The string rule accepts a literal opened by one quote character
    and closed by the other, and returns what lies between them. *)
Theorem C5_quotes_need_not_match :
  kql.string ([c_dquote] ++ js "abc" ++ [c_squote]) = Ok (js "abc") []
  /\ kql.string ([c_squote] ++ js "abc" ++ [c_dquote]) = Ok (js "abc") [].
Proof. split; vm_compute; reflexivity. Qed.

(** C4, at the literal ['a\nb\nc'] (two escapes): the first escape becomes
    a line feed, the second stays a backslash followed by [n], where
    replacing every escape would give two line feeds. *)
Theorem C4_second_escape_kept :
  kql.string (js "'a\nb\nc'") = Ok (js "a" ++ [10] ++ js "b\nc") []
  /\ interpretEscapes_all 7 (js "a\nb\nc") = js "a" ++ [10] ++ js "b" ++ [10] ++ js "c"
  /\ interpretEscapes (js "a\nb\nc") <> interpretEscapes_all 7 (js "a\nb\nc").
Proof. vm_compute. repeat split; try reflexivity. discriminate. Qed.

(** ** What ordinary inputs guarantee *)

Lemma quietBackend_plain : plainBackend quietBackend.
Proof. repeat split; intros; simplify_eq; done. Qed.

(** ** What the final command renders *)

Lemma arraySet_plain (i : nat) (v : option Value) (a : list (option Value)) :
  plainItem v = true ->
  Forall (fun x => plainItem x = true) a ->
  Forall (fun x => plainItem x = true) (arraySet i v a).
Proof.
  intros Hv Ha. unfold arraySet. destruct (i <? length a)%nat.
  - by apply Forall_insert.
  - apply Forall_app. split; [done|]. apply Forall_app. split.
    + by apply Forall_replicate.
    + by constructor.
Qed.

Lemma arrayGet_plain (i : nat) (a : list (option Value)) :
  Forall (fun x => plainItem x = true) a -> plainItem (arrayGet i a) = true.
Proof.
  intros Ha. unfold arrayGet. destruct (a !! i) as [x|] eqn:E; [|done].
  by apply (Forall_lookup_1 _ _ _ _ Ha E).
Qed.

Lemma forallb_plain (l : list Value) :
  forallb plainValue l = true -> Forall (fun x => plainItem x = true) (map Some l).
Proof.
  induction l as [|v l IH]; simpl; [constructor|].
  intros [Hv Hl]%andb_true_iff. constructor; [done | by apply IH].
Qed.

Section PlainQuery.
Variable ops : DecOps.
Variable env : backend.
Hypothesis Hbackend : plainBackend env.

Lemma adminLevel2_plain (areas : list Value) (st : builder * list (option Value)) :
  Forall (fun x => plainItem x = true) st.2 ->
  tile38 (adminLevel2 ops env areas st).1 = tile38 st.1
  /\ Forall (fun x => plainItem x = true) (adminLevel2 ops env areas st).2.
Proof using Hbackend.
  destruct st as [b ids]. unfold adminLevel2. simpl. intros H.
  destruct Hbackend as (_ & Hid & _).
  repeat case_match; simplify_eq; simpl; (split; [done|]); try done;
    apply arraySet_plain; try done.
  - unfold cachedRow in *. by simplify_eq.
  - by eapply Hid.
Qed.

Lemma adminLevel3_plain (areas : list Value) (st : builder * list (option Value)) :
  Forall (fun x => plainItem x = true) st.2 ->
  tile38 (adminLevel3 ops areas st).1 = tile38 st.1
  /\ Forall (fun x => plainItem x = true) (adminLevel3 ops areas st).2.
Proof.
  destruct st as [b ids]. unfold adminLevel3. simpl. intros H.
  repeat case_match; simplify_eq; simpl; (split; [done|]); try done;
    by apply arraySet_plain.
Qed.

Lemma adminLevel4_plain (areas : list Value) (st : builder * list (option Value)) :
  Forall (fun x => plainItem x = true) st.2 ->
  tile38 (adminLevel4 ops areas st).1 = tile38 st.1
  /\ Forall (fun x => plainItem x = true) (adminLevel4 ops areas st).2.
Proof.
  destruct st as [b ids]. unfold adminLevel4. simpl. intros H.
  repeat case_match; simplify_eq; simpl; (split; [done|]); try done;
    by apply arraySet_plain.
Qed.

Lemma getAdminLevel_plain (areas : list Value) (b : builder) :
  tile38 (getAdminLevel ops env areas b).1 = tile38 b
  /\ Forall (fun x => plainItem x = true) (getAdminLevel ops env areas b).2.
Proof using Hbackend.
  unfold getAdminLevel.
  destruct (adminLevel2_plain areas (b, [])) as [E2 H2]; [constructor|].
  destruct (adminLevel3_plain areas _ H2) as [E3 H3].
  destruct (adminLevel4_plain areas _ H3) as [E4 H4].
  split; [|done]. by rewrite E4, E3, E2.
Qed.

Lemma tile38Condition_plain (c : Condition) (b : builder) :
  ordinary ops c = true -> plainQuery b ->
  match tile38Condition ops env (key (left_ c)) (operator_ c) (right_ c) b with
  | Continue b' | Fallthrough b' | Raise _ b' => plainQuery b'
  end.
Proof using Hbackend.
  intros Hc [Hh Hl]. unfold ordinary in Hc.
  apply andb_true_iff in Hc as [Hc _].
  apply andb_true_iff in Hc as [Hc _].
  apply andb_true_iff in Hc as [Hc _].
  apply andb_true_iff in Hc as [Hc _].
  apply andb_true_iff in Hc as [_ Hv].
  unfold tile38Condition.
  assert (H0 : forall x b0, plainItem x = true -> plainQuery b0 ->
                 plainQuery (withTile38 (setHead 0 x) b0)).
  { intros x b0 Hx [A B]. split; [by apply arraySet_plain | done]. }
  assert (H1 : forall x b0, plainItem x = true -> plainQuery b0 ->
                 plainQuery (withTile38 (setHead 1 x) b0)).
  { intros x b0 Hx [A B]. split; [by apply arraySet_plain | done]. }
  assert (HL : forall x b0, plainItem x = true -> plainQuery b0 ->
                 plainQuery (withTile38 (setLocation0 x) b0)).
  { intros x b0 Hx [A B]. split; [done | by apply arraySet_plain]. }
  assert (HP : forall xs b0, Forall (fun x => plainItem x = true) xs ->
                 plainQuery b0 -> plainQuery (withTile38 (pushLocation xs) b0)).
  { intros xs b0 Hx [A B]. split; [done | by apply Forall_app]. }
  assert (HC : forall s b0, plainQuery b0 ->
                 plainQuery (withTile38 (pushCondition s) b0)).
  { by intros s b0 [A B]. }
  assert (HF : forall v b0, plainQuery b0 ->
                 plainQuery (withTile38 (setFilter v) b0)).
  { by intros v b0 [A B]. }
  assert (Hb : plainQuery b) by done.
  repeat case_match; simplify_eq;
    repeat first [ done | apply HC | apply HF | apply H0; [done|]
                 | apply H1; [done|] | apply HL; [done|] ].
  - match goal with
    | E : getAdminLevel _ _ ?a ?b1 = (?b3, ?ids) |- _ =>
      destruct (getAdminLevel_plain a b1) as [Et Hi]; rewrite E in Et, Hi;
        simpl in Et, Hi
    end.
    split; simpl; rewrite Et; simpl.
    + by apply arraySet_plain.
    + apply Forall_app. split; [by apply arraySet_plain|].
      constructor; [|constructor]. unfold getAdminId.
      repeat case_match; try done. by apply arrayGet_plain.
  - apply HP; [by apply forallb_plain|]. by apply HL, H0.
Qed.
End PlainQuery.

Section PlainRun.
Variable ops : DecOps.
Variable env : backend.
Hypothesis Hbackend : plainBackend env.

Lemma whereStep_plain (dbName : str) (c : Condition) (b : builder) :
  ordinary ops c = true -> plainQuery b ->
  holds plainQuery (whereStep ops env dbName c b).
Proof using Hbackend.
  intros Hc Hb. unfold whereStep.
  pose proof (tile38Condition_plain ops env Hbackend c b Hc Hb) as Ht.
  assert (Hm : forall a k v b0, plainQuery b0 ->
                 plainQuery (metabaseCondition a k v b0)).
  { intros a k v b0 Hq. unfold metabaseCondition. by repeat case_match. }
  repeat case_match; simplify_eq; simpl; try done; by apply Hm.
Qed.

Lemma whereLoop_plain (dbName : str) (conds : list Condition) (b : builder) :
  forallb (ordinary ops) conds = true -> plainQuery b ->
  holds plainQuery (whereLoop ops env dbName conds b).
Proof using Hbackend.
  revert b. induction conds as [|c conds IH]; intros b Hc Hb; simpl; [done|].
  simpl in Hc. apply andb_true_iff in Hc as [Hc Hcs].
  pose proof (whereStep_plain dbName c b Hc Hb) as Hs.
  destruct (whereStep ops env dbName c b) as [b1|e b1]; simpl in *; [|done].
  by apply IH.
Qed.

Lemma joinStep_plain (j : option JoinCondition) (b : builder) :
  plainQuery b -> holds plainQuery (joinStep env j b).
Proof.
  intros Hb. unfold joinStep. repeat case_match; simplify_eq; simpl; done.
Qed.

Lemma castStep_plain (b : builder) :
  plainQuery b -> holds plainQuery (castStep ops env b).
Proof using Hbackend.
  intros [Hh Hl]. unfold castStep. destruct Hbackend as (_ & _ & Hk).
  repeat case_match; simplify_eq; simpl; try done.
  split; simpl; [|done]. apply arraySet_plain; [apply Hk | done].
Qed.

Lemma build_plain (memo : memorizeAreas) (ast : SelectAst)
      (conds : list Condition) :
  forallb (ordinary ops) conds = true ->
  holds plainQuery (build ops env memo ast conds).
Proof using Hbackend.
  intros Hc. unfold build, accumulate.
  pose proof (whereLoop_plain (name (sel_database ast)) conds
                {| tile38 := emptyQuery; metabaseQuery := ∅;
                   trace := [GetServices]; cache := memo |} Hc) as Hw.
  destruct (whereLoop _ _ _ _ _) as [b1|e b1]; simpl in *;
    [|apply Hw; by split].
  pose proof (joinStep_plain (sel_join ast) b1) as Hj.
  destruct (joinStep env (sel_join ast) b1) as [b2|e b2]; simpl in *;
    [|apply Hj, Hw; by split].
  apply castStep_plain, Hj, Hw. by split.
Qed.
End PlainRun.

(** An ordinary statement never takes the one path that the embedding
    does not follow. *)
Lemma whereStep_modelled (ops : DecOps) (env : backend) (dbName : str)
      (c : Condition) (b b' : builder) :
  ordinary ops c = true -> whereStep ops env dbName c b <> Throw Unmodelled b'.
Proof.
  intros Hc. unfold ordinary in Hc.
  apply andb_true_iff in Hc as [Hc _].
  apply andb_true_iff in Hc as [Hc _].
  apply andb_true_iff in Hc as [Hc _].
  apply andb_true_iff in Hc as [_ Hfn].
  unfold whereStep, tile38Condition.
  destruct (includes tile38FnKeys (key (left_ c))) eqn:Hk.
  - apply andb_true_iff in Hfn as [Hfn _]. rewrite orb_true_r.
    destruct (right_ c) as [| | | |m| |];
      try (repeat case_match; simplify_eq; done).
    simpl in Hfn. by destruct (m !! js "fnName").
  - repeat case_match; simplify_eq; done.
Qed.

Lemma whereLoop_modelled (ops : DecOps) (env : backend) (dbName : str)
      (conds : list Condition) (b b' : builder) :
  forallb (ordinary ops) conds = true ->
  whereLoop ops env dbName conds b <> Throw Unmodelled b'.
Proof.
  revert b. induction conds as [|c conds IH]; intros b Hc; simpl; [done|].
  simpl in Hc. apply andb_true_iff in Hc as [Hc Hcs].
  pose proof (whereStep_modelled ops env dbName c b b' Hc) as Hs.
  destruct (whereStep ops env dbName c b) as [b1|e b1]; simpl.
  - by apply IH.
  - intros [= -> ->]. done.
Qed.

Lemma build_modelled (ops : DecOps) (env : backend) (memo : memorizeAreas)
      (ast : SelectAst) (conds : list Condition) (b' : builder) :
  forallb (ordinary ops) conds = true ->
  build ops env memo ast conds <> Throw Unmodelled b'.
Proof.
  intros Hc. unfold build, accumulate.
  pose proof (whereLoop_modelled ops env (name (sel_database ast)) conds
                {| tile38 := emptyQuery; metabaseQuery := ∅;
                   trace := [GetServices]; cache := memo |} b' Hc) as Hw.
  destruct (whereLoop _ _ _ _ _) as [b1|e b1]; simpl; [|by intros [= -> ->]].
  unfold joinStep, castStep.
  repeat case_match; simplify_eq; simpl; try done;
    repeat case_match; done.
Qed.

(** ** Final dispatch *)

Lemma isTile38_not_m (a : str) :
  isTile38 a = true -> str_eqb a (js "m") || str_eqb a (js "metabase") = false.
Proof. intros [-> | ->]%isTile38_names; reflexivity. Qed.

(** C7.  On an ordinary statement, with a plain backend and a clean
    cache: when the database name is [t] or [tile38] and the accumulators
    have been built, one query is posted after the calls made so far: the
    head, the condition clauses, [limit] and the statement's limit (100
    when it has none), then the location, joined by spaces, together with
    the filter.  Every element of that command is plain, so the join
    renders it and does not throw. *)
Theorem C7_spatial_command_order
    (ops : DecOps) (env : backend) (memo : memorizeAreas)
    (ast : SelectAst) (conds : list Condition) (b : builder)
    (Hwhere : sel_where ast = Some conds)
    (Hordinary : ordinaryStatement ops ast = true)
    (Hbackend : plainBackend env)
    (Hclean : cleanCache memo = true)
    (Hbuild : build ops env memo ast conds = Normal b)
    (Hdb : isTile38 (name (sel_database ast)) = true) :
  parseSelect ops env memo ast =
  {| run_calls :=
       trace b ++
       [PostQuery
          (Some (arrayJoin ops (js " ")
                   (head (tile38 b)
                    ++ map (fun c => Some (VString c)) (conditions (tile38 b))
                    ++ [Some (VString (js "limit"));
                        Some (VNumber (default (Int 100) (sel_limit ast)))]
                    ++ location (tile38 b))))
          (Some (filter (tile38 b)))];
     run_cache := cache b;
     run_queries := Some (tile38 b, metabaseQuery b);
     run_outcome := Returned |}
  /\ Forall (fun x => plainItem x = true)
       (head (tile38 b)
        ++ map (fun c => Some (VString c)) (conditions (tile38 b))
        ++ [Some (VString (js "limit"));
            Some (VNumber (default (Int 100) (sel_limit ast)))]
        ++ location (tile38 b)).
Proof.
  split.
  - unfold parseSelect. rewrite Hwhere, Hbuild. simpl.
    unfold dispatch. rewrite Hdb, (isTile38_not_m _ Hdb). reflexivity.
  - unfold ordinaryStatement in Hordinary. rewrite Hwhere in Hordinary.
    apply andb_true_iff in Hordinary as [Hconds Hlimit].
    pose proof (build_plain ops env Hbackend memo ast conds Hconds) as Hp.
    rewrite Hbuild in Hp. destruct Hp as [Hh Hl].
    repeat (apply Forall_app; split); try done.
    + apply Forall_forall. intros x Hx.
      apply list_elem_of_fmap in Hx as (s & -> & _). done.
    + constructor; [done|]. constructor; [|constructor].
      destruct (sel_limit ast) as [n|]; [exact Hlimit | reflexivity].
Qed.

Lemma C7_spatial_command_order_witness :
  run_calls (parseSelect noDec quietBackend emptyAreas spatialExample)
  = [GetServices;
     PostQuery
       (Some (js "within order-stop where age 18 +inf limit 100 point 1 2"))
       (Some (VObject ∅))].
Proof.
  assert (Hb : build noDec quietBackend emptyAreas spatialExample
                 (default [] (sel_where spatialExample))
               = Normal (builderOf (build noDec quietBackend emptyAreas spatialExample
                                      (default [] (sel_where spatialExample)))))
    by (vm_compute; reflexivity).
  destruct (C7_spatial_command_order noDec quietBackend emptyAreas spatialExample
              _ _ eq_refl eq_refl quietBackend_plain eq_refl Hb eq_refl)
    as [-> _].
  vm_compute. reflexivity.
Defined.

(** ** Calls issued before the [cast_to] block *)

Section EarlyCalls.
Variable ops : DecOps.
Variable env : backend.

Lemma earlyTrace_emit (c : call) (b : builder) :
  earlyCall c = true -> earlyTrace b -> earlyTrace (emit c b).
Proof.
  unfold earlyTrace. simpl. intros Hc Hb.
  apply Forall_app. split; [done | by constructor].
Qed.

Lemma adminLevel2_early (areas : list Value) (st : builder * list (option Value)) :
  earlyTrace st.1 -> earlyTrace (adminLevel2 ops env areas st).1.
Proof.
  destruct st as [b ids]. simpl. intros Hb. unfold adminLevel2.
  repeat case_match; simplify_eq; simpl; try done;
    unfold earlyTrace; simpl; by apply (earlyTrace_emit (PostQuery _ None)).
Qed.

Lemma adminLevel3_early (areas : list Value) (st : builder * list (option Value)) :
  earlyTrace st.1 -> earlyTrace (adminLevel3 ops areas st).1.
Proof.
  destruct st as [b ids]. simpl. intros Hb. unfold adminLevel3.
  repeat case_match; simplify_eq; simpl; try done.
  by apply (earlyTrace_emit (PostQuery _ None)).
Qed.

Lemma adminLevel4_early (areas : list Value) (st : builder * list (option Value)) :
  earlyTrace st.1 -> earlyTrace (adminLevel4 ops areas st).1.
Proof.
  destruct st as [b ids]. simpl. intros Hb. unfold adminLevel4.
  repeat case_match; simplify_eq; simpl; try done.
  by apply (earlyTrace_emit (PostQuery _ None)).
Qed.

Lemma getAdminLevel_early (areas : list Value) (b : builder) :
  earlyTrace b -> earlyTrace (getAdminLevel ops env areas b).1.
Proof.
  intros Hb. unfold getAdminLevel.
  apply adminLevel4_early, adminLevel3_early, adminLevel2_early. done.
Qed.

Lemma tile38Condition_early (k op : str) (v : Value) (b : builder) :
  earlyTrace b ->
  match tile38Condition ops env k op v b with
  | Continue b' | Fallthrough b' | Raise _ b' => earlyTrace b'
  end.
Proof.
  intros Hb. unfold tile38Condition.
  repeat case_match; simplify_eq; try done.
  match goal with
  | H : getAdminLevel _ _ ?a ?b0 = (_, _) |- _ =>
    pose proof (getAdminLevel_early a b0) as He; rewrite H in He
  end.
  apply He. done.
Qed.

Lemma whereStep_early (dbName : str) (c : Condition) (b b' : builder) :
  earlyTrace b -> whereStep ops env dbName c b = Normal b' -> earlyTrace b'.
Proof.
  intros Hb. unfold whereStep.
  pose proof (tile38Condition_early (key (left_ c)) (operator_ c) (right_ c) b Hb) as Ht.
  unfold metabaseCondition.
  repeat case_match; simplify_eq; intros; simplify_eq; done.
Qed.

Lemma whereLoop_early (dbName : str) (conds : list Condition) (b b' : builder) :
  earlyTrace b -> whereLoop ops env dbName conds b = Normal b' -> earlyTrace b'.
Proof.
  revert b. induction conds as [|c conds IH]; simpl; intros b Hb Hloop.
  - by simplify_eq.
  - destruct (whereStep ops env dbName c b) as [b1|] eqn:Hstep; simpl in Hloop;
      [|done].
    eapply IH; [|done]. by eapply whereStep_early.
Qed.

Lemma joinStep_early (j : option JoinCondition) (b b' : builder) :
  earlyTrace b -> joinStep env j b = Normal b' -> earlyTrace b'.
Proof.
  intros Hb. unfold joinStep.
  repeat case_match; simplify_eq; intros; simplify_eq; try done.
  all: by apply (earlyTrace_emit (GetMetabaseCard _)).
Qed.

Lemma accumulate_early (memo : memorizeAreas) (ast : SelectAst)
      (conds : list Condition) (b : builder) :
  accumulate ops env memo ast conds = Normal b -> earlyTrace b.
Proof.
  unfold accumulate.
  destruct (whereLoop _ _ _ _ _) as [b1|] eqn:Hloop; simpl; [|done].
  intros Hjoin. eapply joinStep_early; [|done].
  eapply whereLoop_early; [|done].
  unfold earlyTrace. simpl. by constructor.
Qed.

Lemma castStep_missing (b : builder) :
  is_Some (metabaseQuery b !! js "cast_to") ->
  metabaseQuery b !! js "id_field" = None
  \/ metabaseQuery b !! js "geometry" = None ->
  exists msg b',
    (msg = js "missing id_field field" \/ msg = js "missing geometry field")
    /\ castStep ops env b = Throw (Error msg) b'
    /\ trace b' = trace b.
Proof.
  intros [x Hcast] Hmiss. unfold castStep. rewrite Hcast.
  rewrite !lookup_delete_ne by done.
  destruct (metabaseQuery b !! js "id_field") as [idf|] eqn:Hid.
  - destruct Hmiss as [|Hgeo]; [done|]. rewrite Hgeo.
    destruct (truthy ops idf); eauto 10.
  - eauto 10.
Qed.
End EarlyCalls.

(** C1, as the code has it.  On an ordinary statement, with a plain
    backend and a clean cache: when the loop and the join block have run
    and left a parameter map that holds [cast_to] but lacks [id_field] or
    [geometry], [parseSelect] throws the error [missing id_field field] or
    [missing geometry field]; the calls issued are those made up to that
    point, which are only the registry fetch, area lookups and the join's
    query: no registration and no final query. *)
Theorem C1_cast_to_without_companion
    (ops : DecOps) (env : backend) (memo : memorizeAreas)
    (ast : SelectAst) (conds : list Condition) (b : builder)
    (Hwhere : sel_where ast = Some conds)
    (Hordinary : ordinaryStatement ops ast = true)
    (Hbackend : plainBackend env)
    (Hclean : cleanCache memo = true)
    (Hacc : accumulate ops env memo ast conds = Normal b)
    (Hcast : is_Some (metabaseQuery b !! js "cast_to"))
    (Hmiss : metabaseQuery b !! js "id_field" = None
             \/ metabaseQuery b !! js "geometry" = None) :
  exists msg,
    (msg = js "missing id_field field" \/ msg = js "missing geometry field")
    /\ run_outcome (parseSelect ops env memo ast) = Thrown (Error msg)
    /\ run_calls (parseSelect ops env memo ast) = trace b
    /\ Forall (fun c => earlyCall c = true) (trace b).
Proof.
  destruct (castStep_missing ops env b Hcast Hmiss) as (msg & b' & Hmsg & Hthrow & Htr).
  exists msg. split; [done|].
  unfold parseSelect, build. rewrite Hwhere, Hacc. simpl. rewrite Hthrow. simpl.
  repeat split; [done|]. by eapply accumulate_early.
Qed.

Lemma C1_cast_to_without_companion_witness :
  exists msg,
    (msg = js "missing id_field field" \/ msg = js "missing geometry field")
    /\ run_outcome (parseSelect noDec quietBackend emptyAreas castOnly)
       = Thrown (Error msg)
    /\ run_calls (parseSelect noDec quietBackend emptyAreas castOnly)
       = [GetServices; GetMetabaseCard {[ js "cast_to" := VString (js "t") ]}]
    /\ Forall (fun c => earlyCall c = true)
         [GetServices; GetMetabaseCard {[ js "cast_to" := VString (js "t") ]}].
Proof.
  apply (C1_cast_to_without_companion noDec quietBackend emptyAreas castOnly
           [ {| left_ := {| alias := Some (js "m"); key := js "cast_to" |};
                operator_ := js "="; right_ := VString (js "t") |} ]
           {| tile38 := {| head := []; conditions := [js "wherein id 0 "];
                           location := []; filter := VObject ∅ |};
              metabaseQuery := {[ js "cast_to" := VString (js "t") ]};
              trace := [GetServices;
                        GetMetabaseCard {[ js "cast_to" := VString (js "t") ]}];
              cache := emptyAreas |}).
  - reflexivity.
  - reflexivity.
  - exact quietBackend_plain.
  - reflexivity.
  - vm_compute. reflexivity.
  - vm_compute. eauto.
  - left. vm_compute. reflexivity.
Defined.

(** The same statement shows that the error comes after a backend call:
    its parameter map holds [cast_to] and lacks [id_field], the error is
    thrown, and the join's query to the record service has been issued. *)
Lemma C1_backend_call_before_error :
  let r := parseSelect noDec quietBackend emptyAreas castOnly in
  (exists b conds,
      sel_where castOnly = Some conds
      /\ accumulate noDec quietBackend emptyAreas castOnly conds = Normal b
      /\ is_Some (metabaseQuery b !! js "cast_to")
      /\ metabaseQuery b !! js "id_field" = None)
  /\ run_outcome r = Thrown (Error (js "missing id_field field"))
  /\ Exists (fun c => backendCall c = true) (run_calls r).
Proof.
  split; [|split].
  - eexists _, _. split; [reflexivity|].
    split; [vm_compute; reflexivity|].
    split; vm_compute; eauto.
  - vm_compute. reflexivity.
  - vm_compute. apply Exists_cons_tl, Exists_cons_hd. reflexivity.
Qed.

(** ** Fuel *)

Create HintDb refines.

Lemma refines_refl {A} (p : Parser A) : refines p p.
Proof. by intros s _. Qed.

Lemma refines_trans {A} (p q r : Parser A) :
  refines p q -> refines q r -> refines p r.
Proof.
  intros Hpq Hqr s Hs. rewrite <- (Hpq s Hs). apply Hqr. by rewrite (Hpq s Hs).
Qed.

Lemma chain_refines {A B} (p p' : Parser A) (f f' : A -> Parser B) :
  refines p p' -> (forall v, refines (f v) (f' v)) ->
  refines (chain p f) (chain p' f').
Proof.
  intros Hp Hf s Hs. unfold chain in *.
  destruct (p s) as [v r| |e] eqn:Hps.
  - rewrite (Hp s) by (rewrite Hps; first [done | intros [= ->]; done]). rewrite Hps. by apply Hf.
  - rewrite (Hp s) by (rewrite Hps; first [done | intros [= ->]; done]). by rewrite Hps.
  - rewrite (Hp s) by (rewrite Hps; first [done | intros [= ->]; done]). by rewrite Hps.
Qed.

Lemma map_refines {A B} (f : A -> B) (p p' : Parser A) :
  refines p p' -> refines (map_ f p) (map_ f p').
Proof. intros. apply chain_refines; [done | intros; apply refines_refl]. Qed.

Lemma result_refines {A B} (p p' : Parser A) (v : B) :
  refines p p' -> refines (result p v) (result p' v).
Proof. apply map_refines. Qed.

Lemma then_refines {A B} (p p' : Parser A) (q q' : Parser B) :
  refines p p' -> refines q q' -> refines (then_ p q) (then_ p' q').
Proof. intros. by apply chain_refines. Qed.

Lemma skip_refines {A B} (p p' : Parser A) (q q' : Parser B) :
  refines p p' -> refines q q' -> refines (skip p q) (skip p' q').
Proof. intros. apply chain_refines; [done | intros; by apply result_refines]. Qed.

Lemma or_refines {A} (p p' q q' : Parser A) :
  refines p p' -> refines q q' -> refines (or_ p q) (or_ p' q').
Proof.
  intros Hp Hq s Hs. unfold or_ in *.
  destruct (p s) as [v r| |e] eqn:Hps.
  - rewrite (Hp s) by (rewrite Hps; first [done | intros [= ->]; done]). by rewrite Hps.
  - rewrite (Hp s) by (rewrite Hps; first [done | intros [= ->]; done]). rewrite Hps. by apply Hq.
  - rewrite (Hp s) by (rewrite Hps; first [done | intros [= ->]; done]). by rewrite Hps.
Qed.

Lemma alt_nil_refines {A} : refines (@alt A []) (alt []).
Proof. apply refines_refl. Qed.

Lemma alt_cons_refines {A} (p p' : Parser A) (ps ps' : list (Parser A)) :
  refines p p' -> refines (alt ps) (alt ps') ->
  refines (alt (p :: ps)) (alt (p' :: ps')).
Proof. intros. simpl. by apply or_refines. Qed.

Lemma many_aux_refines {A} (p p' : Parser A) (k : nat) (s : str) :
  refines p p' ->
  many_aux k p s <> Abort OutOfFuel -> many_aux k p' s = many_aux k p s.
Proof.
  intros Hp. revert s. induction k as [|k IH]; intros s Hs.
  - simpl in *. destruct (p s) as [v r| |e] eqn:Hps.
    + rewrite (Hp s) by (rewrite Hps; first [done | intros [= ->]; done]). by rewrite Hps.
    + rewrite (Hp s) by (rewrite Hps; first [done | intros [= ->]; done]). by rewrite Hps.
    + rewrite (Hp s) by (rewrite Hps; first [done | intros [= ->]; done]). by rewrite Hps.
  - simpl in *. destruct (p s) as [v r| |e] eqn:Hps.
    + rewrite (Hp s) by (rewrite Hps; first [done | intros [= ->]; done]). rewrite Hps.
      destruct (length r <? length s)%nat; [|done].
      rewrite IH; [done|]. intros Hr. rewrite Hr in Hs. done.
    + rewrite (Hp s) by (rewrite Hps; first [done | intros [= ->]; done]). by rewrite Hps.
    + rewrite (Hp s) by (rewrite Hps; first [done | intros [= ->]; done]). by rewrite Hps.
Qed.

Lemma many_refines {A} (p p' : Parser A) :
  refines p p' -> refines (many p) (many p').
Proof. intros Hp s Hs. unfold many in *. by apply many_aux_refines. Qed.

Lemma sepBy_refines {A B} (p p' : Parser A) (sep : Parser B) :
  refines p p' -> refines (sepBy p sep) (sepBy p' sep).
Proof.
  intros Hp. unfold sepBy, sepBy1.
  apply or_refines; [|apply refines_refl].
  apply chain_refines; [done|]. intros v.
  apply map_refines, many_refines, then_refines; [apply refines_refl | done].
Qed.

Lemma wrap_refines {A B C} (p p' : Parser A) (l : Parser B) (r : Parser C) :
  refines p p' -> refines (wrap p l r) (wrap p' l r).
Proof.
  intros. apply then_refines; [apply refines_refl|].
  apply skip_refines; [done | apply refines_refl].
Qed.

Lemma optional_refines {A} (p p' : Parser A) :
  refines p p' -> refines (kql.optional p) (kql.optional p').
Proof.
  intros. apply or_refines; [by apply map_refines | apply refines_refl].
Qed.

#[local] Hint Resolve chain_refines map_refines result_refines then_refines
  skip_refines or_refines alt_nil_refines alt_cons_refines many_refines
  sepBy_refines wrap_refines optional_refines : refines.
#[local] Hint Resolve refines_refl | 10 : refines.

Section RulesRefine.
Variables v v' : Parser Value.
Hypothesis Hv : refines v v'.

Lemma array_refines : refines (kql.array v) (kql.array v').
Proof using Hv. unfold kql.array. auto with refines. Qed.

Lemma pair_refines : refines (kql.pair v) (kql.pair v').
Proof using Hv. unfold kql.pair. auto with refines. Qed.

Lemma object_refines : refines (kql.object v) (kql.object v').
Proof using Hv.
  unfold kql.object. pose proof pair_refines. auto with refines.
Qed.

Lemma fn_refines : refines (kql.fn v) (kql.fn v').
Proof using Hv. unfold kql.fn. auto with refines. Qed.

Lemma value_alt_refines : refines (kql.value_alt v) (kql.value_alt v').
Proof using Hv.
  unfold kql.value_alt.
  pose proof array_refines. pose proof object_refines. pose proof fn_refines.
  auto 20 with refines.
Qed.

Lemma pairCondition_refines : refines (kql.pairCondition v) (kql.pairCondition v').
Proof using Hv. unfold kql.pairCondition. auto 10 with refines. Qed.

Lemma where_refines : refines (kql.where_ v) (kql.where_ v').
Proof using Hv.
  unfold kql.where_. pose proof pairCondition_refines. auto with refines.
Qed.

Lemma parameters_refines : refines (kql.parameters v) (kql.parameters v').
Proof using Hv.
  unfold kql.parameters. pose proof pairCondition_refines. auto with refines.
Qed.

Lemma select_refines : refines (kql.select v) (kql.select v').
Proof using Hv.
  unfold kql.select. pose proof where_refines. auto 20 with refines.
Qed.

Lemma fetch_refines : refines (kql.fetch v) (kql.fetch v').
Proof using Hv.
  unfold kql.fetch. pose proof parameters_refines. auto 20 with refines.
Qed.

Lemma create_refines : refines (kql.create v) (kql.create v').
Proof using Hv.
  unfold kql.create. pose proof parameters_refines. auto 20 with refines.
Qed.

Lemma getConfig_refines : refines (kql.getConfig v) (kql.getConfig v').
Proof using Hv.
  unfold kql.getConfig. pose proof parameters_refines. auto 20 with refines.
Qed.

Lemma parser_alt_refines : refines (kql.parser_alt v) (kql.parser_alt v').
Proof using Hv.
  unfold kql.parser_alt.
  pose proof select_refines. pose proof fetch_refines.
  pose proof create_refines. pose proof getConfig_refines.
  auto 20 with refines.
Qed.
End RulesRefine.

Lemma value_refines_succ (n : nat) : refines (kql.value n) (kql.value (S n)).
Proof.
  induction n as [|n IH].
  - intros s Hs. by simpl in Hs.
  - change (refines (kql.value_alt (kql.value n)) (kql.value_alt (kql.value (S n)))).
    by apply value_alt_refines.
Qed.

Lemma value_refines_le (n m : nat) :
  (n <= m)%nat -> refines (kql.value n) (kql.value m).
Proof.
  induction 1 as [|m Hle IH]; [apply refines_refl|].
  eapply refines_trans; [exact IH | apply value_refines_succ].
Qed.

Lemma tryParse_fuel_le (n m : nat) (text : str) :
  (n <= m)%nat ->
  tryParse n text <> Abort OutOfFuel -> tryParse m text = tryParse n text.
Proof.
  intros Hle. unfold tryParse.
  apply (skip_refines (kql.parser n) (kql.parser m) eof eof);
    [|apply refines_refl].
  apply parser_alt_refines. by apply value_refines_le.
Qed.

(** Any two amounts of fuel that suffice give the same result, be it an
    AST or a parse failure. *)
Lemma tryParse_fuel_independent (n m : nat) (text : str) :
  tryParse n text <> Abort OutOfFuel ->
  tryParse m text <> Abort OutOfFuel ->
  tryParse n text = tryParse m text.
Proof.
  intros Hn Hm. destruct (Nat.le_ge_cases n m).
  - symmetry. by apply tryParse_fuel_le.
  - by apply tryParse_fuel_le.
Qed.

(** ** Tokens on known input *)

Lemma comment_regexp_plain (c : char) (t : str) :
  plain c = true -> comment_regexp (c :: t) = Fail.
Proof.
  unfold plain. intros [_ Hc]%andb_true_iff. apply negb_true_iff in Hc.
  destruct t; simpl; [done|]. by rewrite Hc.
Qed.

Lemma comment_regexp_no_abort (s : str) (e : abort) : comment_regexp s <> Abort e.
Proof.
  unfold comment_regexp. destruct s as [|a [|b r]]; try done.
  destruct ((a =? c_minus) && (b =? c_minus)); [|done].
  by destruct (span is_dot r).
Qed.

Lemma span_plain (c : char) (t : str) :
  plain c = true -> span is_space (c :: t) = ([], c :: t).
Proof.
  unfold plain. intros [Hc _]%andb_true_iff. apply negb_true_iff in Hc.
  simpl. by rewrite Hc.
Qed.

Lemma trail_plain (c : char) (t : str) : plain c = true -> trail (c :: t) = c :: t.
Proof.
  intros Hc. unfold trail. rewrite (span_plain _ _ Hc). cbv zeta. cbn [snd].
  by rewrite (comment_regexp_plain _ _ Hc).
Qed.

Lemma token_ok {A} (p : Parser A) (s r : str) (v : A) :
  p s = Ok v r -> token p s = Ok v (trail r).
Proof.
  intros Hp. unfold token, skip, result, map_, chain, whitespace, trail.
  rewrite Hp. destruct (span is_space r) as [m r1]. simpl.
  unfold comment, or_, of_.
  pose proof (comment_regexp_no_abort r1) as Hab.
  destruct (comment_regexp r1); try done. by destruct (Hab e).
Qed.

Lemma token_fail {A} (p : Parser A) (s : str) : p s = Fail -> token p s = Fail.
Proof. intros Hp. unfold token, skip, chain. by rewrite Hp. Qed.

Lemma token_comment_plain (c : char) (t : str) :
  plain c = true -> token comment (c :: t) = Ok None (c :: t).
Proof.
  intros Hc.
  rewrite (token_ok comment (c :: t) (c :: t) None).
  - by rewrite (trail_plain _ _ Hc).
  - unfold comment, or_, of_. by rewrite (comment_regexp_plain _ _ Hc).
Qed.

Lemma strip_prefix_app (w s : str) : strip_prefix w (w ++ s) = Some s.
Proof. induction w as [|a w IH]; simpl; [done|]. by rewrite N.eqb_refl. Qed.

Lemma word_here (c : char) (w s : str) :
  plain c = true -> word (c :: w) (c :: w ++ s) = Ok (c :: w) (trail s).
Proof.
  intros Hc. unfold word. apply token_ok.
  unfold then_, chain. rewrite (token_comment_plain _ _ Hc).
  unfold string_lit.
  change (c :: w ++ s) with ((c :: w) ++ s). by rewrite strip_prefix_app.
Qed.

Lemma word_mismatch (a c : char) (w s : str) :
  plain c = true -> a <> c -> word (a :: w) (c :: s) = Fail.
Proof.
  intros Hc Hac. unfold word. apply token_fail.
  unfold then_, chain. rewrite (token_comment_plain _ _ Hc).
  unfold string_lit. simpl. by rewrite (proj2 (N.eqb_neq a c) Hac).
Qed.

(** ** Arrays *)

Lemma joinWith_cons (sep x : str) (l : list str) :
  joinWith sep (x :: l) = x ++ concat (map (fun y => sep ++ y) l).
Proof.
  revert x. induction l as [|y l IH]; intros x.
  - simpl. by rewrite app_nil_r.
  - change (joinWith sep (x :: y :: l)) with (x ++ sep ++ joinWith sep (y :: l)).
    rewrite IH. simpl. by rewrite <- !app_assoc.
Qed.

Lemma delimited_cases (r : str) :
  delimited r = true ->
  exists c t, r = c :: t /\ (c = 44 \/ c = 93 \/ c = 41).
Proof.
  destruct r as [|c t]; simpl; [done|].
  rewrite !orb_true_iff, !N.eqb_eq. intros H. exists c, t. tauto.
Qed.

Lemma value_at_closer (n : nat) (c : char) (t : str) :
  c = 93 \/ c = 41 -> kql.value (S n) (c :: t) = Fail.
Proof.
  intros [-> | ->]; destruct t as [|d t]; vm_compute; reflexivity.
Qed.

Lemma many_aux_fail {A} (p : Parser A) (k : nat) (s : str) :
  p s = Fail -> many_aux k p s = Ok [] s.
Proof. intros Hp. destruct k; simpl; by rewrite Hp. Qed.

Lemma many_aux_step {A} (p : Parser A) (k : nat) (s r : str) (v : A) :
  p s = Ok v r -> (length r < length s)%nat ->
  many_aux (S k) p s =
  match many_aux k p r with
  | Ok vs r' => Ok (v :: vs) r'
  | Fail => Fail
  | Abort e => Abort e
  end.
Proof.
  intros Hp Hlen. simpl. rewrite Hp.
  by rewrite (proj2 (Nat.ltb_lt _ _) Hlen).
Qed.

Lemma tailText_delimited (ls : list str) (c : char) (rest : str) :
  c = 93 \/ c = 41 -> delimited (tailText ls c rest) = true.
Proof.
  intros Hc. unfold tailText. destruct ls as [|l ls]; simpl.
  - destruct Hc as [-> | ->]; reflexivity.
  - reflexivity.
Qed.

Lemma tailText_length (ls : list str) (c : char) (rest : str) :
  (length ls <= length (tailText ls c rest))%nat.
Proof.
  unfold tailText. rewrite length_app.
  assert (length ls <= length (concat (map (fun y => js "," ++ y) ls)))%nat; [|lia].
  induction ls as [|l ls IH]; [simpl; lia|].
  simpl in IH |- *. rewrite length_app. lia.
Qed.

Section ArrayOfLiterals.
Variable fuel : nat.
Hypothesis Hfuel : fuel <> 0%nat.

Lemma comma_value_step (l : str) (v : Value) (t : str) :
  literal fuel l v -> delimited t = true ->
  then_ kql.comma (kql.value fuel) (js "," ++ l ++ t) = Ok v t.
Proof using Type.
  intros Hl Ht. unfold then_, chain, kql.comma.
  change (js "," ++ l ++ t) with (44 :: [] ++ (l ++ t)).
  change (js ",") with [44].
  rewrite (word_here 44 [] (l ++ t) eq_refl). by apply Hl.
Qed.

Lemma many_tail (lits : list (str * Value)) (k : nat) (c : char) (rest : str) :
  Forall (fun lv => literal fuel lv.1 lv.2) lits ->
  c = 93 \/ c = 41 ->
  (length lits <= k)%nat ->
  many_aux k (then_ kql.comma (kql.value fuel))
    (tailText (map fst lits) c rest)
  = Ok (map snd lits) (c :: rest).
Proof using Type.
  clear Hfuel. intros Hlits Hc. revert k.
  induction Hlits as [|[l v] lits Hl Hlits IH]; intros k Hk.
  - unfold tailText. simpl. apply many_aux_fail.
    unfold then_, chain, kql.comma. change (js ",") with [44].
    rewrite (word_mismatch 44 c [] rest); [done| |].
    + destruct Hc as [-> | ->]; reflexivity.
    + destruct Hc as [-> | ->]; done.
  - destruct k as [|k]; [simpl in Hk; lia|].
    assert (Hs : tailText (map fst ((l, v) :: lits)) c rest
                 = js "," ++ l ++ tailText (map fst lits) c rest).
    { unfold tailText. simpl. by rewrite <- !app_assoc. }
    rewrite Hs.
    rewrite (many_aux_step _ k _ (tailText (map fst lits) c rest) v).
    + rewrite IH; [done | simpl in Hk; lia].
    + apply comma_value_step; [done | by apply tailText_delimited].
    + simpl. rewrite length_app. lia.
Qed.

Lemma sepBy_literals (lits : list (str * Value)) (c : char) (rest : str) :
  Forall (fun lv => literal fuel lv.1 lv.2) lits ->
  c = 93 \/ c = 41 ->
  sepBy (kql.value fuel) kql.comma
    (trail (joinWith (js ",") (map fst lits) ++ c :: rest))
  = Ok (map snd lits) (c :: rest).
Proof using Hfuel.
  intros Hlits Hc. destruct Hlits as [|[l v] lits Hl Hlits].
  - simpl. rewrite trail_plain by (destruct Hc as [-> | ->]; reflexivity).
    unfold sepBy, sepBy1, or_, chain.
    destruct fuel as [|n]; [done|].
    by rewrite (value_at_closer n c rest Hc).
  - simpl in Hl. simpl map. rewrite joinWith_cons, <- app_assoc.
    fold (tailText (map fst lits) c rest).
    unfold sepBy, sepBy1, or_, chain.
    rewrite (Hl _ (tailText_delimited (map fst lits) c rest Hc)).
    unfold map_, chain, many.
    rewrite (many_tail lits _ c rest Hlits Hc).
    + reflexivity.
    + pose proof (tailText_length (map fst lits) c rest) as Hlen.
      by rewrite length_map in Hlen.
Qed.

Lemma opener_here (o : char) (t : str) :
  o = 91 \/ o = 40 ->
  alt [kql.lbracket; kql.lParenthesis] (o :: t) = Ok [o] (trail t).
Proof using Type.
  cbn [alt]. unfold or_, kql.lbracket, kql.lParenthesis.
  change (js "[") with [91]. change (js "(") with [40].
  change (o :: t) with (o :: [] ++ t).
  intros [-> | ->].
  - by rewrite (word_here 91 [] t eq_refl).
  - rewrite (word_mismatch 91 40 [] ([] ++ t) eq_refl) by done.
    by rewrite (word_here 40 [] t eq_refl).
Qed.

Lemma closer_here (c : char) (t : str) :
  c = 93 \/ c = 41 ->
  alt [kql.rbracket; kql.rParenthesis] (c :: t) = Ok [c] (trail t).
Proof using Type.
  cbn [alt]. unfold or_, kql.rbracket, kql.rParenthesis.
  change (js "]") with [93]. change (js ")") with [41].
  change (c :: t) with (c :: [] ++ t).
  intros [-> | ->].
  - by rewrite (word_here 93 [] t eq_refl).
  - rewrite (word_mismatch 93 41 [] ([] ++ t) eq_refl) by done.
    by rewrite (word_here 41 [] t eq_refl).
Qed.

Lemma array_of_literals (lits : list (str * Value)) (o c : char) (rest : str) :
  Forall (fun lv => literal fuel lv.1 lv.2) lits ->
  o = 91 \/ o = 40 ->
  c = 93 \/ c = 41 ->
  kql.array (kql.value fuel)
    (o :: joinWith (js ",") (map fst lits) ++ c :: rest)
  = Ok (map snd lits) (trail rest).
Proof using Hfuel.
  intros Hlits Ho Hc. unfold kql.array, skip, then_, chain.
  rewrite (opener_here o _ Ho).
  rewrite (sepBy_literals lits c rest Hlits Hc).
  unfold result, map_, chain. by rewrite (closer_here c rest Hc).
Qed.
End ArrayOfLiterals.

(** C6.  Take any sequence of value literals separated by commas.  Put
    between square brackets or between parentheses, it is read by the
    array rule as the same sequence of values, in order, and the same
    input is left. *)
Theorem C6_brackets_and_parentheses
    (fuel : nat) (lits : list (str * Value)) (rest : str)
    (Hfuel : fuel <> 0%nat)
    (Hlits : Forall (fun lv => literal fuel lv.1 lv.2) lits) :
  kql.array (kql.value fuel)
    (js "[" ++ joinWith (js ",") (map fst lits) ++ js "]" ++ rest)
  = Ok (map snd lits) (trail rest)
  /\
  kql.array (kql.value fuel)
    (js "(" ++ joinWith (js ",") (map fst lits) ++ js ")" ++ rest)
  = Ok (map snd lits) (trail rest).
Proof.
  split.
  - apply (array_of_literals fuel Hfuel lits 91 93 rest Hlits); by left.
  - apply (array_of_literals fuel Hfuel lits 40 41 rest Hlits); by right.
Qed.

(** The two literals of the example. *)
Lemma literal_a : literal 1 (js "'a'") (VString (js "a")).
Proof.
  intros r (c & t & -> & Hc)%delimited_cases.
  change (js "'a'" ++ c :: t) with (39 :: js "a'" ++ c :: t).
  rewrite trail_plain by reflexivity.
  destruct Hc as [-> | [-> | ->]]; destruct t as [|d t]; vm_compute; reflexivity.
Qed.

Lemma literal_b : literal 1 (js "'b'") (VString (js "b")).
Proof.
  intros r (c & t & -> & Hc)%delimited_cases.
  change (js "'b'" ++ c :: t) with (39 :: js "b'" ++ c :: t).
  rewrite trail_plain by reflexivity.
  destruct Hc as [-> | [-> | ->]]; destruct t as [|d t]; vm_compute; reflexivity.
Qed.

(** [['a','b']] and [('a','b')] are read as the same two strings. *)
Lemma C6_brackets_and_parentheses_witness :
  kql.array (kql.value 1) (js "['a','b']")
  = Ok [VString (js "a"); VString (js "b")] []
  /\ kql.array (kql.value 1) (js "('a','b')")
     = Ok [VString (js "a"); VString (js "b")] [].
Proof.
  apply (C6_brackets_and_parentheses 1
           [(js "'a'", VString (js "a")); (js "'b'", VString (js "b"))] []).
  - discriminate.
  - repeat constructor; [apply literal_a | apply literal_b].
Defined.

(** ** The join clause *)

Lemma token_comment_total (s : str) : exists c, token comment s = Ok c (lead s).
Proof.
  unfold lead.
  assert (H : exists c r, comment s = Ok c r).
  { unfold comment, or_, of_. pose proof (comment_regexp_no_abort s) as Hab.
    destruct (comment_regexp s) as [v r| |e]; eauto. by destruct (Hab e). }
  destruct H as (c & r & H). rewrite (token_ok _ _ _ _ H). eauto.
Qed.

Lemma word_eq (w s : str) :
  word w s =
  match strip_prefix w (lead s) with
  | Some r => Ok w (trail r)
  | None => Fail
  end.
Proof.
  destruct (token_comment_total s) as [c Hc].
  destruct (strip_prefix w (lead s)) as [r|] eqn:Hs.
  - unfold word. apply token_ok. unfold then_, chain, string_lit.
    by rewrite Hc, Hs.
  - unfold word. apply token_fail. unfold then_, chain, string_lit.
    by rewrite Hc, Hs.
Qed.

Lemma strip_prefix_head (a b : char) (w w' s r : str) :
  strip_prefix (a :: w) s = Some r -> a <> b -> strip_prefix (b :: w') s = None.
Proof.
  destruct s as [|c s]; simpl; [done|].
  destruct (a =? c) eqn:Hac; [|done]. apply N.eqb_eq in Hac. subst c.
  intros _ Hab. by rewrite (proj2 (N.eqb_neq b a)).
Qed.

(** Two words that begin differently cannot both be read at one place. *)
Lemma word_exclusive (a b : char) (w w' s r : str) (v : str) :
  word (a :: w) s = Ok v r -> a <> b -> word (b :: w') s = Fail.
Proof.
  rewrite !word_eq.
  destruct (strip_prefix (a :: w) (lead s)) as [r0|] eqn:Ha; [|done].
  intros _ Hab. by rewrite (strip_prefix_head a b w w' _ _ Ha Hab).
Qed.

Lemma lead_plain (c : char) (t : str) : plain c = true -> lead (c :: t) = c :: t.
Proof. intros Hc. unfold lead. by rewrite (token_comment_plain _ _ Hc). Qed.

Lemma word_fail_strip (c : char) (w s : str) :
  plain c = true -> strip_prefix w (c :: s) = None -> word w (c :: s) = Fail.
Proof. intros Hc Hs. by rewrite word_eq, (lead_plain _ _ Hc), Hs. Qed.

Lemma nameEnd_not (rest : str) (c : char) (w : str) :
  nameEnd rest = true -> in_range 97 122 c = true ->
  strip_prefix (c :: w) rest = None.
Proof.
  destruct rest as [|x t]; simpl; [done|].
  intros Hx Hc. destruct (c =? x) eqn:Hcx; [|done].
  apply N.eqb_eq in Hcx. subst x. by rewrite Hc in Hx.
Qed.

Lemma word_at (w s : str) :
  match w with c :: _ => plain c | [] => false end = true ->
  word w (w ++ s) = Ok w (trail s).
Proof. destruct w as [|c w]; [done|]. apply word_here. Qed.

Lemma word_other (w : str) (c : char) (s : str) :
  plain c = true ->
  match w with a :: _ => negb (a =? c) | [] => false end = true ->
  word w (c :: s) = Fail.
Proof.
  destruct w as [|a w]; [done|]. intros Hc Ha%negb_true_iff%N.eqb_neq.
  by apply word_mismatch.
Qed.

(** A database name that is not followed by a letter is read whole. *)
Lemma databaseName_here (d rest : str) :
  d ∈ databaseNames -> nameEnd rest = true ->
  kql.databaseName (d ++ rest) = Ok d (trail rest).
Proof.
  intros Hd Hrest. unfold databaseNames in Hd.
  unfold kql.databaseName. cbn [alt]. unfold or_.
  repeat (apply elem_of_cons in Hd as [-> | Hd]); [..|by apply elem_of_nil in Hd].
  - by rewrite word_at.
  - change (js "metabase" ++ rest) with (109 :: js "etabase" ++ rest).
    rewrite (word_other (js "tile38") 109) by done.
    change (109 :: js "etabase" ++ rest) with (js "metabase" ++ rest).
    by rewrite word_at.
  - change (js "url" ++ rest) with (117 :: js "rl" ++ rest).
    rewrite (word_other (js "tile38") 117) by done.
    rewrite (word_other (js "metabase") 117) by done.
    change (117 :: js "rl" ++ rest) with (js "url" ++ rest).
    by rewrite word_at.
  - change (js "t" ++ rest) with (116 :: rest).
    rewrite (word_fail_strip 116 (js "tile38")); [|done|].
    2:{ change (strip_prefix (js "ile38") rest = None). by apply nameEnd_not. }
    rewrite (word_other (js "metabase") 116) by done.
    rewrite (word_other (js "url") 116) by done.
    change (116 :: rest) with (js "t" ++ rest).
    by rewrite word_at.
  - change (js "m" ++ rest) with (109 :: rest).
    rewrite (word_other (js "tile38") 109) by done.
    rewrite (word_fail_strip 109 (js "metabase")); [|done|].
    2:{ change (strip_prefix (js "etabase") rest = None). by apply nameEnd_not. }
    rewrite (word_other (js "url") 109) by done.
    rewrite (word_other (js "t") 109) by done.
    change (109 :: rest) with (js "m" ++ rest).
    by rewrite word_at.
  - change (js "u" ++ rest) with (117 :: rest).
    rewrite (word_other (js "tile38") 117) by done.
    rewrite (word_other (js "metabase") 117) by done.
    rewrite (word_fail_strip 117 (js "url")); [|done|].
    2:{ change (strip_prefix (js "rl") rest = None). by apply nameEnd_not. }
    rewrite (word_other (js "t") 117) by done.
    rewrite (word_other (js "m") 117) by done.
    change (117 :: rest) with (js "u" ++ rest).
    by rewrite word_at.
Qed.

(** What follows the keyword [join] is read without regard to the name. *)
Lemma joinRest_name (d rest : str) :
  d ∈ databaseNames -> nameEnd rest = true ->
  joinRest (d ++ rest)
  = then_ (word (js "on")) kql.joinCondition (trail rest).
Proof.
  intros Hd Hrest. unfold joinRest, then_, skip, chain, result, map_, of_.
  rewrite (databaseName_here d rest Hd Hrest). unfold chain.
  by destruct (word (js "on") (trail rest)).
Qed.

Lemma select_unfold (v : Parser Value) (s : str) :
  kql.select v s =
  match selectHead s with
  | Ok d r0 =>
    match kql.optional kql.join r0 with
    | Ok j r1 => afterJoin v d j r1
    | Fail => Fail
    | Abort e => Abort e
    end
  | Fail => Fail
  | Abort e => Abort e
  end.
Proof.
  unfold kql.select, selectHead, afterJoin, then_, skip, chain, result, map_, of_.
  unfold chain.
  repeat (case_match; simplify_eq; try done).
Qed.

Lemma joinHead_inv (s x : str) (d : DatabaseRef) :
  joinHead s = Ok d x ->
  exists r0 w, selectHead s = Ok d r0 /\ word (js "join") r0 = Ok w x.
Proof.
  unfold joinHead, chain, result, map_, chain, of_.
  destruct (selectHead s) as [d0 r0| |]; [|done..].
  destruct (word (js "join") r0) as [w x0| |] eqn:Hw; [|done..].
  intros [= -> ->]. eauto.
Qed.

Lemma join_after_keyword (r0 x w : str) :
  word (js "join") r0 = Ok w x -> kql.join r0 = joinRest x.
Proof.
  intros Hw. unfold kql.join, joinRest, then_, skip, chain, result, map_, of_.
  rewrite Hw. unfold chain.
  repeat (case_match; simplify_eq; try done).
Qed.

(** Where the keyword [join] stands, [where] and [limit] are absent and
    the input is not at its end. *)
Lemma afterJoin_stuck (v : Parser Value) (d : DatabaseRef) (r0 x w : str) :
  word (js "join") r0 = Ok w x ->
  exists st r, afterJoin v d None r0 = Ok st r /\ eof r = Fail.
Proof.
  intros Hw.
  assert (Hwhere : kql.optional (kql.where_ v) r0 = Ok None r0).
  { unfold kql.optional, kql.where_, or_, map_, then_, chain.
    change (js "join") with (106 :: js "oin") in Hw.
    change (js "where") with (119 :: js "here").
    by rewrite (word_exclusive 106 119 _ (js "here") _ _ _ Hw). }
  assert (Hlimit : kql.optional kql.limit r0 = Ok None r0).
  { unfold kql.optional, kql.limit, or_, map_, then_, chain.
    change (js "join") with (106 :: js "oin") in Hw.
    change (js "limit") with (108 :: js "imit").
    by rewrite (word_exclusive 106 108 _ (js "imit") _ _ _ Hw). }
  destruct (token_comment_total r0) as [c Hc].
  unfold afterJoin, skip, chain, result, map_, chain, of_, kql.comment.
  rewrite Hwhere, Hlimit, Hc. eexists _, _. split; [done|].
  rewrite word_eq in Hw.
  destruct (strip_prefix (js "join") (lead r0)) as [r|] eqn:Hs; [|done].
  destruct (lead r0); [done | done].
Qed.

Lemma whitespace_ok (s : str) : whitespace s = Ok (span is_space s).1 (span is_space s).2.
Proof. unfold whitespace. by destruct (span is_space s). Qed.

Lemma selectHead_keyword (s r0 : str) (d : DatabaseRef) :
  selectHead s = Ok d r0 ->
  exists r, word (js "select") (span is_space s).2 = Ok (js "select") r.
Proof.
  unfold selectHead, then_, chain. rewrite whitespace_ok.
  rewrite word_eq.
  destruct (strip_prefix (js "select") (lead (span is_space s).2)); [|done].
  eauto.
Qed.

(** A text that begins as a select statement is no other statement. *)
Lemma tryParse_select (n : nat) (s r0 : str) (d : DatabaseRef) :
  selectHead s = Ok d r0 ->
  tryParse n s = skip (kql.select (kql.value n)) eof s.
Proof.
  intros [r Hsel]%selectHead_keyword.
  change (js "select") with (115 :: js "elect") in Hsel.
  assert (Hfetch : kql.fetch (kql.value n) s = Fail).
  { unfold kql.fetch, then_, skip, chain. rewrite whitespace_ok.
    change (js "fetch") with (102 :: js "etch").
    by rewrite (word_exclusive 115 102 _ (js "etch") _ _ _ Hsel). }
  assert (Hcreate : kql.create (kql.value n) s = Fail).
  { unfold kql.create, then_, skip, chain. rewrite whitespace_ok.
    change (js "create") with (99 :: js "reate").
    by rewrite (word_exclusive 115 99 _ (js "reate") _ _ _ Hsel). }
  assert (Hget : kql.getConfig (kql.value n) s = Fail).
  { unfold kql.getConfig, then_, skip, chain. rewrite whitespace_ok.
    change (js "get") with (103 :: js "et").
    by rewrite (word_exclusive 115 103 _ (js "et") _ _ _ Hsel). }
  assert (Hupdate : kql.updateConfig s = Fail).
  { unfold kql.updateConfig, then_, skip, chain. rewrite whitespace_ok.
    change (js "update") with (117 :: js "pdate").
    by rewrite (word_exclusive 115 117 _ (js "pdate") _ _ _ Hsel). }
  unfold tryParse, kql.parser, kql.parser_alt. cbn [alt].
  unfold skip, chain, or_.
  rewrite Hfetch, Hcreate, Hget, Hupdate.
  by destruct (kql.select (kql.value n) s).
Qed.

(** Past the keyword [join], two inputs that differ in the database name
    alone give [select] followed by the end of input the same result. *)
Lemma select_join_name
    (v : Parser Value) (s1 s2 r1 r2 w1 w2 rest d1 d2 : str) (db : DatabaseRef) :
  d1 ∈ databaseNames -> d2 ∈ databaseNames ->
  nameEnd rest = true ->
  selectHead s1 = Ok db r1 -> word (js "join") r1 = Ok w1 (d1 ++ rest) ->
  selectHead s2 = Ok db r2 -> word (js "join") r2 = Ok w2 (d2 ++ rest) ->
  skip (kql.select v) eof s1 = skip (kql.select v) eof s2.
Proof.
  intros Hd1 Hd2 Hrest Hs1 Hj1 Hs2 Hj2.
  unfold skip, chain. rewrite !select_unfold, Hs1, Hs2.
  unfold kql.optional, or_, map_, chain.
  rewrite (join_after_keyword _ _ _ Hj1), (join_after_keyword _ _ _ Hj2).
  rewrite (joinRest_name d1 rest Hd1 Hrest), (joinRest_name d2 rest Hd2 Hrest).
  destruct (then_ (word (js "on")) kql.joinCondition (trail rest)) as [jc r| |e];
    [done| |done].
  unfold of_.
  destruct (afterJoin_stuck v db _ _ _ Hj1) as (st1 & x1 & -> & He1).
  destruct (afterJoin_stuck v db _ _ _ Hj2) as (st2 & x2 & -> & He2).
  unfold result, map_, chain. by rewrite He1, He2.
Qed.

Lemma databaseNames_plain (d : str) :
  d ∈ databaseNames -> exists c w, d = c :: w /\ plain c = true.
Proof.
  unfold databaseNames. intros Hd.
  repeat (apply elem_of_cons in Hd as [-> | Hd]); [..|by apply elem_of_nil in Hd];
    by eexists _, _.
Qed.

Lemma span_cons (f : char -> bool) (c : char) (s : str) :
  span f (c :: s)
  = if f c then (c :: (span f s).1, (span f s).2) else ([], c :: s).
Proof. simpl. destruct (f c); [|done]. by destruct (span f s). Qed.

Lemma trail_space_plain (c : char) (t : str) :
  plain c = true -> trail (32 :: c :: t) = c :: t.
Proof.
  intros Hc. unfold trail. rewrite span_cons.
  change (is_space 32) with true. cbv iota. cbn [snd].
  rewrite (span_plain _ _ Hc). cbn [snd].
  by rewrite (comment_regexp_plain _ _ Hc).
Qed.

(** The hypotheses of C9 hold of every statement that begins
    [select * from d0 join d], whatever the two names. *)
Lemma joinHead_simple (d0 d rest : str) :
  d0 ∈ databaseNames -> d ∈ databaseNames ->
  joinHead (js "select * from " ++ d0 ++ js " join " ++ d ++ rest)
  = Ok {| name := d0; db_alias := None |} (d ++ rest).
Proof.
  intros Hd0 Hd.
  destruct (databaseNames_plain d0 Hd0) as (c0 & w0 & -> & Hc0).
  destruct (databaseNames_plain d Hd) as (c & w & -> & Hc).
  unfold joinHead, selectHead, then_, chain.
  rewrite whitespace_ok.
  change (js "select * from " ++ (c0 :: w0) ++ js " join " ++ (c :: w) ++ rest)
    with (115 :: js "elect * from " ++ (c0 :: w0) ++ js " join " ++ (c :: w) ++ rest).
  rewrite span_plain by done. cbn [snd].
  change (115 :: js "elect * from " ++ (c0 :: w0) ++ js " join " ++ (c :: w) ++ rest)
    with (js "select" ++ 32 :: 42 :: js " from " ++ (c0 :: w0) ++ js " join " ++ (c :: w) ++ rest).
  rewrite word_at by done. rewrite trail_space_plain by done.
  change (42 :: js " from " ++ (c0 :: w0) ++ js " join " ++ (c :: w) ++ rest)
    with (js "*" ++ 32 :: 102 :: js "rom " ++ (c0 :: w0) ++ js " join " ++ (c :: w) ++ rest).
  rewrite word_at by done. rewrite trail_space_plain by done.
  change (102 :: js "rom " ++ (c0 :: w0) ++ js " join " ++ (c :: w) ++ rest)
    with (js "from" ++ 32 :: c0 :: w0 ++ js " join " ++ (c :: w) ++ rest).
  rewrite word_at by done. rewrite trail_space_plain by done.
  change (c0 :: w0 ++ js " join " ++ (c :: w) ++ rest)
    with ((c0 :: w0) ++ js " join " ++ (c :: w) ++ rest).
  unfold kql.databaseRef, chain.
  rewrite (databaseName_here (c0 :: w0) (js " join " ++ (c :: w) ++ rest) Hd0 eq_refl).
  change (js " join " ++ (c :: w) ++ rest)
    with (32 :: 106 :: js "oin " ++ (c :: w) ++ rest).
  rewrite trail_space_plain by done.
  unfold kql.asAlias, kql.optional, or_, map_, then_, chain.
  rewrite (word_other (js "as") 106) by done.
  unfold of_, result, map_, chain, of_.
  change (106 :: js "oin " ++ (c :: w) ++ rest)
    with (js "join" ++ 32 :: c :: w ++ rest).
  rewrite word_at by done. by rewrite trail_space_plain.
Qed.

(** ** Parsing terminates *)

Lemma span_length (f : char -> bool) (s : str) :
  (length (span f s).2 <= length s)%nat.
Proof.
  induction s as [|c s IH]; simpl; [lia|].
  destruct (f c); simpl; [|lia]. destruct (span f s); simpl in *. lia.
Qed.

Lemma strip_prefix_length (w s r : str) :
  strip_prefix w s = Some r -> (length r + length w = length s)%nat.
Proof.
  revert s. induction w as [|a w IH]; intros s; simpl.
  - intros [= ->]. lia.
  - destruct s as [|b s]; [done|]. destruct (a =? b); [|done].
    intros H%IH. simpl. lia.
Qed.

Lemma string_body_length (n : nat) (s m r : str) :
  (length s <= n)%nat -> string_body s = Some (m, r) ->
  (length r < length s)%nat.
Proof.
  revert s m r. induction n as [|n IH]; intros s m r Hn.
  - destruct s; [done | simpl in Hn; lia].
  - destruct s as [|c s]; [done|]. simpl in Hn.
    assert (Hone : forall m r,
               (if is_dot c
                then match string_body s with
                     | Some (m, r) => Some (c :: m, r)
                     | None => None
                     end
                else None) = Some (m, r) -> (length r < S (length s))%nat).
    { intros m0 r0. destruct (is_dot c); [|done].
      destruct (string_body s) as [[m1 r1]|] eqn:Hs; [|done].
      intros [= <- <-]. apply IH in Hs; lia. }
    cbn [string_body]. destruct (is_quote c).
    { intros [= <- <-]. simpl. lia. }
    destruct (c =? c_backslash); [|by simpl; apply Hone].
    destruct s as [|d s']; [by simpl; apply Hone|].
    destruct (is_dot d); [|by simpl; apply Hone].
    destruct (string_body s') as [[m1 r1]|] eqn:Hs'; [|by simpl; apply Hone].
    intros [= <- <-]. apply IH in Hs'; simpl in *; lia.
Qed.

Lemma of_nonincr {A} (v : A) : nonincr (of_ v).
Proof. intros s v' r [= _ <-]. lia. Qed.

Lemma chain_nonincr {A B} (p : Parser A) (f : A -> Parser B) :
  nonincr p -> (forall v, nonincr (f v)) -> nonincr (chain p f).
Proof.
  intros Hp Hf s v r. unfold chain.
  destruct (p s) as [v0 r0| |] eqn:Hps; [|done..].
  intros Hfv. apply Hp in Hps. apply Hf in Hfv. lia.
Qed.

Lemma map_nonincr {A B} (f : A -> B) (p : Parser A) :
  nonincr p -> nonincr (map_ f p).
Proof. intros. apply chain_nonincr; [done | intros; apply of_nonincr]. Qed.

Lemma result_nonincr {A B} (p : Parser A) (v : B) :
  nonincr p -> nonincr (result p v).
Proof. apply map_nonincr. Qed.

Lemma then_nonincr {A B} (p : Parser A) (q : Parser B) :
  nonincr p -> nonincr q -> nonincr (then_ p q).
Proof. intros. by apply chain_nonincr. Qed.

Lemma skip_nonincr {A B} (p : Parser A) (q : Parser B) :
  nonincr p -> nonincr q -> nonincr (skip p q).
Proof. intros. apply chain_nonincr; [done | intros; by apply result_nonincr]. Qed.

Lemma or_nonincr {A} (p q : Parser A) :
  nonincr p -> nonincr q -> nonincr (or_ p q).
Proof.
  intros Hp Hq s v r. unfold or_.
  destruct (p s) as [v0 r0| |] eqn:Hps; [|by apply Hq|done].
  intros [= <- <-]. by apply Hp in Hps.
Qed.

Lemma alt_nil_nonincr {A} : nonincr (@alt A []).
Proof. by intros s v r. Qed.

Lemma alt_cons_nonincr {A} (p : Parser A) (ps : list (Parser A)) :
  nonincr p -> nonincr (alt ps) -> nonincr (alt (p :: ps)).
Proof. intros. simpl. by apply or_nonincr. Qed.

Lemma many_aux_nonincr {A} (p : Parser A) (k : nat) :
  nonincr (many_aux k p).
Proof.
  induction k as [|k IH]; intros s v r; simpl.
  - destruct (p s) as [v0 r0| |]; [|by intros [= _ <-]|done].
    by destruct (length r0 <? length s)%nat.
  - destruct (p s) as [v0 r0| |]; [|by intros [= _ <-]|done].
    destruct (length r0 <? length s)%nat eqn:Hlt; [|done].
    apply Nat.ltb_lt in Hlt.
    destruct (many_aux k p r0) as [vs r1| |] eqn:Hm; [|done..].
    intros [= _ <-]. apply IH in Hm. lia.
Qed.

Lemma many_nonincr {A} (p : Parser A) : nonincr (many p).
Proof. intros s v r. unfold many. apply many_aux_nonincr. Qed.

Lemma sepBy_nonincr {A B} (p : Parser A) (sep : Parser B) :
  nonincr p -> nonincr (sepBy p sep).
Proof.
  intros Hp. unfold sepBy, sepBy1.
  apply or_nonincr; [|apply of_nonincr].
  apply chain_nonincr; [done|]. intros v. apply map_nonincr, many_nonincr.
Qed.

Lemma wrap_nonincr {A B C} (p : Parser A) (l : Parser B) (r : Parser C) :
  nonincr p -> nonincr l -> nonincr r -> nonincr (wrap p l r).
Proof. intros. apply then_nonincr; [done|]. by apply skip_nonincr. Qed.

Lemma optional_nonincr {A} (p : Parser A) :
  nonincr p -> nonincr (kql.optional p).
Proof. intros. apply or_nonincr; [by apply map_nonincr | apply of_nonincr]. Qed.

Lemma whitespace_nonincr : nonincr whitespace.
Proof.
  intros s v r. rewrite whitespace_ok. intros [= _ <-]. apply span_length.
Qed.

Lemma comment_regexp_nonincr : nonincr comment_regexp.
Proof.
  intros s v r. unfold comment_regexp.
  destruct s as [|a [|b s]]; [done..|].
  destruct ((a =? c_minus) && (b =? c_minus)); [|done].
  pose proof (span_length is_dot s) as Hlen.
  destruct (span is_dot s) as [m r']. intros [= _ <-]. simpl in *. lia.
Qed.

Lemma comment_nonincr : nonincr comment.
Proof. apply or_nonincr; [apply comment_regexp_nonincr | apply of_nonincr]. Qed.

Lemma token_nonincr {A} (p : Parser A) : nonincr p -> nonincr (token p).
Proof.
  intros. unfold token.
  apply skip_nonincr; [apply skip_nonincr|];
    auto using whitespace_nonincr, comment_nonincr.
Qed.

Lemma string_lit_nonincr (w : str) : nonincr (string_lit w).
Proof.
  intros s v r. unfold string_lit.
  destruct (strip_prefix w s) as [r0|] eqn:Hs; [|done].
  intros [= _ <-]. apply strip_prefix_length in Hs. lia.
Qed.

Lemma word_nonincr (w : str) : nonincr (word w).
Proof.
  unfold word. apply token_nonincr, then_nonincr;
    [apply token_nonincr, comment_nonincr | apply string_lit_nonincr].
Qed.

Lemma string_regexp_nonincr : nonincr string_regexp.
Proof.
  intros s v r. unfold string_regexp. destruct s as [|q s]; [done|].
  destruct (is_quote q); [|done].
  destruct (string_body s) as [[m r0]|] eqn:Hs; [|done].
  intros [= _ <-]. apply (string_body_length (length s)) in Hs; simpl; lia.
Qed.

Lemma text_regexp_nonincr : nonincr text_regexp.
Proof.
  intros s v r. unfold text_regexp.
  pose proof (span_length is_text_char s) as Hlen.
  destruct (span is_text_char s). intros [= _ <-]. done.
Qed.

Lemma digits1_length (s m r : str) :
  digits1 s = Some (m, r) -> (length r <= length s)%nat.
Proof.
  unfold digits1. pose proof (span_length is_digit s) as Hlen.
  destruct (span is_digit s) as [m0 r0]. destruct m0; [done|].
  by intros [= _ <-].
Qed.

Lemma number_int_length (s m r : str) :
  number_int s = Some (m, r) -> (length r <= length s)%nat.
Proof.
  unfold number_int. destruct s as [|c s]; [done|].
  destruct (c =? 48); [intros [= _ <-]; simpl; lia|].
  destruct (in_range 49 57 c); [|done].
  pose proof (span_length is_digit s) as Hlen.
  destruct (span is_digit s). intros [= _ <-]. simpl in *. lia.
Qed.

Lemma number_frac_length (s : str) : (length (number_frac s).2 <= length s)%nat.
Proof.
  unfold number_frac. destruct s as [|c s]; [done|].
  destruct (c =? c_dot); [|done].
  destruct (digits1 s) as [[m r]|] eqn:Hd; [|done].
  apply digits1_length in Hd. simpl. lia.
Qed.

Lemma number_exp_length (s : str) : (length (number_exp s).2 <= length s)%nat.
Proof.
  unfold number_exp. destruct s as [|c s]; [done|].
  destruct ((c =? 101) || (c =? 69)); [|done].
  destruct s as [|sg s1]; [done|].
  destruct ((sg =? c_plus) || (sg =? c_minus)).
  - destruct (digits1 s1) as [[m r]|] eqn:Hd; [|done].
    apply digits1_length in Hd. simpl. lia.
  - destruct (digits1 (sg :: s1)) as [[m r]|] eqn:Hd; [|done].
    apply digits1_length in Hd. simpl in *. lia.
Qed.

Lemma number_regexp_nonincr : nonincr number_regexp.
Proof.
  intros s v r. unfold number_regexp.
  set (st := match s with
             | c :: r0 => if c =? c_minus then (true, r0) else (false, s)
             | [] => (false, s)
             end).
  assert (Hst : (length st.2 <= length s)%nat).
  { subst st. destruct s as [|c s0]; [done|]. destruct (c =? c_minus); simpl; lia. }
  destruct st as [neg s1]. simpl in Hst.
  destruct (number_int s1) as [[ip s2]|] eqn:Hi; [|done].
  apply number_int_length in Hi.
  pose proof (number_frac_length s2) as Hf.
  destruct (number_frac s2) as [fp s3]. simpl in Hf.
  pose proof (number_exp_length s3) as He.
  destruct (number_exp s3) as [ep s4]. simpl in He.
  intros [= _ <-]. lia.
Qed.

Lemma fuelless_safe {A} (p : Parser A) (n : nat) : fuelless p -> safe n p.
Proof. intros Hp s _. apply Hp. Qed.

Lemma of_fuelless {A} (v : A) : fuelless (of_ v).
Proof. by intros s. Qed.

Lemma whitespace_fuelless : fuelless whitespace.
Proof. intros s. by rewrite whitespace_ok. Qed.

Lemma comment_regexp_fuelless : fuelless comment_regexp.
Proof. intros s. apply comment_regexp_no_abort. Qed.

Lemma string_lit_fuelless (w : str) : fuelless (string_lit w).
Proof. intros s. unfold string_lit. by destruct (strip_prefix w s). Qed.

Lemma eof_fuelless : fuelless eof.
Proof. intros s. by destruct s. Qed.

Lemma string_regexp_fuelless : fuelless string_regexp.
Proof.
  intros s. unfold string_regexp. destruct s as [|q s]; [done|].
  destruct (is_quote q); [|done]. by destruct (string_body s) as [[m r]|].
Qed.

Lemma text_regexp_fuelless : fuelless text_regexp.
Proof. intros s. unfold text_regexp. by destruct (span is_text_char s). Qed.

Lemma number_regexp_fuelless : fuelless number_regexp.
Proof.
  intros s. unfold number_regexp.
  destruct (match s with
            | c :: r0 => if c =? c_minus then (true, r0) else (false, s)
            | [] => (false, s)
            end) as [neg s1].
  destruct (number_int s1) as [[ip s2]|]; [|done].
  destruct (number_frac s2) as [fp s3]. by destruct (number_exp s3).
Qed.

Lemma chain_safe {A B} (n : nat) (p : Parser A) (f : A -> Parser B) :
  safe n p -> nonincr p -> (forall v, safe n (f v)) -> safe n (chain p f).
Proof.
  intros Hp Hn Hf s Hs. unfold chain.
  destruct (p s) as [v r| |e] eqn:Hps; [|done|].
  - apply Hf. apply Hn in Hps. lia.
  - intros [= ->]. by apply (Hp s Hs).
Qed.

(** After a parser that consumes, the rest needs fuel for shorter input
    only. *)
Lemma chain_safe_consumes {A B} (n : nat) (p : Parser A) (f : A -> Parser B) :
  safe (S n) p -> consumes p -> (forall v, safe n (f v)) ->
  safe (S n) (chain p f).
Proof.
  intros Hp Hc Hf s Hs. unfold chain.
  destruct (p s) as [v r| |e] eqn:Hps; [|done|].
  - apply Hf. apply Hc in Hps. lia.
  - intros [= ->]. by apply (Hp s Hs).
Qed.

Lemma map_safe {A B} (n : nat) (f : A -> B) (p : Parser A) :
  safe n p -> nonincr p -> safe n (map_ f p).
Proof.
  intros. apply chain_safe; [done..|]. intros. apply fuelless_safe, of_fuelless.
Qed.

Lemma result_safe {A B} (n : nat) (p : Parser A) (v : B) :
  safe n p -> nonincr p -> safe n (result p v).
Proof. apply map_safe. Qed.

Lemma then_safe {A B} (n : nat) (p : Parser A) (q : Parser B) :
  safe n p -> nonincr p -> safe n q -> safe n (then_ p q).
Proof. intros. by apply chain_safe. Qed.

Lemma then_safe_consumes {A B} (n : nat) (p : Parser A) (q : Parser B) :
  safe (S n) p -> consumes p -> safe n q -> safe (S n) (then_ p q).
Proof. intros. by apply chain_safe_consumes. Qed.

Lemma skip_safe {A B} (n : nat) (p : Parser A) (q : Parser B) :
  safe n p -> nonincr p -> safe n q -> nonincr q -> safe n (skip p q).
Proof. intros. apply chain_safe; [done..|]. intros. by apply result_safe. Qed.

Lemma or_safe {A} (n : nat) (p q : Parser A) :
  safe n p -> safe n q -> safe n (or_ p q).
Proof.
  intros Hp Hq s Hs. unfold or_.
  destruct (p s) as [v r| |e] eqn:Hps; [done|by apply Hq|].
  intros [= ->]. by apply (Hp s Hs).
Qed.

Lemma alt_nil_safe {A} (n : nat) : safe n (@alt A []).
Proof. by intros s _. Qed.

Lemma alt_cons_safe {A} (n : nat) (p : Parser A) (ps : list (Parser A)) :
  safe n p -> safe n (alt ps) -> safe n (alt (p :: ps)).
Proof. intros. simpl. by apply or_safe. Qed.

Lemma many_aux_safe {A} (n k : nat) (p : Parser A) (s : str) :
  safe n p -> (length s < n)%nat -> (length s <= k)%nat ->
  many_aux k p s <> Abort OutOfFuel.
Proof.
  intros Hp. revert s. induction k as [|k IH]; intros s Hs Hk; simpl.
  - destruct (p s) as [v r| |e] eqn:Hps; [|done|].
    + destruct (length r <? length s)%nat eqn:Hlt; [|done].
      apply Nat.ltb_lt in Hlt. lia.
    + intros [= ->]. by apply (Hp s Hs).
  - destruct (p s) as [v r| |e] eqn:Hps; [|done|].
    + destruct (length r <? length s)%nat eqn:Hlt; [|done].
      apply Nat.ltb_lt in Hlt.
      pose proof (IH r ltac:(lia) ltac:(lia)) as Hr.
      by destruct (many_aux k p r) as [vs r'| |[]].
    + intros [= ->]. by apply (Hp s Hs).
Qed.

Lemma many_safe {A} (n : nat) (p : Parser A) : safe n p -> safe n (many p).
Proof. intros Hp s Hs. unfold many. by apply (many_aux_safe n). Qed.

Lemma sepBy_safe {A B} (n : nat) (p : Parser A) (sep : Parser B) :
  safe n p -> nonincr p -> safe n sep -> nonincr sep -> safe n (sepBy p sep).
Proof.
  intros Hp Hnp Hs Hns. unfold sepBy, sepBy1.
  apply or_safe; [|apply fuelless_safe, of_fuelless].
  apply chain_safe; [done..|]. intros v.
  apply map_safe; [|apply many_nonincr].
  apply many_safe. by apply then_safe.
Qed.

Lemma optional_safe {A} (n : nat) (p : Parser A) :
  safe n p -> nonincr p -> safe n (kql.optional p).
Proof.
  intros. apply or_safe; [by apply map_safe | apply fuelless_safe, of_fuelless].
Qed.

Lemma comment_safe (n : nat) : safe n comment.
Proof.
  apply or_safe; apply fuelless_safe;
    [apply comment_regexp_fuelless | apply of_fuelless].
Qed.

Lemma token_safe {A} (n : nat) (p : Parser A) :
  safe n p -> nonincr p -> safe n (token p).
Proof.
  intros. unfold token.
  apply skip_safe;
    [apply skip_safe| | |];
    auto using whitespace_nonincr, comment_nonincr, skip_nonincr, comment_safe,
               fuelless_safe, whitespace_fuelless.
Qed.

Lemma word_safe (n : nat) (w : str) : safe n (word w).
Proof.
  unfold word. apply token_safe.
  - apply then_safe.
    + apply token_safe; [apply comment_safe | apply comment_nonincr].
    + apply token_nonincr, comment_nonincr.
    + apply fuelless_safe, string_lit_fuelless.
  - apply then_nonincr;
      [apply token_nonincr, comment_nonincr | apply string_lit_nonincr].
Qed.

Lemma lead_length (s : str) : (length (lead s) <= length s)%nat.
Proof.
  destruct (token_comment_total s) as [c Hc].
  by apply (token_nonincr comment comment_nonincr) in Hc.
Qed.

Lemma trail_length (s : str) : (length (trail s) <= length s)%nat.
Proof.
  pose proof (token_ok (of_ tt) s s tt eq_refl) as Ht.
  by apply (token_nonincr (of_ tt) (of_nonincr tt)) in Ht.
Qed.

Lemma word_consumes (c : char) (w : str) : consumes (word (c :: w)).
Proof.
  intros s v r. rewrite word_eq.
  destruct (strip_prefix (c :: w) (lead s)) as [r0|] eqn:Hs; [|done].
  intros [= _ <-]. apply strip_prefix_length in Hs.
  pose proof (lead_length s). pose proof (trail_length r0). simpl in Hs. lia.
Qed.

Lemma or_consumes {A} (p q : Parser A) :
  consumes p -> consumes q -> consumes (or_ p q).
Proof.
  intros Hp Hq s v r. unfold or_.
  destruct (p s) as [v0 r0| |] eqn:Hps; [|by apply Hq|done].
  intros [= <- <-]. by apply Hp in Hps.
Qed.

Ltac solve_nonincr :=
  repeat first
    [ assumption
    | apply of_nonincr | apply whitespace_nonincr | apply comment_nonincr
    | apply string_lit_nonincr | apply word_nonincr | apply string_regexp_nonincr
    | apply text_regexp_nonincr | apply number_regexp_nonincr
    | apply many_nonincr | apply alt_nil_nonincr
    | apply token_nonincr | apply optional_nonincr | apply sepBy_nonincr
    | apply wrap_nonincr | apply alt_cons_nonincr | apply or_nonincr
    | apply result_nonincr | apply map_nonincr | apply then_nonincr
    | apply skip_nonincr | apply chain_nonincr
    | progress cbv beta
    | match goal with |- forall _, _ => intro end ].

Ltac solve_safe :=
  repeat first
    [ assumption
    | apply word_safe | apply comment_safe | apply alt_nil_safe
    | apply fuelless_safe;
      first [ apply of_fuelless | apply whitespace_fuelless
            | apply string_regexp_fuelless | apply text_regexp_fuelless
            | apply number_regexp_fuelless | apply eof_fuelless
            | apply string_lit_fuelless ]
    | apply token_safe | apply optional_safe | apply sepBy_safe
    | apply many_safe | apply alt_cons_safe | apply or_safe
    | apply result_safe | apply map_safe | apply then_safe
    | apply skip_safe | apply chain_safe
    | progress solve_nonincr
    | progress cbv beta
    | match goal with |- forall _, _ => intro end ].

Ltac unfold_tokens_once :=
  unfold kql.lbrace, kql.rbrace, kql.lbracket, kql.rbracket, kql.lParenthesis,
    kql.rParenthesis, kql.comma, kql.colon, kql.dot, kql.and, kql.comment,
    kql.null, kql.true, kql.false, kql.string, kql.text, kql.constants,
    kql.number, kql.operator, kql.databaseName, kql.asAlias, kql.key,
    kql.joinCondition, kql.join, kql.limit, kql.databaseRef.

Ltac unfold_tokens := repeat progress unfold_tokens_once.

Section RulesTerminate.
Variable v : Parser Value.
Hypothesis Hv : nonincr v.

Lemma array_nonincr : nonincr (kql.array v).
Proof using Hv. unfold kql.array. unfold_tokens. solve_nonincr. Qed.

Lemma pair_nonincr : nonincr (kql.pair v).
Proof using Hv. unfold kql.pair. unfold_tokens. solve_nonincr. Qed.

Lemma object_nonincr : nonincr (kql.object v).
Proof using Hv.
  unfold kql.object. pose proof pair_nonincr. unfold_tokens.
  solve_nonincr.
Qed.

Lemma fn_nonincr : nonincr (kql.fn v).
Proof using Hv. unfold kql.fn. unfold_tokens. solve_nonincr. Qed.

Lemma value_alt_nonincr : nonincr (kql.value_alt v).
Proof using Hv.
  unfold kql.value_alt.
  pose proof array_nonincr. pose proof object_nonincr. pose proof fn_nonincr.
  unfold_tokens. solve_nonincr.
Qed.

Lemma pairCondition_nonincr : nonincr (kql.pairCondition v).
Proof using Hv. unfold kql.pairCondition. unfold_tokens. solve_nonincr. Qed.

Lemma where_nonincr : nonincr (kql.where_ v).
Proof using Hv.
  unfold kql.where_. pose proof pairCondition_nonincr. unfold_tokens.
  solve_nonincr.
Qed.

Lemma parameters_nonincr : nonincr (kql.parameters v).
Proof using Hv.
  unfold kql.parameters. pose proof pairCondition_nonincr. unfold_tokens.
  solve_nonincr.
Qed.

Lemma select_nonincr : nonincr (kql.select v).
Proof using Hv.
  unfold kql.select. pose proof where_nonincr. unfold_tokens.
  solve_nonincr.
Qed.

Lemma fetch_nonincr : nonincr (kql.fetch v).
Proof using Hv.
  unfold kql.fetch. pose proof parameters_nonincr. unfold_tokens.
  solve_nonincr.
Qed.

Lemma create_nonincr : nonincr (kql.create v).
Proof using Hv.
  unfold kql.create. pose proof parameters_nonincr. unfold_tokens.
  solve_nonincr.
Qed.

Lemma getConfig_nonincr : nonincr (kql.getConfig v).
Proof using Hv.
  unfold kql.getConfig. pose proof parameters_nonincr. unfold_tokens.
  solve_nonincr.
Qed.

Lemma updateConfig_nonincr : nonincr kql.updateConfig.
Proof using Type. unfold kql.updateConfig. unfold_tokens. solve_nonincr. Qed.

Lemma parser_alt_nonincr : nonincr (kql.parser_alt v).
Proof using Hv.
  unfold kql.parser_alt.
  pose proof select_nonincr. pose proof fetch_nonincr.
  pose proof create_nonincr. pose proof getConfig_nonincr.
  pose proof updateConfig_nonincr.
  solve_nonincr.
Qed.
End RulesTerminate.

Lemma value_nonincr (n : nat) : nonincr (kql.value n).
Proof.
  induction n as [|n IH]; [by intros s v r|].
  change (nonincr (kql.value_alt (kql.value n))). by apply value_alt_nonincr.
Qed.

Section RulesFuel.
Variable v : Parser Value.
Variable n : nat.
Hypothesis Hv : nonincr v.
Hypothesis Hs : safe n v.

Lemma opener_consumes : consumes (alt [kql.lbracket; kql.lParenthesis]).
Proof using Type.
  cbn [alt]. apply or_consumes; [apply word_consumes|].
  apply or_consumes; [apply word_consumes | by intros s x r].
Qed.

(** The recursive rules call [r.value] after an opening token only. *)
Lemma array_safe : safe (S n) (kql.array v).
Proof using Hv Hs.
  unfold kql.array. apply skip_safe.
  - apply then_safe_consumes; [|apply opener_consumes|].
    + unfold_tokens. solve_safe.
    + unfold_tokens. solve_safe.
  - unfold_tokens. solve_safe.
  - unfold_tokens. solve_safe.
  - unfold_tokens. solve_safe.
Qed.

Lemma pair_safe : safe n (kql.pair v).
Proof using Hv Hs. unfold kql.pair. unfold_tokens. solve_safe. Qed.

Lemma object_safe : safe (S n) (kql.object v).
Proof using Hv Hs.
  pose proof pair_safe. pose proof (pair_nonincr v Hv).
  unfold kql.object. apply map_safe; [apply skip_safe|].
  - apply then_safe_consumes; [|apply word_consumes|].
    + unfold_tokens. solve_safe.
    + unfold_tokens. solve_safe.
  - unfold_tokens. solve_safe.
  - unfold_tokens. solve_safe.
  - unfold_tokens. solve_safe.
  - unfold_tokens. solve_safe.
Qed.

Lemma fn_safe : safe (S n) (kql.fn v).
Proof using Hv Hs.
  unfold kql.fn. apply chain_safe.
  - unfold_tokens. solve_safe.
  - unfold_tokens. solve_safe.
  - intros f. apply map_safe; [|unfold_tokens; solve_safe].
    unfold wrap. apply then_safe_consumes; [|apply word_consumes|].
    + unfold_tokens. solve_safe.
    + unfold_tokens. solve_safe.
Qed.

Lemma value_alt_safe : safe (S n) (kql.value_alt v).
Proof using Hv Hs.
  pose proof array_safe. pose proof object_safe. pose proof fn_safe.
  pose proof (array_nonincr v Hv). pose proof (object_nonincr v Hv).
  pose proof (fn_nonincr v Hv).
  unfold kql.value_alt. unfold_tokens. solve_safe.
Qed.

Lemma pairCondition_safe : safe n (kql.pairCondition v).
Proof using Hv Hs. unfold kql.pairCondition. unfold_tokens. solve_safe. Qed.

Lemma where_safe : safe n (kql.where_ v).
Proof using Hv Hs.
  pose proof pairCondition_safe. pose proof (pairCondition_nonincr v Hv).
  unfold kql.where_. unfold_tokens. solve_safe.
Qed.

Lemma parameters_safe : safe n (kql.parameters v).
Proof using Hv Hs.
  pose proof pairCondition_safe. pose proof (pairCondition_nonincr v Hv).
  unfold kql.parameters. unfold_tokens. solve_safe.
Qed.

Lemma select_safe : safe n (kql.select v).
Proof using Hv Hs.
  pose proof where_safe. pose proof (where_nonincr v Hv).
  unfold kql.select. unfold_tokens. solve_safe.
Qed.

Lemma fetch_safe : safe n (kql.fetch v).
Proof using Hv Hs.
  pose proof parameters_safe. pose proof (parameters_nonincr v Hv).
  unfold kql.fetch. unfold_tokens. solve_safe.
Qed.

Lemma create_safe : safe n (kql.create v).
Proof using Hv Hs.
  pose proof parameters_safe. pose proof (parameters_nonincr v Hv).
  unfold kql.create. unfold_tokens. solve_safe.
Qed.

Lemma getConfig_safe : safe n (kql.getConfig v).
Proof using Hv Hs.
  pose proof parameters_safe. pose proof (parameters_nonincr v Hv).
  unfold kql.getConfig. unfold_tokens. solve_safe.
Qed.

Lemma updateConfig_safe : safe n kql.updateConfig.
Proof using Type. unfold kql.updateConfig. unfold_tokens. solve_safe. Qed.

Lemma parser_alt_safe : safe n (kql.parser_alt v).
Proof using Hv Hs.
  pose proof select_safe. pose proof fetch_safe. pose proof create_safe.
  pose proof getConfig_safe. pose proof updateConfig_safe.
  unfold kql.parser_alt. solve_safe.
Qed.
End RulesFuel.

Lemma value_safe (n : nat) : safe n (kql.value n).
Proof.
  induction n as [|n IH]; [intros s Hs; simpl in Hs; lia|].
  change (safe (S n) (kql.value_alt (kql.value n))).
  apply value_alt_safe; [apply value_nonincr | done].
Qed.

(** With more fuel than the text is long, the parser reaches its result. *)
Lemma tryParse_enough (n : nat) (text : str) :
  (length text < n)%nat -> tryParse n text <> Abort OutOfFuel.
Proof.
  unfold tryParse.
  assert (Hsafe : safe n (skip (kql.parser n) eof)).
  { apply skip_safe.
    - apply parser_alt_safe; [apply value_nonincr | apply value_safe].
    - apply parser_alt_nonincr, value_nonincr.
    - apply fuelless_safe, eof_fuelless.
    - intros s v r. destruct s; [|done]. by intros [= _ <-]. }
  apply Hsafe.
Qed.

Lemma parse_total (text : str) : parse text <> Abort OutOfFuel.
Proof.
  exact (tryParse_enough (S (length text)) text (Nat.lt_succ_diag_r (length text))).
Qed.

(** Whatever fuel a run is given, if it does not run out its result is
    that of [parse]. *)
Lemma tryParse_parse (n : nat) (text : str) :
  tryParse n text <> Abort OutOfFuel -> tryParse n text = parse text.
Proof.
  intros Hn.
  exact (tryParse_fuel_independent n (S (length text)) text Hn (parse_total text)).
Qed.

(** ** Fuel and the result *)

(** Fuel is a device of the embedding: two runs of [tryParse] that both
    yield an AST yield the same one, whatever fuel each was given, and it
    is the AST that [parse] yields. *)
Lemma tryParse_agree
    (text : str) (n m : nat) (ast1 ast2 : Statement)
    (H1 : tryParse n text = Ok ast1 [])
    (H2 : tryParse m text = Ok ast2 []) :
  ast1 = ast2 /\ parse text = Ok ast1 [].
Proof.
  assert (Hn : tryParse n text = parse text)
    by (apply tryParse_parse; rewrite H1; done).
  assert (Hm : tryParse m text = parse text)
    by (apply tryParse_parse; rewrite H2; done).
  split.
  - rewrite H1 in Hn. rewrite H2 in Hm. rewrite <- Hn in Hm. by injection Hm.
  - by rewrite <- Hn.
Qed.

(** ** The database name of a join *)

Lemma parse_common_fuel (s1 s2 : str) :
  (forall n, tryParse n s1 = tryParse n s2) -> parse s1 = parse s2.
Proof.
  intros H. set (n := S (length s1 + length s2)).
  rewrite <- (tryParse_parse n s1) by (apply tryParse_enough; lia).
  rewrite <- (tryParse_parse n s2) by (apply tryParse_enough; lia).
  apply H.
Qed.

(** On statements that begin [select * from d0 join d] the name after
    [join] does not matter. *)
Lemma join_name_irrelevant_simple (d0 d1 d2 rest : str) :
  d0 ∈ databaseNames -> d1 ∈ databaseNames -> d2 ∈ databaseNames ->
  nameEnd rest = true ->
  parse (js "select * from " ++ d0 ++ js " join " ++ d1 ++ rest)
  = parse (js "select * from " ++ d0 ++ js " join " ++ d2 ++ rest).
Proof.
  intros H0 H1 H2 Hrest. apply parse_common_fuel. intros fuel.
  destruct (joinHead_inv _ _ _ (joinHead_simple d0 d1 rest H0 H1))
    as (r1 & w1 & Hs1 & Hj1).
  destruct (joinHead_inv _ _ _ (joinHead_simple d0 d2 rest H0 H2))
    as (r2 & w2 & Hs2 & Hj2).
  rewrite (tryParse_select fuel _ _ _ Hs1), (tryParse_select fuel _ _ _ Hs2).
  by apply (select_join_name _ _ _ r1 r2 w1 w2 rest d1 d2
              {| name := d0; db_alias := None |}).
Qed.

(** C9.  Take two select statements that agree up to and including the
    keyword [join], go on with a database name each, not followed by a
    letter, and agree again after the name.  They parse alike: to the same
    AST, or both not at all.  The database name of a join clause leaves no
    trace in the AST. *)
Theorem C9_join_database_discarded
    (pre rest d1 d2 : str) (db : DatabaseRef)
    (Hd1 : d1 ∈ databaseNames) (Hd2 : d2 ∈ databaseNames)
    (Hrest : nameEnd rest = true)
    (H1 : joinHead (pre ++ d1 ++ rest) = Ok db (d1 ++ rest))
    (H2 : joinHead (pre ++ d2 ++ rest) = Ok db (d2 ++ rest)) :
  parse (pre ++ d1 ++ rest) = parse (pre ++ d2 ++ rest).
Proof.
  apply parse_common_fuel. intros fuel.
  destruct (joinHead_inv _ _ _ H1) as (r1 & w1 & Hs1 & Hj1).
  destruct (joinHead_inv _ _ _ H2) as (r2 & w2 & Hs2 & Hj2).
  rewrite (tryParse_select fuel _ _ _ Hs1), (tryParse_select fuel _ _ _ Hs2).
  by apply (select_join_name _ _ _ r1 r2 w1 w2 rest d1 d2 db).
Qed.

(** [join t] and [join tile38] in the same statement. *)
Lemma C9_join_database_discarded_witness :
  parse (js "select * from m join t on t.id = m.order_id where m.id = 1")
  = parse (js "select * from m join tile38 on t.id = m.order_id where m.id = 1")
  /\ exists ast,
      parse (js "select * from m join t on t.id = m.order_id where m.id = 1")
      = Ok (Select ast) []
      /\ sel_join ast
         = Some {| jleft := {| alias := Some (js "t"); key := js "id" |};
                   jright := {| alias := Some (js "m"); key := js "order_id" |} |}.
Proof.
  split.
  - apply (C9_join_database_discarded (js "select * from m join ")
             (js " on t.id = m.order_id where m.id = 1") (js "t") (js "tile38")
             {| name := js "m"; db_alias := None |}).
    + apply (bool_decide_unpack _). vm_compute. exact I.
    + apply (bool_decide_unpack _). vm_compute. exact I.
    + reflexivity.
    + vm_compute. reflexivity.
    + vm_compute. reflexivity.
  - eexists. split; vm_compute; reflexivity.
Defined.

(** ** The statements of the test suite *)

Example simple_select_tile38 :
  parse (js "select * from tile38")
  = Ok (Select {| sel_database := {| name := js "tile38"; db_alias := None |};
                  sel_join := None; sel_where := None; sel_limit := None |}) [].
Proof. vm_compute. reflexivity. Qed.

Example tile38_alias :
  parse (js "select * from tile38 as hello")
  = Ok (Select {| sel_database := {| name := js "tile38";
                                     db_alias := Some (js "hello") |};
                  sel_join := None; sel_where := None; sel_limit := None |}) [].
Proof. vm_compute. reflexivity. Qed.

Example where_clause_multiple_conditions :
  parse (js "select * from m where email = 'lynkxyz@gmail.com' and age = 18")
  = Ok (Select
          {| sel_database := {| name := js "m"; db_alias := None |};
             sel_join := None;
             sel_where := Some [
               {| left_ := {| alias := None; key := js "email" |};
                  operator_ := js "=";
                  right_ := VString (js "lynkxyz@gmail.com") |};
               {| left_ := {| alias := None; key := js "age" |};
                  operator_ := js "="; right_ := VNumber (Int 18) |} ];
             sel_limit := None |}) [].
Proof. vm_compute. reflexivity. Qed.

(** Keywords are matched as written. *)
Example keywords_case_sensitive :
  parse (js "SELECT * FROm tile38 AS hello") = Fail.
Proof. vm_compute. reflexivity. Qed.

(** [>] is tried before [>=], so [>=] is never read as an operator. *)
Example integer_literals_exact :
  number_regexp (js "18.0") = Ok (Int 18) []
  /\ number_regexp (js "1e2") = Ok (Int 100) []
  /\ number_regexp (js "-1.8e+1") = Ok (Int (-18)) []
  /\ number_regexp (js "1.5") = Ok (Dec (js "1.5")) []
  /\ number_regexp (js "-0.0") = Ok (Dec (js "-0.0")) [].
Proof. vm_compute. repeat split; reflexivity. Qed.

Example operator_ge_not_read :
  parse (js "select * from t where age >= 18") = Fail.
Proof. vm_compute. reflexivity. Qed.

(** ** Escapes in bare identifiers *)

Lemma span_all (f : char -> bool) (s : str) : Forall (fun c => f c = true) (span f s).1.
Proof.
  induction s as [|c s IH]; simpl; [constructor|].
  destruct (f c) eqn:Hc; [|constructor].
  destruct (span f s) as [m r]. simpl in *. by constructor.
Qed.

Lemma interpretEscapes_no_backslash (s : str) :
  Forall (fun c => (c =? c_backslash) = false) s -> interpretEscapes s = s.
Proof.
  induction 1 as [|c s Hc Hs IH]; simpl; [done|]. by rewrite Hc, IH.
Qed.

(** A bare identifier holds no backslash: [interpretEscapes] leaves it as
    it is. *)
Lemma text_unchanged (s r t : str) : kql.text s = Ok t r -> interpretEscapes t = t.
Proof.
  unfold kql.text, map_, chain, token, skip, chain, text_regexp.
  pose proof (span_all is_text_char s) as Hall.
  destruct (span is_text_char s) as [m r0]. simpl in Hall.
  assert (Hm : interpretEscapes (interpretEscapes m) = interpretEscapes m).
  { assert (Hnb : Forall (fun c => (c =? c_backslash) = false) m).
    { eapply Forall_impl; [exact Hall|]. intros c Hc. simpl in Hc.
      unfold is_text_char, in_range, is_digit, in_range, c_minus, c_underscore,
        c_backslash in *.
      destruct (c =? 92) eqn:E; [|done]. apply N.eqb_eq in E. by subst c. }
    by rewrite !(interpretEscapes_no_backslash m Hnb). }
  unfold result, map_, chain, of_.
  repeat (case_match; simplify_eq; try done).
  intros [= <- _]. done.
Qed.

(** ** An empty [where] is not a null [where] *)

(** With [where] present but empty the compilation goes ahead: the
    registry is fetched and the final query is posted. *)
Lemma empty_where_compiles :
  run_calls (parseSelect noDec quietBackend emptyAreas
               {| sel_database := {| name := js "t"; db_alias := None |};
                  sel_join := None; sel_where := Some []; sel_limit := None |})
  = [GetServices; PostQuery (Some (js "limit 100")) (Some (VObject ∅))].
Proof. vm_compute. reflexivity. Qed.

(** * Further properties *)

(** ** Status names and numbers *)

(** X1.  A status name that [statusToNumber] knows, in any case and with
    any blanks around it, goes to a number that [numberToStatus] takes back
    to the trimmed lower-case name; and whatever name [numberToStatus]
    gives for that number, [statusToNumber] maps it to the number. *)
Theorem status_round_trip (s : str) (z : Z)
    (H : statusToNumber s = num z) :
  numberToStatus z = Some (trim (toLowerCase s))
  /\ statusToNumber (trim (toLowerCase s)) = num z
  /\ forall name, numberToStatus z = Some name -> statusToNumber name = num z.
Proof.
  unfold statusToNumber in H.
  destruct (str_eqb (trim (toLowerCase s)) (js "online")) eqn:E1.
  { apply str_eqb_true in E1. rewrite E1. injection H as <-.
    split; [reflexivity|split; [reflexivity|intros name [= <-]; reflexivity]]. }
  destruct (str_eqb (trim (toLowerCase s)) (js "busy")) eqn:E2.
  { apply str_eqb_true in E2. rewrite E2. injection H as <-.
    split; [reflexivity|split; [reflexivity|intros name [= <-]; reflexivity]]. }
  destruct (str_eqb (trim (toLowerCase s)) (js "offline")) eqn:E3; [|done].
  apply str_eqb_true in E3. rewrite E3. injection H as <-.
  split; [reflexivity|split; [reflexivity|intros name [= <-]; reflexivity]].
Qed.

Lemma status_round_trip_witness :
  numberToStatus 1 = Some (js "online")
  /\ statusToNumber (js "online") = num 1
  /\ forall name, numberToStatus 1 = Some name -> statusToNumber name = num 1.
Proof. exact (status_round_trip (js " Online ") 1 eq_refl). Defined.

(** X2.  The same for order statuses. *)
Theorem order_status_round_trip (s : str) (z : Z)
    (H : orderStatusToNumber s = num z) :
  numberToOrderStatus z = Some (trim (toLowerCase s))
  /\ orderStatusToNumber (trim (toLowerCase s)) = num z
  /\ forall name,
      numberToOrderStatus z = Some name -> orderStatusToNumber name = num z.
Proof.
  unfold orderStatusToNumber in H.
  repeat match type of H with
  | (if str_eqb ?k ?w then _ else _) = _ =>
    let E := fresh "E" in
    destruct (str_eqb k w) eqn:E;
      [ apply str_eqb_true in E; rewrite E; injection H as <-;
        split; [reflexivity|split; [reflexivity|intros name [= <-]; reflexivity]] | ]
  end.
  done.
Qed.

Lemma order_status_round_trip_witness :
  numberToOrderStatus 4 = Some (js "in_process")
  /\ orderStatusToNumber (js "in_process") = num 4
  /\ forall name,
      numberToOrderStatus 4 = Some name -> orderStatusToNumber name = num 4.
Proof. exact (order_status_round_trip (js "IN_PROCESS") 4 eq_refl). Defined.

(** ** The surrogate of a join key *)

Lemma string_of_uint_digits (d : Decimal.uint) :
  Forall (fun c => is_digit c = true)
         (js (DecimalString.NilEmpty.string_of_uint d)).
Proof.
  induction d; simpl; try constructor; try reflexivity; assumption.
Qed.

Lemma natToString_digits (n : nat) :
  Forall (fun c => is_digit c = true) (natToString n).
Proof.
  unfold natToString, DecimalString.NilZero.string_of_uint.
  destruct (Nat.to_uint n) eqn:E;
    try (rewrite <- E; apply string_of_uint_digits).
  repeat constructor.
Qed.

(** X3.  [str2Number] works unit by unit: the surrogate of a concatenation
    is the concatenation of the surrogates, it holds decimal digits only,
    and two different keys can share a surrogate. *)
Theorem str2Number_concat (s t : str) :
  str2Number (s ++ t) = str2Number s ++ str2Number t
  /\ Forall (fun c => is_digit c = true) (str2Number s)
  /\ exists a b : str, a <> b /\ str2Number a = str2Number b.
Proof.
  split; [|split].
  - unfold str2Number. by rewrite map_app, concat_app.
  - unfold str2Number. induction s as [|c s IH]; simpl; [constructor|].
    apply Forall_app. split; [apply natToString_digits | exact IH].
  - exists [1; 1], [11]. split; [discriminate | reflexivity].
Qed.

(** ** Escapes *)

(** X4.  [interpretEscapes] replaces one escape at most, and copies what
    follows it: its result is the string itself, or the string with one
    backslash and the code unit after it (not [u]) replaced, or with one
    backslash, [u] and four code units replaced by the unit they spell. *)
Theorem interpretEscapes_first_only (s : str) :
  interpretEscapes s = s
  \/ (exists p e r,
        s = p ++ c_backslash :: e :: r /\ e <> 117
        /\ interpretEscapes s = p ++ escape_char e :: r)
  \/ (exists p h1 h2 h3 h4 r,
        s = p ++ c_backslash :: 117 :: h1 :: h2 :: h3 :: h4 :: r
        /\ is_hex h1 && is_hex h2 && is_hex h3 && is_hex h4 = true
        /\ interpretEscapes s = p ++ from_hex4 h1 h2 h3 h4 :: r).
Proof.
  induction s as [|c s IH]; [by left|].
  assert (Hkeep :
    interpretEscapes (c :: s) = c :: interpretEscapes s ->
    interpretEscapes (c :: s) = c :: s
    \/ (exists p e r,
          c :: s = p ++ c_backslash :: e :: r /\ e <> 117
          /\ interpretEscapes (c :: s) = p ++ escape_char e :: r)
    \/ (exists p h1 h2 h3 h4 r,
          c :: s = p ++ c_backslash :: 117 :: h1 :: h2 :: h3 :: h4 :: r
          /\ is_hex h1 && is_hex h2 && is_hex h3 && is_hex h4 = true
          /\ interpretEscapes (c :: s) = p ++ from_hex4 h1 h2 h3 h4 :: r)).
  { intros ->.
    destruct IH as [-> | [(p & e & r & -> & He & ->) | (p & h1 & h2 & h3 & h4 & r & -> & Hh & ->)]].
    - by left.
    - right; left. by exists (c :: p), e, r.
    - right; right. by exists (c :: p), h1, h2, h3, h4, r. }
  destruct (c =? c_backslash) eqn:Hc.
  2:{ apply Hkeep. simpl. by rewrite Hc. }
  apply N.eqb_eq in Hc. subst c.
  destruct s as [|e r]; [by left|].
  destruct (e =? 117) eqn:He.
  - apply N.eqb_eq in He. subst e.
    destruct r as [|h1 [|h2 [|h3 [|h4 r']]]];
      try (apply Hkeep; reflexivity).
    destruct (is_hex h1 && is_hex h2 && is_hex h3 && is_hex h4) eqn:Hh.
    + right; right. exists [], h1, h2, h3, h4, r'.
      split; [done|]. split; [done|]. simpl. by rewrite Hh.
    + apply Hkeep. simpl. by rewrite Hh.
  - right; left. exists [], e, r.
    split; [done|]. split; [by apply N.eqb_neq|]. simpl. by rewrite He.
Qed.

(** ** String literals *)

Lemma string_body_content (content rest : str) (q : char) :
  is_quote q = true ->
  Forall (fun c => contentChar c = true) content ->
  string_body (content ++ q :: rest) = Some (content, rest).
Proof.
  intros Hq Hc. induction Hc as [|c content Hch _ IH].
  - simpl. by rewrite Hq.
  - unfold contentChar in Hch.
    apply andb_true_iff in Hch as [[Hnq Hdot]%andb_true_iff Hnb].
    apply negb_true_iff in Hnq, Hnb.
    simpl. by rewrite Hnq, Hdot, IH, Hnb.
Qed.

(** X5.  A string literal whose content holds no quote, no backslash and
    no line terminator is read as that content, whichever of the two quote
    characters opens it and whichever closes it. *)
Theorem string_literal_verbatim (q1 q2 : char) (content rest : str)
    (Hq1 : is_quote q1 = true) (Hq2 : is_quote q2 = true)
    (Hc : Forall (fun c => contentChar c = true) content) :
  kql.string (q1 :: content ++ q2 :: rest) = Ok content (trail rest).
Proof.
  unfold kql.string, map_, chain.
  rewrite (token_ok string_regexp _ rest content).
  - unfold of_. f_equal. apply interpretEscapes_no_backslash.
    eapply Forall_impl; [exact Hc|]. intros c Hch. simpl in Hch.
    unfold contentChar in Hch. apply andb_true_iff in Hch as [_ Hnb].
    by apply negb_true_iff in Hnb.
  - unfold string_regexp. by rewrite Hq1, (string_body_content _ _ _ Hq2 Hc).
Qed.

Lemma string_literal_verbatim_witness :
  kql.string (c_dquote :: js "lynkxyz@gmail.com" ++ c_squote :: js " and")
  = Ok (js "lynkxyz@gmail.com") (js "and").
Proof.
  apply (string_literal_verbatim c_dquote c_squote (js "lynkxyz@gmail.com") (js " and"));
    [reflexivity | reflexivity |].
  apply Forall_forall. intros c Hc.
  apply (bool_decide_unpack _). revert c Hc. apply Forall_forall.
  vm_compute. repeat constructor.
Defined.

(** ** Operators *)

Lemma strip_prefix_one (a : char) (w l r : str) :
  strip_prefix (a :: w) l = Some r -> exists r', strip_prefix [a] l = Some r'.
Proof.
  destruct l as [|b l]; simpl; [done|]. destruct (a =? b); [eauto | done].
Qed.

(** X6.  The operator rule yields [=], [>], [<], [in] or [is].  It never
    yields [>=] or [<=]: [>] and [<] stand before them in the choice and
    match wherever they would. *)
Theorem operator_never_ge_le (s r : str) (op : str)
    (H : kql.operator s = Ok op r) :
  op ∈ [js "="; js ">"; js "<"; js "in"; js "is"].
Proof.
  unfold kql.operator in H. cbn [alt] in H. unfold or_ in H.
  rewrite !word_eq in H.
  destruct (strip_prefix (js "=") (lead s)) eqn:E1;
    [injection H as <- _; set_solver|].
  destruct (strip_prefix (js ">") (lead s)) eqn:E2;
    [injection H as <- _; set_solver|].
  destruct (strip_prefix (js ">=") (lead s)) eqn:E3.
  { apply (strip_prefix_one 62 [61]) in E3 as [r' E3].
    change (strip_prefix (js ">") (lead s) = Some r') in E3. by rewrite E2 in E3. }
  destruct (strip_prefix (js "<") (lead s)) eqn:E4;
    [injection H as <- _; set_solver|].
  destruct (strip_prefix (js "<=") (lead s)) eqn:E5.
  { apply (strip_prefix_one 60 [61]) in E5 as [r' E5].
    change (strip_prefix (js "<") (lead s) = Some r') in E5. by rewrite E4 in E5. }
  destruct (strip_prefix (js "in") (lead s)) eqn:E6;
    [injection H as <- _; set_solver|].
  destruct (strip_prefix (js "is") (lead s)) eqn:E7;
    [injection H as <- _; set_solver|done].
Qed.

Lemma operator_never_ge_le_witness :
  js ">" ∈ [js "="; js ">"; js "<"; js "in"; js "is"].
Proof.
  apply (operator_never_ge_le (js ">= 18") (js "= 18") (js ">")).
  vm_compute. reflexivity.
Defined.

(** ** The parser never throws *)

Lemma quiet_noloop {A} (p : Parser A) : quiet p -> noloop p.
Proof. intros Hp s. apply Hp. Qed.

Lemma of_quiet {A} (v : A) : quiet (of_ v).
Proof. by intros s e. Qed.

Lemma whitespace_quiet : quiet whitespace.
Proof. intros s e. by rewrite whitespace_ok. Qed.

Lemma string_lit_quiet (w : str) : quiet (string_lit w).
Proof. intros s e. unfold string_lit. by destruct (strip_prefix w s). Qed.

Lemma eof_quiet : quiet eof.
Proof. intros s e. by destruct s. Qed.

Lemma string_regexp_quiet : quiet string_regexp.
Proof.
  intros s e. unfold string_regexp. destruct s as [|q s]; [done|].
  destruct (is_quote q); [|done]. by destruct (string_body s) as [[m r]|].
Qed.

Lemma text_regexp_quiet : quiet text_regexp.
Proof. intros s e. unfold text_regexp. by destruct (span is_text_char s). Qed.

Lemma number_regexp_quiet : quiet number_regexp.
Proof.
  intros s e. unfold number_regexp.
  destruct (match s with
            | c :: r0 => if c =? c_minus then (true, r0) else (false, s)
            | [] => (false, s)
            end) as [neg s1].
  destruct (number_int s1) as [[ip s2]|]; [|done].
  destruct (number_frac s2) as [fp s3]. by destruct (number_exp s3).
Qed.

Lemma chain_noloop {A B} (p : Parser A) (f : A -> Parser B) :
  noloop p -> (forall v, noloop (f v)) -> noloop (chain p f).
Proof.
  intros Hp Hf s. unfold chain.
  destruct (p s) as [v r| |e] eqn:Hps; [apply Hf|done|].
  intros [= ->]. by apply (Hp s).
Qed.

Lemma map_noloop {A B} (f : A -> B) (p : Parser A) : noloop p -> noloop (map_ f p).
Proof. intros. apply chain_noloop; [done|]. intros v s. done. Qed.

Lemma result_noloop {A B} (p : Parser A) (v : B) : noloop p -> noloop (result p v).
Proof. apply map_noloop. Qed.

Lemma then_noloop {A B} (p : Parser A) (q : Parser B) :
  noloop p -> noloop q -> noloop (then_ p q).
Proof. intros. by apply chain_noloop. Qed.

Lemma skip_noloop {A B} (p : Parser A) (q : Parser B) :
  noloop p -> noloop q -> noloop (skip p q).
Proof. intros. apply chain_noloop; [done|]. intros. by apply result_noloop. Qed.

Lemma or_noloop {A} (p q : Parser A) : noloop p -> noloop q -> noloop (or_ p q).
Proof.
  intros Hp Hq s. unfold or_.
  destruct (p s) as [v r| |e] eqn:Hps; [done|apply Hq|].
  intros [= ->]. by apply (Hp s).
Qed.

Lemma alt_nil_noloop {A} : noloop (@alt A []).
Proof. by intros s. Qed.

Lemma alt_cons_noloop {A} (p : Parser A) (ps : list (Parser A)) :
  noloop p -> noloop (alt ps) -> noloop (alt (p :: ps)).
Proof. intros. simpl. by apply or_noloop. Qed.

(** A loop over a parser that consumes never meets the guard of
    [.many()]. *)
Lemma many_noloop {A} (p : Parser A) : noloop p -> consumes p -> noloop (many p).
Proof.
  intros Hp Hc s. unfold many. generalize (length s) as k. intros k.
  revert s. induction k as [|k IH]; intros s; simpl.
  - destruct (p s) as [v r| |e] eqn:Hps; [|done|].
    + apply Hc in Hps. by rewrite (proj2 (Nat.ltb_lt _ _) Hps).
    + intros [= ->]. by apply (Hp s).
  - destruct (p s) as [v r| |e] eqn:Hps; [|done|].
    + apply Hc in Hps. rewrite (proj2 (Nat.ltb_lt _ _) Hps).
      pose proof (IH r) as Hr. by destruct (many_aux k p r) as [vs r'| |[]].
    + intros [= ->]. by apply (Hp s).
Qed.

Lemma then_consumes {A B} (p : Parser A) (q : Parser B) :
  consumes p -> nonincr q -> consumes (then_ p q).
Proof.
  intros Hp Hq s v r. unfold then_, chain.
  destruct (p s) as [v0 r0| |] eqn:Hps; [|done..].
  intros Hqr. apply Hp in Hps. apply Hq in Hqr. lia.
Qed.

Lemma sepBy_noloop {A B} (p : Parser A) (sep : Parser B) :
  noloop p -> nonincr p -> noloop sep -> consumes sep -> noloop (sepBy p sep).
Proof.
  intros Hp Hnp Hs Hcs. unfold sepBy, sepBy1.
  apply or_noloop; [|apply quiet_noloop, of_quiet].
  apply chain_noloop; [done|]. intros v.
  apply map_noloop, many_noloop; [by apply then_noloop | by apply then_consumes].
Qed.

Lemma optional_noloop {A} (p : Parser A) : noloop p -> noloop (kql.optional p).
Proof.
  intros. apply or_noloop; [by apply map_noloop | apply quiet_noloop, of_quiet].
Qed.

Lemma comment_noloop : noloop comment.
Proof.
  apply or_noloop; [|apply quiet_noloop, of_quiet].
  intros s. apply comment_regexp_no_abort.
Qed.

Lemma token_noloop {A} (p : Parser A) : noloop p -> noloop (token p).
Proof.
  intros. unfold token. apply skip_noloop; [apply skip_noloop|];
    auto using comment_noloop, quiet_noloop, whitespace_quiet.
Qed.

Lemma word_noloop (w : str) : noloop (word w).
Proof.
  unfold word. apply token_noloop, then_noloop;
    [apply token_noloop, comment_noloop | apply quiet_noloop, string_lit_quiet].
Qed.

Lemma comma_consumes : consumes kql.comma.
Proof. exact (word_consumes 44 []). Qed.

Lemma and_consumes : consumes kql.and.
Proof. exact (word_consumes 97 (js "nd")). Qed.

Ltac solve_noloop :=
  repeat first
    [ assumption
    | apply word_noloop | apply comment_noloop | apply alt_nil_noloop
    | apply comma_consumes | apply and_consumes
    | apply quiet_noloop;
      first [ apply of_quiet | apply whitespace_quiet | apply string_regexp_quiet
            | apply text_regexp_quiet | apply number_regexp_quiet
            | apply eof_quiet | apply string_lit_quiet ]
    | apply token_noloop | apply optional_noloop | apply sepBy_noloop
    | apply alt_cons_noloop | apply or_noloop
    | apply result_noloop | apply map_noloop | apply then_noloop
    | apply skip_noloop | apply chain_noloop
    | progress solve_nonincr
    | progress cbv beta
    | match goal with |- forall _, _ => intro end ].

Ltac unfold_rules :=
  repeat progress
    unfold kql.lbrace, kql.rbrace, kql.lbracket, kql.rbracket, kql.lParenthesis,
      kql.rParenthesis, kql.colon, kql.dot, kql.comment,
      kql.null, kql.true, kql.false, kql.string, kql.text, kql.constants,
      kql.number, kql.operator, kql.databaseName, kql.asAlias, kql.key,
      kql.joinCondition, kql.join, kql.limit, kql.databaseRef, wrap.

Section RulesNoLoop.
Variable v : Parser Value.
Hypothesis Hv : nonincr v.
Hypothesis Hl : noloop v.

Lemma array_noloop : noloop (kql.array v).
Proof using Hv Hl. unfold kql.array. unfold_rules. solve_noloop. Qed.

Lemma pair_noloop : noloop (kql.pair v).
Proof using Hv Hl. unfold kql.pair. unfold_rules. solve_noloop. Qed.

Lemma object_noloop : noloop (kql.object v).
Proof using Hv Hl.
  pose proof pair_noloop. pose proof (pair_nonincr v Hv).
  unfold kql.object. unfold_rules. solve_noloop.
Qed.

Lemma fn_noloop : noloop (kql.fn v).
Proof using Hv Hl. unfold kql.fn. unfold_rules. solve_noloop. Qed.

Lemma value_alt_noloop : noloop (kql.value_alt v).
Proof using Hv Hl.
  pose proof array_noloop. pose proof object_noloop. pose proof fn_noloop.
  unfold kql.value_alt. unfold_rules. solve_noloop.
Qed.

Lemma pairCondition_noloop : noloop (kql.pairCondition v).
Proof using Hv Hl. unfold kql.pairCondition. unfold_rules. solve_noloop. Qed.

Lemma where_noloop : noloop (kql.where_ v).
Proof using Hv Hl.
  pose proof pairCondition_noloop. pose proof (pairCondition_nonincr v Hv).
  unfold kql.where_. unfold_rules. solve_noloop.
Qed.

Lemma parameters_noloop : noloop (kql.parameters v).
Proof using Hv Hl.
  pose proof pairCondition_noloop. pose proof (pairCondition_nonincr v Hv).
  unfold kql.parameters. unfold_rules. solve_noloop.
Qed.

Lemma parser_alt_noloop : noloop (kql.parser_alt v).
Proof using Hv Hl.
  pose proof where_noloop. pose proof parameters_noloop.
  unfold kql.parser_alt, kql.select, kql.fetch, kql.create, kql.getConfig,
    kql.updateConfig.
  unfold_rules. solve_noloop.
Qed.
End RulesNoLoop.

Lemma value_noloop (n : nat) : noloop (kql.value n).
Proof.
  induction n as [|n IH]; [by intros s|].
  change (noloop (kql.value_alt (kql.value n))).
  apply value_alt_noloop; [apply value_nonincr | done].
Qed.

Lemma tryParse_noloop (n : nat) (text : str) : tryParse n text <> Abort InfiniteLoop.
Proof.
  unfold tryParse.
  apply (skip_noloop (kql.parser n) eof);
    [|apply quiet_noloop, eof_quiet].
  apply parser_alt_noloop; [apply value_nonincr | apply value_noloop].
Qed.

Lemma tryParse_all_input (n : nat) (text r : str) (ast : Statement) :
  tryParse n text = Ok ast r -> r = [].
Proof.
  unfold tryParse, skip, chain, result, map_, chain, of_, eof.
  destruct (kql.parser n text) as [st r0| |]; [|done..].
  destruct r0; [|done]. by intros [= _ <-].
Qed.

(** X7.  Whatever the text, parsing ends in one of two ways: with an AST
    and no input left, or with a parse failure.  The guard of [.many()]
    against a loop that consumes nothing is never met, since every
    repetition of the grammar begins with a separator. *)
Theorem parse_outcome (text : str) :
  (exists ast, parse text = Ok ast []) \/ parse text = Fail.
Proof.
  pose proof (parse_total text) as Hfuel.
  pose proof (tryParse_noloop (S (length text)) text) as Hloop.
  pose proof (tryParse_all_input (S (length text)) text) as Hall.
  unfold parse in *.
  destruct (tryParse (S (length text)) text) as [ast r| |[]]; try done.
  - left. exists ast. by rewrite (Hall r ast eq_refl).
  - by right.
Qed.

(** ** Blanks before a statement *)

Lemma span_space_app (ws s : str) :
  Forall (fun c => is_space c = true) ws ->
  (span is_space (ws ++ s)).2 = (span is_space s).2.
Proof.
  induction 1 as [|c ws Hc _ IH]; [done|].
  simpl. rewrite Hc. destruct (span is_space (ws ++ s)). by simpl in *.
Qed.

Lemma then_whitespace_app {A} (q : Parser A) (ws s : str) :
  Forall (fun c => is_space c = true) ws ->
  then_ whitespace q (ws ++ s) = then_ whitespace q s.
Proof.
  intros Hws. unfold then_, chain. rewrite !whitespace_ok.
  by rewrite (span_space_app ws s Hws).
Qed.

Lemma tryParse_leading_whitespace (n : nat) (ws text : str) :
  Forall (fun c => is_space c = true) ws ->
  tryParse n (ws ++ text) = tryParse n text.
Proof.
  intros Hws.
  unfold tryParse, skip, chain, kql.parser, kql.parser_alt. cbn [alt].
  unfold or_, kql.fetch, kql.select, kql.create, kql.getConfig, kql.updateConfig.
  by rewrite !(then_whitespace_app _ ws text Hws).
Qed.

(** X8.  Whitespace in front of a statement changes nothing: the text
    with it and the text without it have the same parse result. *)
Theorem leading_whitespace (ws text : str)
    (Hws : Forall (fun c => is_space c = true) ws) :
  parse (ws ++ text) = parse text.
Proof.
  apply parse_common_fuel. intros n. by apply tryParse_leading_whitespace.
Qed.

Lemma leading_whitespace_witness :
  parse ([10; 32; 32; 9] ++ js "select * from t") = parse (js "select * from t").
Proof.
  apply (leading_whitespace [10; 32; 32; 9] (js "select * from t")).
  repeat constructor.
Defined.

(** ** The five statement forms *)

(** The code unit that the next word must begin with. *)
Lemma word_head (c : char) (w x r : str) (v : str) :
  word (c :: w) x = Ok v r -> lead x !! 0%nat = Some c.
Proof.
  rewrite word_eq.
  destruct (strip_prefix (c :: w) (lead x)) as [r0|] eqn:Hs; [|done].
  intros _. destruct (lead x) as [|b l]; [done|]. simpl in Hs.
  destruct (c =? b) eqn:Hcb; [|done]. apply N.eqb_eq in Hcb. by subst.
Qed.

Lemma keyword_head {A} (k : char) (w : str) (q : Parser A) (s : str) :
  isOk (then_ whitespace (then_ (word (k :: w)) q) s) = true ->
  lead (span is_space s).2 !! 0%nat = Some k.
Proof.
  unfold then_, chain. rewrite whitespace_ok.
  destruct (word (k :: w) (span is_space s).2) as [v r| |] eqn:Hw; [|done..].
  intros _. by apply word_head in Hw.
Qed.

Lemma skip_isOk {A B} (p : Parser A) (q : Parser B) (s : str) :
  isOk (skip p q s) = true -> isOk (p s) = true.
Proof. unfold skip, chain. by destruct (p s). Qed.

Lemma then_skip_isOk {A B C} (p : Parser A) (q : Parser B) (c : Parser C) (s : str) :
  isOk (then_ p (skip q c) s) = true -> isOk (then_ p q s) = true.
Proof.
  unfold then_, chain. destruct (p s) as [v r| |]; [|done..]. apply skip_isOk.
Qed.

(** X9.  No text is accepted by two of the five statement rules: their
    keywords begin with five different letters. *)
Theorem statement_forms_exclusive (v : Parser Value) (s : str) :
  (length (List.filter (fun b : bool => b)
     [isOk (kql.fetch v s); isOk (kql.select v s); isOk (kql.create v s);
      isOk (kql.getConfig v s); isOk (kql.updateConfig s)]) <= 1)%nat.
Proof.
  assert (Hf : isOk (kql.fetch v s) = true ->
               lead (span is_space s).2 !! 0%nat = Some 102).
  { intros H. apply then_skip_isOk in H. by apply keyword_head in H. }
  assert (Hs : isOk (kql.select v s) = true ->
               lead (span is_space s).2 !! 0%nat = Some 115).
  { intros H. apply then_skip_isOk in H. by apply keyword_head in H. }
  assert (Hc : isOk (kql.create v s) = true ->
               lead (span is_space s).2 !! 0%nat = Some 99).
  { intros H. apply then_skip_isOk in H. by apply keyword_head in H. }
  assert (Hg : isOk (kql.getConfig v s) = true ->
               lead (span is_space s).2 !! 0%nat = Some 103).
  { intros H. apply then_skip_isOk in H. by apply keyword_head in H. }
  assert (Hu : isOk (kql.updateConfig s) = true ->
               lead (span is_space s).2 !! 0%nat = Some 117).
  { intros H. apply then_skip_isOk in H. by apply keyword_head in H. }
  destruct (isOk (kql.fetch v s)), (isOk (kql.select v s)),
    (isOk (kql.create v s)), (isOk (kql.getConfig v s)),
    (isOk (kql.updateConfig s));
    try (specialize (Hf eq_refl)); try (specialize (Hs eq_refl));
    try (specialize (Hc eq_refl)); try (specialize (Hg eq_refl));
    try (specialize (Hu eq_refl));
    try congruence; vm_compute; lia.
Qed.

(** ** Object literals *)

Lemma fold_insert_other (post : list (str * Value)) (m : gmap str Value) (k : str) :
  Forall (fun kv : str * Value => kv.1 <> k) post ->
  fold_left (fun o (kv : str * Value) => <[kv.1 := kv.2]> o) post m !! k = m !! k.
Proof.
  intros Hp. revert m. induction Hp as [|[k' v'] post Hk _ IH]; intros m; [done|].
  simpl. rewrite IH. simpl in Hk. by rewrite lookup_insert_ne.
Qed.

(** X10.  [r.object] builds its object with [objectOf], and under a key
    that occurs several times the object holds the value of the last
    occurrence; the key [__proto__], which an assignment does not store,
    is left aside. *)
Theorem object_last_key_wins
    (pre post : list (str * Value)) (k : str) (x : Value)
    (Hkey : k <> js "__proto__")
    (Hpost : Forall (fun kv : str * Value => kv.1 <> k) post) :
  objectOf (pre ++ (k, x) :: post) !! k = Some x
  /\ forall v : Parser Value,
      kql.object v
      = map_ objectOf
          (skip (then_ kql.lbrace (sepBy (kql.pair v) kql.comma)) kql.rbrace).
Proof.
  split; [|reflexivity].
  unfold objectOf. rewrite fold_left_app. simpl.
  rewrite (fold_insert_other post _ k Hpost). simpl.
  by rewrite lookup_insert_eq.
Qed.

Lemma object_last_key_wins_witness :
  objectOf ([(js "a", VNumber (Int 1))] ++ (js "a", VNumber (Int 2))
              :: [(js "b", VNull)]) !! js "a" = Some (VNumber (Int 2))
  /\ kql.value 2 (js "{'a': 1, 'a': 2, 'b': null}")
     = Ok (VObject (objectOf [(js "a", VNumber (Int 1)); (js "a", VNumber (Int 2));
                              (js "b", VNull)])) [].
Proof.
  split; [|vm_compute; reflexivity].
  apply (object_last_key_wins [(js "a", VNumber (Int 1))] [(js "b", VNull)]
           (js "a") (VNumber (Int 2))); [discriminate|].
  repeat constructor. discriminate.
Defined.

(** ** The database of a parsed select *)

Lemma databaseName_names (s r d : str) :
  kql.databaseName s = Ok d r -> d ∈ databaseNames.
Proof.
  unfold kql.databaseName, databaseNames. cbn [alt]. unfold or_.
  rewrite !word_eq.
  repeat (case_match; simplify_eq; try done); intros; simplify_eq; set_solver.
Qed.

Lemma selectHead_name (s r : str) (d : DatabaseRef) :
  selectHead s = Ok d r -> name d ∈ databaseNames.
Proof.
  unfold selectHead, then_, kql.databaseRef, chain, map_, chain, of_.
  repeat (case_match; simplify_eq; try done). intros [= <- _]. simpl.
  by eapply databaseName_names.
Qed.

Lemma select_shape (v : Parser Value) (s r : str) (st : Statement) :
  kql.select v s = Ok st r ->
  exists a, st = Select a /\ name (sel_database a) ∈ databaseNames.
Proof.
  rewrite select_unfold.
  destruct (selectHead s) as [d r0| |] eqn:Hh; [|done..].
  apply selectHead_name in Hh.
  destruct (kql.optional kql.join r0) as [j r1| |]; [|done..].
  unfold afterJoin, skip, chain, result, map_, chain, of_.
  repeat (case_match; simplify_eq; try done). intros [= <- _]. eauto.
Qed.

Lemma other_rules_shape (v : Parser Value) (s r : str) (st : Statement) :
  kql.fetch v s = Ok st r \/ kql.create v s = Ok st r
  \/ kql.getConfig v s = Ok st r \/ kql.updateConfig s = Ok st r ->
  forall a, st <> Select a.
Proof.
  unfold kql.fetch, kql.create, kql.getConfig, kql.updateConfig,
    then_, skip, chain, result, map_, chain, of_.
  intros [H | [H | [H | H]]] a;
    repeat (case_match; simplify_eq; try done).
Qed.

(** X11.  The database of a parsed select statement bears one of the six
    known names. *)
Theorem parsed_select_database (text : str) (a : SelectAst)
    (H : parse text = Ok (Select a) []) :
  name (sel_database a) ∈ databaseNames.
Proof.
  unfold parse, tryParse, skip, chain in H.
  destruct (kql.parser (S (length text)) text) as [st r| |] eqn:Hp; [|done..].
  assert (st = Select a) as ->.
  { unfold result, map_, chain, of_ in H. destruct (eof r); by simplify_eq. }
  clear H. unfold kql.parser, kql.parser_alt in Hp. cbn [alt] in Hp.
  unfold or_ in Hp.
  destruct (kql.fetch _ text) as [st1 r1| |] eqn:H1.
  { simplify_eq. by destruct (other_rules_shape _ _ _ _ (or_introl H1) a). }
  2:{ done. }
  destruct (kql.select _ text) as [st2 r2| |] eqn:H2.
  { simplify_eq. apply select_shape in H2 as (a' & [= <-] & Hn). done. }
  2:{ done. }
  destruct (kql.create _ text) as [st3 r3| |] eqn:H3.
  { simplify_eq.
    by destruct (other_rules_shape _ _ _ _ (or_intror (or_introl H3)) a). }
  2:{ done. }
  destruct (kql.getConfig _ text) as [st4 r4| |] eqn:H4.
  { simplify_eq.
    by destruct (other_rules_shape _ _ _ _
                   (or_intror (or_intror (or_introl H4))) a). }
  2:{ done. }
  destruct (kql.updateConfig text) as [st5 r5| |] eqn:H5; [|done..].
  simplify_eq.
  by destruct (other_rules_shape (kql.value (S (length text))) _ _ _
                 (or_intror (or_intror (or_intror H5))) a).
Qed.

Lemma parsed_select_database_witness :
  js "metabase" ∈ databaseNames.
Proof.
  apply (parsed_select_database (js "select * from metabase as x limit 3")
           {| sel_database := {| name := js "metabase"; db_alias := Some (js "x") |};
              sel_join := None; sel_where := None; sel_limit := Some (Int 3) |}).
  vm_compute. reflexivity.
Defined.

(** ** The calls and the cache along a compilation *)

Lemma cacheLe_refl (m : memorizeAreas) : cacheLe m m.
Proof. by repeat split. Qed.

Lemma cacheLe_trans (m1 m2 m3 : memorizeAreas) :
  cacheLe m1 m2 -> cacheLe m2 m3 -> cacheLe m1 m3.
Proof. intros (A1 & A2 & A3) (B1 & B2 & B3). repeat split; eauto. Qed.

Lemma is_Some_insert (m : gmap str AreaEntry) (k k' : str) (e : AreaEntry) :
  is_Some (m !! k') -> is_Some (<[k := e]> m !! k').
Proof.
  intros H. destruct (decide (k = k')) as [->|Hne].
  - rewrite lookup_insert_eq. eauto.
  - by rewrite lookup_insert_ne.
Qed.

Lemma cacheLe_setAdmin2 (m : memorizeAreas) (k : str) (e : AreaEntry) :
  cacheLe m (setAdmin2 k e m).
Proof. repeat split; simpl; auto using is_Some_insert. Qed.

Lemma cacheLe_setAdmin3 (m : memorizeAreas) (k : str) (e : AreaEntry) :
  cacheLe m (setAdmin3 k e m).
Proof. repeat split; simpl; auto using is_Some_insert. Qed.

Lemma cacheLe_setAdmin4 (m : memorizeAreas) (k : str) (e : AreaEntry) :
  cacheLe m (setAdmin4 k e m).
Proof. repeat split; simpl; auto using is_Some_insert. Qed.

Lemma after_refl (ast : SelectAst) (b : builder) : after ast b b.
Proof.
  split; [|apply cacheLe_refl]. exists []. by rewrite app_nil_r.
Qed.

Lemma after_emit (ast : SelectAst) (c : call) (b x : builder) :
  allowedCall ast c -> after ast b x -> after ast b (emit c x).
Proof.
  intros Hc [(extra & Ht & Hf) Hm]. split; [|done].
  exists (extra ++ [c]). split.
  - simpl. by rewrite Ht, app_assoc.
  - apply Forall_app. split; [done | by constructor].
Qed.

Lemma after_withCache (ast : SelectAst) (f : memorizeAreas -> memorizeAreas)
      (b x : builder) :
  cacheLe (cache x) (f (cache x)) -> after ast b x -> after ast b (withCache f x).
Proof.
  intros Hc [He Hm]. split; [done|]. simpl. by eapply cacheLe_trans.
Qed.

Lemma after_withTile38 (ast : SelectAst) (f : tile38Query -> tile38Query)
      (b x : builder) :
  after ast b x -> after ast b (withTile38 f x).
Proof. by intros [He Hm]. Qed.

Lemma after_withMetabase (ast : SelectAst) (f : gmap str Value -> gmap str Value)
      (b x : builder) :
  after ast b x -> after ast b (withMetabase f x).
Proof. by intros [He Hm]. Qed.

Ltac solve_after :=
  repeat first
    [ apply after_refl
    | assumption
    | apply after_withTile38
    | apply after_withMetabase
    | apply after_emit; [exact I|]
    | apply after_withCache;
      [first [apply cacheLe_setAdmin2 | apply cacheLe_setAdmin3
             | apply cacheLe_setAdmin4]|] ].

Section After.
Variable ops : DecOps.
Variable env : backend.
Variable ast : SelectAst.

Lemma adminLevel2_after (areas : list Value) (b0 : builder)
      (st : builder * list (option Value)) :
  after ast b0 st.1 -> after ast b0 (adminLevel2 ops env areas st).1.
Proof.
  destruct st as [b ids]. unfold adminLevel2. simpl. intros H.
  repeat case_match; simplify_eq; simpl; solve_after.
Qed.

Lemma adminLevel3_after (areas : list Value) (b0 : builder)
      (st : builder * list (option Value)) :
  after ast b0 st.1 -> after ast b0 (adminLevel3 ops areas st).1.
Proof.
  destruct st as [b ids]. unfold adminLevel3. simpl. intros H.
  repeat case_match; simplify_eq; simpl; solve_after.
Qed.

Lemma adminLevel4_after (areas : list Value) (b0 : builder)
      (st : builder * list (option Value)) :
  after ast b0 st.1 -> after ast b0 (adminLevel4 ops areas st).1.
Proof.
  destruct st as [b ids]. unfold adminLevel4. simpl. intros H.
  repeat case_match; simplify_eq; simpl; solve_after.
Qed.

Lemma getAdminLevel_after (areas : list Value) (b0 b : builder) :
  after ast b0 b -> after ast b0 (getAdminLevel ops env areas b).1.
Proof.
  intros H. unfold getAdminLevel.
  by apply adminLevel4_after, adminLevel3_after, adminLevel2_after.
Qed.

Lemma tile38Condition_after (k op : str) (v : Value) (b0 b : builder) :
  after ast b0 b ->
  match tile38Condition ops env k op v b with
  | Continue b' | Fallthrough b' | Raise _ b' => after ast b0 b'
  end.
Proof.
  intros H. unfold tile38Condition.
  repeat case_match; simplify_eq; solve_after.
  match goal with
  | E : getAdminLevel _ _ ?a ?b1 = _ |- _ =>
    pose proof (getAdminLevel_after a b0 b1) as He; rewrite E in He;
    apply He
  end.
  solve_after.
Qed.

Lemma whereStep_after (dbName : str) (c : Condition) (b0 b : builder) :
  after ast b0 b -> holds (after ast b0) (whereStep ops env dbName c b).
Proof.
  intros H. unfold whereStep.
  pose proof (tile38Condition_after (key (left_ c)) (operator_ c) (right_ c) b0 b H)
    as Ht.
  unfold metabaseCondition.
  repeat case_match; simplify_eq; simpl; solve_after.
Qed.

Lemma whereLoop_after (dbName : str) (conds : list Condition) (b0 b : builder) :
  after ast b0 b -> holds (after ast b0) (whereLoop ops env dbName conds b).
Proof.
  revert b. induction conds as [|c conds IH]; intros b H; simpl; [done|].
  pose proof (whereStep_after dbName c b0 b H) as Hs.
  destruct (whereStep ops env dbName c b) as [b1|e b1]; simpl in *; [|done].
  by apply IH.
Qed.

Lemma joinStep_after (b0 b : builder) :
  after ast b0 b -> holds (after ast b0) (joinStep env (sel_join ast) b).
Proof.
  intros H. unfold joinStep.
  destruct (sel_join ast) as [jc|] eqn:Ej; [|done].
  assert (Hj : allowedCall ast (GetMetabaseCard (metabaseQuery b))).
  { left. by rewrite Ej. }
  repeat case_match; simplify_eq; simpl;
    repeat first [apply after_withTile38 | by apply after_emit].
Qed.

Lemma castStep_after (b0 b : builder) :
  after ast b0 b -> holds (after ast b0) (castStep ops env b).
Proof.
  intros H. unfold castStep.
  repeat case_match; simplify_eq; simpl; solve_after.
Qed.

Lemma dispatch_after (limit : option jsnum) (b0 b : builder) :
  after ast b0 b ->
  after ast b0 (dispatch ops (name (sel_database ast)) limit b).
Proof.
  intros H. unfold dispatch.
  destruct (isTile38 (name (sel_database ast))) eqn:Et;
    destruct (str_eqb (name (sel_database ast)) (js "m")
              || str_eqb (name (sel_database ast)) (js "metabase")) eqn:Em;
    try done; repeat (apply after_emit; [first [exact Et | by right]|]); done.
Qed.

Lemma andThen_after (b0 : builder) (c : completion) (k : builder -> completion) :
  holds (after ast b0) c ->
  (forall b1, after ast b0 b1 -> holds (after ast b0) (k b1)) ->
  holds (after ast b0) (andThen c k).
Proof.
  intros Hc Hk. destruct c as [b1|e b1]; simpl in *; [by apply Hk | done].
Qed.

Lemma pipeline_after (memo : memorizeAreas) (conds : list Condition) :
  holds (after ast {| tile38 := emptyQuery; metabaseQuery := ∅;
                  trace := [GetServices]; cache := memo |})
        (andThen (build ops env memo ast conds) (fun b =>
           Normal (dispatch ops (name (sel_database ast)) (sel_limit ast) b))).
Proof.
  unfold build, accumulate.
  apply andThen_after; [apply andThen_after; [apply andThen_after|]|].
  - apply whereLoop_after, after_refl.
  - intros b1. apply joinStep_after.
  - intros b1. apply castStep_after.
  - intros b1 H. simpl. by apply dispatch_after.
Qed.
End After.

(** X12.  Whenever [where] is not null, the registry fetch is the first
    call of a compilation and is not made again, however the compilation
    ends.  Of the calls that follow, a query with a filter is posted only
    when the database is [t] or [tile38], and the record service is
    queried only when the statement has a join or the database is [m] or
    [metabase]. *)
Theorem calls_by_database
    (ops : DecOps) (env : backend) (memo : memorizeAreas) (ast : SelectAst)
    (conds : list Condition) (Hwhere : sel_where ast = Some conds) :
  exists rest,
    run_calls (parseSelect ops env memo ast) = GetServices :: rest
    /\ Forall (allowedCall ast) rest.
Proof.
  pose proof (pipeline_after ops env ast memo conds) as H.
  unfold parseSelect. rewrite Hwhere.
  destruct (andThen _ _) as [b|e b]; simpl in *;
    destruct H as [(rest & Ht & Hf) _]; exists rest; by rewrite Ht.
Qed.

Lemma calls_by_database_witness :
  exists rest,
    run_calls (parseSelect noDec quietBackend emptyAreas castOnly)
    = GetServices :: rest
    /\ Forall (allowedCall castOnly) rest.
Proof.
  exact (calls_by_database noDec quietBackend emptyAreas castOnly _ eq_refl).
Defined.

(** X13.  The area cache only grows: a name cached before a compilation
    is cached after it, whatever the statement and however it ends. *)
Theorem cache_only_grows
    (ops : DecOps) (env : backend) (memo : memorizeAreas) (ast : SelectAst) :
  cacheLe memo (run_cache (parseSelect ops env memo ast)).
Proof.
  unfold parseSelect. destruct (sel_where ast) as [conds|] eqn:Hw;
    [|apply cacheLe_refl].
  pose proof (pipeline_after ops env ast memo conds) as H.
  destruct (andThen _ _) as [b|e b]; simpl in *; by destruct H as [_ Hc].
Qed.

(** ** Area lookups *)

Lemma arrayGet_undefined {A} (i j : nat) (ids : list (option A)) :
  arrayGet i ids = None -> arrayGet i (arraySet j None ids) = None.
Proof.
  unfold arrayGet, arraySet. intros H.
  destruct (j <? length ids)%nat eqn:E.
  - apply Nat.ltb_lt in E. destruct (decide (j = i)) as [->|Hne].
    + by rewrite list_lookup_insert_eq.
    + by rewrite list_lookup_insert_ne.
  - destruct (ids !! i) as [x|] eqn:Ei.
    + by rewrite (lookup_app_l_Some _ _ _ _ Ei).
    + destruct ((ids ++ replicate (j - length ids) None ++ [None]) !! i)
        as [x|] eqn:Ex; [|done].
      apply lookup_app_Some in Ex as [Ex|[_ Ex]]; [congruence|].
      apply lookup_app_Some in Ex as [Ex|[_ Ex]].
      * by apply lookup_replicate in Ex as [-> _].
      * apply list_lookup_singleton_Some in Ex as [_ <-]. done.
Qed.

Lemma onlyFirst_undefined (j : nat) (ids : list (option Value)) :
  onlyFirst ids -> onlyFirst (arraySet j None ids).
Proof. intros H i Hi. apply arrayGet_undefined. by apply H. Qed.

Lemma onlyFirst_first (v : option Value) : onlyFirst (arraySet 0 v []).
Proof. intros [|i] Hi; [lia | done]. Qed.

Lemma onlyFirst_nil : onlyFirst [].
Proof. by intros [|i] Hi. Qed.

Section Levels.
Variable ops : DecOps.
Variable env : backend.

Lemma adminLevel2_onlyFirst (areas : list Value) (b : builder) :
  onlyFirst (adminLevel2 ops env areas (b, [])).2.
Proof.
  unfold adminLevel2.
  repeat case_match; simplify_eq; simpl;
    first [apply onlyFirst_nil | apply onlyFirst_first].
Qed.

Lemma adminLevel3_onlyFirst (areas : list Value)
      (st : builder * list (option Value)) :
  onlyFirst st.2 -> onlyFirst (adminLevel3 ops areas st).2.
Proof.
  destruct st as [b ids]. unfold adminLevel3. simpl. intros H.
  repeat case_match; simplify_eq; simpl; try done.
  by apply onlyFirst_undefined.
Qed.

Lemma adminLevel4_onlyFirst (areas : list Value)
      (st : builder * list (option Value)) :
  onlyFirst st.2 -> onlyFirst (adminLevel4 ops areas st).2.
Proof.
  destruct st as [b ids]. unfold adminLevel4. simpl. intros H.
  repeat case_match; simplify_eq; simpl; try done.
  by apply onlyFirst_undefined.
Qed.

Lemma getAdminLevel_onlyFirst (areas : list Value) (b : builder) :
  onlyFirst (getAdminLevel ops env areas b).2.
Proof.
  unfold getAdminLevel.
  apply adminLevel4_onlyFirst, adminLevel3_onlyFirst, adminLevel2_onlyFirst.
Qed.
End Levels.

(** X14.  An area path of two or more plain names, none of them
    [__proto__], looked up in a clean cache, never resolves: the id that
    [parseSelect] asks [getAdminLevel] for, the one of the deepest level,
    is [undefined] whatever the backend answers and whatever names the
    cache holds. *)
Theorem deeper_levels_never_resolve
    (ops : DecOps) (env : backend) (areas : list Value) (b : builder)
    (Hlen : (2 <= length areas)%nat)
    (Hplain : forallb plainValue areas = true)
    (Hproto : forallb (fun a => negb (str_eqb (toStr ops a) (js "__proto__")))
                      areas = true)
    (Hclean : cleanCache (cache b) = true) :
  getAdminId (getAdminLevel ops env areas b).2 (length areas + 1) = None.
Proof.
  pose proof (getAdminLevel_onlyFirst ops env areas b) as H.
  destruct areas as [|a0 [|a1 areas]]; simpl in Hlen; try lia.
  change (length (a0 :: a1 :: areas) + 1)%nat
    with (S (S (length areas + 1))).
  unfold getAdminId. apply H. lia.
Qed.

Lemma deeper_levels_never_resolve_witness :
  getAdminId
    (getAdminLevel noDec hanoiBackend
       [VString (js "Hanoi"); VString (js "Dong_Da")] freshBuilder).2 3 = None.
Proof.
  apply (deeper_levels_never_resolve noDec hanoiBackend
           [VString (js "Hanoi"); VString (js "Dong_Da")] freshBuilder);
    [simpl; lia | reflexivity | reflexivity | reflexivity].
Defined.

(** X15.  Resolving the same area twice from a clean cache, its name
    plain and none that the cache object inherits: the first call posts
    one lookup and yields the id the backend answers; the second, served
    from the cache, posts nothing and yields [undefined]. *)
Theorem second_lookup_loses_id
    (ops : DecOps) (env : backend) (n0 : Value) (b : builder)
    (id geo : option Value)
    (Hname : truthy ops n0 = true)
    (Hplain : plainValue n0 = true)
    (Hown : ownArea ops n0 = true)
    (Hclean : cleanCache (cache b) = true)
    (Hfresh : admin2 (cache b) !! toStr ops n0 = None)
    (Hknown : adminLookup env
                (getAdminLevelQuery ops (js "admin2") (Some n0) None None)
              = Some (id, geo)) :
  let r1 := getAdminLevel ops env [n0] b in
  let r2 := getAdminLevel ops env [n0] r1.1 in
  getAdminId r1.2 2 = id
  /\ trace r1.1
     = trace b ++ [PostQuery (Some (js "scan admin-2 where name_"
                                    ++ toStr ops n0 ++ js " 1 1")) None]
  /\ getAdminId r2.2 2 = None
  /\ trace r2.1 = trace r1.1.
Proof.
  assert (E1 : getAdminLevel ops env [n0] b
               = (withCache (setAdmin2 (toStr ops n0)
                    {| area_name := Some n0; area_id := id;
                       area_geometry := geo |})
                    (emit (PostQuery (getAdminLevelQuery ops (js "admin2")
                                        (Some n0) None None) None) b),
                  [id])).
  { unfold getAdminLevel, adminLevel4, adminLevel3, adminLevel2. simpl.
    by rewrite Hname, Hfresh, Hknown. }
  intros r1 r2. subst r2 r1. rewrite E1. simpl.
  unfold getAdminLevel, adminLevel4, adminLevel3, adminLevel2. simpl.
  rewrite Hname, lookup_insert_eq. simpl. done.
Qed.

Lemma second_lookup_loses_id_witness :
  let r1 := getAdminLevel noDec hanoiBackend [VString (js "Hanoi")] freshBuilder in
  let r2 := getAdminLevel noDec hanoiBackend [VString (js "Hanoi")] r1.1 in
  getAdminId r1.2 2 = Some (VNumber (Int 7))
  /\ trace r1.1
     = trace freshBuilder
       ++ [PostQuery (Some (js "scan admin-2 where name_"
                            ++ toStr noDec (VString (js "Hanoi")) ++ js " 1 1")) None]
  /\ getAdminId r2.2 2 = None
  /\ trace r2.1 = trace r1.1.
Proof.
  apply (second_lookup_loses_id noDec hanoiBackend (VString (js "Hanoi"))
           freshBuilder (Some (VNumber (Int 7))) None);
    reflexivity.
Defined.

(** ** The [cast_to] block and the record service *)

Lemma castStep_no_cast_to (ops : DecOps) (env : backend) (b b' : builder) :
  castStep ops env b = Normal b' -> metabaseQuery b' !! js "cast_to" = None.
Proof.
  unfold castStep. intros H.
  repeat case_match; simplify_eq; simpl; try done.
  rewrite lookup_delete_ne by done. rewrite lookup_delete_ne by done.
  by rewrite lookup_delete_eq.
Qed.

Lemma not_tile38_m (a : str) :
  str_eqb a (js "m") || str_eqb a (js "metabase") = true -> isTile38 a = false.
Proof.
  rewrite orb_true_iff, !str_eqb_true. by intros [-> | ->].
Qed.

(** X16.  On an ordinary statement, with a plain backend and a clean
    cache: when the database is [m] or [metabase] and the accumulators
    have been built, the compilation ends with one query to the record
    service that carries the accumulated parameters; the key [cast_to] is
    never among them. *)
Theorem record_query_sent_last
    (ops : DecOps) (env : backend) (memo : memorizeAreas)
    (ast : SelectAst) (conds : list Condition) (b : builder)
    (Hwhere : sel_where ast = Some conds)
    (Hordinary : ordinaryStatement ops ast = true)
    (Hbackend : plainBackend env)
    (Hclean : cleanCache memo = true)
    (Hbuild : build ops env memo ast conds = Normal b)
    (Hdb : str_eqb (name (sel_database ast)) (js "m")
           || str_eqb (name (sel_database ast)) (js "metabase") = true) :
  parseSelect ops env memo ast =
  {| run_calls := trace b ++ [GetMetabaseCard (metabaseQuery b)];
     run_cache := cache b;
     run_queries := Some (tile38 b, metabaseQuery b);
     run_outcome := Returned |}
  /\ metabaseQuery b !! js "cast_to" = None.
Proof.
  split.
  - unfold parseSelect. rewrite Hwhere, Hbuild. simpl.
    unfold dispatch. by rewrite (not_tile38_m _ Hdb), Hdb.
  - unfold build in Hbuild.
    destruct (accumulate ops env memo ast conds) as [b1|e b1]; [|done].
    by apply (castStep_no_cast_to ops env b1).
Qed.

Lemma record_query_sent_last_witness :
  run_calls (parseSelect noDec quietBackend emptyAreas castExample)
  = [GetServices;
     PostAdd {[ js "cardid" := VNumber (Int 21041) ]}
             (VString (js "order_id")) (VString (js "point"));
     GetMetabaseCard {[ js "cardid" := VNumber (Int 21041) ]}].
Proof.
  assert (Hb : build noDec quietBackend emptyAreas castExample
                 (default [] (sel_where castExample))
               = Normal (builderOf (build noDec quietBackend emptyAreas castExample
                                      (default [] (sel_where castExample)))))
    by (vm_compute; reflexivity).
  destruct (record_query_sent_last noDec quietBackend emptyAreas castExample
              _ _ eq_refl eq_refl quietBackend_plain eq_refl Hb eq_refl) as [-> _].
  vm_compute. reflexivity.
Defined.

(** ** What the spatial branch leaves alone, throws and drops *)

Section Spatial.
Variable ops : DecOps.
Variable env : backend.

Lemma adminLevel2_metabase (areas : list Value) (st : builder * list (option Value)) :
  metabaseQuery (adminLevel2 ops env areas st).1 = metabaseQuery st.1.
Proof.
  destruct st as [b ids]. unfold adminLevel2.
  repeat case_match; simplify_eq; done.
Qed.

Lemma adminLevel3_metabase (areas : list Value) (st : builder * list (option Value)) :
  metabaseQuery (adminLevel3 ops areas st).1 = metabaseQuery st.1.
Proof.
  destruct st as [b ids]. unfold adminLevel3.
  repeat case_match; simplify_eq; done.
Qed.

Lemma adminLevel4_metabase (areas : list Value) (st : builder * list (option Value)) :
  metabaseQuery (adminLevel4 ops areas st).1 = metabaseQuery st.1.
Proof.
  destruct st as [b ids]. unfold adminLevel4.
  repeat case_match; simplify_eq; done.
Qed.

Lemma getAdminLevel_metabase (areas : list Value) (b : builder) :
  metabaseQuery (getAdminLevel ops env areas b).1 = metabaseQuery b.
Proof.
  unfold getAdminLevel.
  by rewrite adminLevel4_metabase, adminLevel3_metabase, adminLevel2_metabase.
Qed.

Lemma tile38Condition_metabase (k op : str) (v : Value) (b : builder) :
  match tile38Condition ops env k op v b with
  | Continue b' | Fallthrough b' | Raise _ b' =>
    metabaseQuery b' = metabaseQuery b
  end.
Proof.
  unfold tile38Condition.
  repeat case_match; simplify_eq; try done.
  match goal with
  | E : getAdminLevel _ _ ?a ?b1 = _ |- _ =>
    pose proof (getAdminLevel_metabase a b1) as He; rewrite E in He
  end.
  done.
Qed.

Lemma tile38Condition_fn (k op : str) (v : Value) (b b' : builder) :
  includes tile38FnKeys k = true ->
  tile38Condition ops env k op v b <> Fallthrough b'.
Proof.
  intros Hk. unfold tile38Condition. rewrite Hk.
  repeat case_match; done.
Qed.

End Spatial.

(** X17.  A condition that takes the spatial branch, by its alias or by
    its key, never reaches the record service's parameters: they are the
    same after it as before, whether it completes or throws. *)
Theorem spatial_condition_keeps_parameters
    (ops : DecOps) (env : backend) (dbName : str) (c : Condition) (b : builder)
    (Hspatial : isTile38 (default dbName (alias (left_ c)))
                || includes tile38FnKeys (key (left_ c)) = true) :
  holds (fun b' => metabaseQuery b' = metabaseQuery b)
        (whereStep ops env dbName c b).
Proof.
  unfold whereStep. rewrite Hspatial.
  pose proof (tile38Condition_metabase ops env (key (left_ c)) (operator_ c)
                (right_ c) b) as Hm.
  destruct (tile38Condition ops env (key (left_ c)) (operator_ c) (right_ c) b)
    as [b'|b'|e b'] eqn:Et; simpl; try done.
  destruct (includes tile38FnKeys (key (left_ c))) eqn:Hk.
  - by destruct (tile38Condition_fn ops env _ _ _ _ b' Hk Et).
  - rewrite orb_false_r in Hspatial.
    unfold metabaseCondition. by rewrite (isTile38_not_metabase _ Hspatial).
Qed.

Lemma spatial_condition_keeps_parameters_witness :
  holds (fun b' => metabaseQuery b' = ∅)
        (whereStep noDec quietBackend (js "m")
           {| left_ := {| alias := Some (js "m"); key := js "within" |};
              operator_ := js "in";
              right_ := VFn (js "point") [VNumber (Int 1); VNumber (Int 2)] |}
           {| tile38 := emptyQuery; metabaseQuery := ∅; trace := [GetServices];
              cache := emptyAreas |}).
Proof.
  apply (spatial_condition_keeps_parameters noDec quietBackend (js "m")
           {| left_ := {| alias := Some (js "m"); key := js "within" |};
              operator_ := js "in";
              right_ := VFn (js "point") [VNumber (Int 1); VNumber (Int 2)] |}
           {| tile38 := emptyQuery; metabaseQuery := ∅; trace := [GetServices];
              cache := emptyAreas |}).
  reflexivity.
Defined.



(** X19.  Under the spatial alias, a condition whose key is not treated by
    name and whose right value is neither an array nor a number is dropped
    without a trace: the builder is as it was.  So is [order_status] with
    such a value. *)
Theorem spatial_scalar_dropped
    (ops : DecOps) (env : backend) (dbName : str) (a : option str)
    (k op : str) (v : Value) (b : builder)
    (Hspatial : isTile38 (default dbName a) = true)
    (Hkey : includes namedKeys k = false)
    (Hvalue : scalarOrObject v = true) :
  whereStep ops env dbName
    {| left_ := {| alias := a; key := k |}; operator_ := op; right_ := v |} b
  = Normal b.
Proof.
  unfold namedKeys in Hkey.
  assert (Hfn : includes tile38FnKeys k = false).
  { apply includes_false. apply includes_false in Hkey.
    intros Hin. apply Hkey. apply elem_of_app. by left. }
  assert (Hrest : includes [js "id"; js "status"; js "service"; js "filter"] k
                  = false).
  { apply includes_false. apply includes_false in Hkey.
    intros Hin. apply Hkey. apply elem_of_app. by right. }
  apply includes_false_cons in Hrest as [Hid Hrest].
  apply includes_false_cons in Hrest as [Hstatus Hrest].
  apply includes_false_cons in Hrest as [Hservice Hrest].
  apply includes_false_cons in Hrest as [Hfilter _].
  unfold whereStep. simpl. rewrite Hspatial. simpl.
  unfold tile38Condition. rewrite Hfn, Hid, Hstatus, Hfilter, Hservice.
  unfold metabaseCondition. rewrite (isTile38_not_metabase _ Hspatial).
  by destruct v.
Qed.

Lemma spatial_scalar_dropped_witness :
  whereStep noDec quietBackend (js "t")
    {| left_ := {| alias := None; key := js "order_status" |};
       operator_ := js "="; right_ := VString (js "idle") |}
    {| tile38 := emptyQuery; metabaseQuery := ∅; trace := [GetServices];
       cache := emptyAreas |}
  = Normal
      {| tile38 := emptyQuery; metabaseQuery := ∅; trace := [GetServices];
         cache := emptyAreas |}.
Proof.
  apply (spatial_scalar_dropped noDec quietBackend (js "t") None
           (js "order_status") (js "=") (VString (js "idle")));
    reflexivity.
Defined.

(** X20.  The operators [in] and [is] give a number no range clause: under
    the spatial alias and a key that is not special, such a condition is
    dropped and the builder is as it was. *)
Theorem number_membership_dropped
    (ops : DecOps) (env : backend) (dbName : str) (a : option str)
    (k op : str) (v : jsnum) (b : builder)
    (Hspatial : isTile38 (default dbName a) = true)
    (Hkey : includes specialKeys k = false)
    (Hop : op = js "in" \/ op = js "is") :
  whereStep ops env dbName
    {| left_ := {| alias := a; key := k |}; operator_ := op;
       right_ := VNumber v |} b
  = Normal b.
Proof.
  rewrite (whereStep_number ops env _ _ _ _ _ _ Hspatial Hkey).
  by destruct Hop as [-> | ->].
Qed.

Lemma number_membership_dropped_witness :
  whereStep noDec quietBackend (js "t")
    {| left_ := {| alias := None; key := js "age" |};
       operator_ := js "is"; right_ := VNumber (Int 18) |}
    {| tile38 := emptyQuery; metabaseQuery := ∅; trace := [GetServices];
       cache := emptyAreas |}
  = Normal
      {| tile38 := emptyQuery; metabaseQuery := ∅; trace := [GetServices];
         cache := emptyAreas |}.
Proof.
  apply (number_membership_dropped noDec quietBackend (js "t") None
           (js "age") (js "is") (Int 18)); [reflexivity | reflexivity | by right].
Defined.

(** ** A join without a spatial side *)



(** ** Area names *)

Lemma split_nonempty (sep : char) (s : str) : split sep s <> [].
Proof.
  destruct s as [|c s]; simpl; [done|].
  destruct (c =? sep); [done|]. by destruct (split sep s).
Qed.

Lemma split_no_sep (sep : char) (s : str) :
  Forall (Forall (fun c => c <> sep)) (split sep s).
Proof.
  induction s as [|c s IH]; simpl.
  - by repeat constructor.
  - destruct (c =? sep) eqn:E.
    + by constructor.
    + apply N.eqb_neq in E.
      destruct (split sep s) as [|p ps]; [by repeat constructor|].
      inversion IH; subst. constructor; [by constructor | done].
Qed.

Lemma split_one (sep : char) (x : str) :
  Forall (fun c => c <> sep) x -> split sep x = [x].
Proof.
  induction 1 as [|c x Hc _ IH]; simpl; [done|].
  apply N.eqb_neq in Hc. by rewrite Hc, IH.
Qed.

Lemma split_app (sep : char) (x t : str) :
  Forall (fun c => c <> sep) x -> split sep (x ++ sep :: t) = x :: split sep t.
Proof.
  induction 1 as [|c x Hc _ IH]; simpl.
  - by rewrite N.eqb_refl.
  - apply N.eqb_neq in Hc. by rewrite Hc, IH.
Qed.

Lemma split_joinWith (sep : char) (parts : list str) :
  parts <> [] -> Forall (Forall (fun c => c <> sep)) parts ->
  split sep (joinWith [sep] parts) = parts.
Proof.
  intros Hne H. induction H as [|x parts Hx Hp IH]; [done|].
  destruct parts as [|y parts].
  - simpl. by apply split_one.
  - change (joinWith [sep] (x :: y :: parts))
      with (x ++ sep :: joinWith [sep] (y :: parts)).
    rewrite (split_app _ _ _ Hx). by rewrite IH.
Qed.

Lemma joinWith_split (sep : char) (s : str) : joinWith [sep] (split sep s) = s.
Proof.
  induction s as [|c s IH]; simpl; [done|].
  pose proof (split_nonempty sep s) as Hne.
  destruct (c =? sep) eqn:E.
  - apply N.eqb_eq in E. subst c.
    destruct (split sep s) as [|p ps]; [done|].
    simpl in *. by rewrite IH.
  - destruct (split sep s) as [|p ps]; [done|].
    destruct ps as [|q ps]; simpl in *; by rewrite <- IH.
Qed.

Lemma toUpperChar_idem (c : char) : toUpperChar (toUpperChar c) = toUpperChar c.
Proof.
  unfold toUpperChar, in_range.
  destruct ((97 <=? c) && (c <=? 122)) eqn:E; [|by rewrite E].
  apply andb_true_iff in E as [E1 E2].
  apply N.leb_le in E1. apply N.leb_le in E2.
  assert (H : (97 <=? c - 32) = false) by (apply N.leb_gt; lia).
  by rewrite H.
Qed.

Lemma toLowerChar_idem (c : char) : toLowerChar (toLowerChar c) = toLowerChar c.
Proof.
  unfold toLowerChar, in_range.
  destruct ((65 <=? c) && (c <=? 90)) eqn:E; [|by rewrite E].
  apply andb_true_iff in E as [E1 E2].
  apply N.leb_le in E1. apply N.leb_le in E2.
  assert (H : (c + 32 <=? 90) = false) by (apply N.leb_gt; lia).
  by rewrite H, andb_false_r.
Qed.

Lemma toLowerChar_upper (c : char) : toLowerChar (toUpperChar c) = toLowerChar c.
Proof.
  unfold toLowerChar, toUpperChar, in_range.
  destruct ((97 <=? c) && (c <=? 122)) eqn:E; [|done].
  apply andb_true_iff in E as [E1 E2].
  apply N.leb_le in E1. apply N.leb_le in E2.
  assert (H1 : (65 <=? c - 32) = true) by (apply N.leb_le; lia).
  assert (H2 : (c - 32 <=? 90) = true) by (apply N.leb_le; lia).
  assert (H3 : (c <=? 90) = false) by (apply N.leb_gt; lia).
  rewrite H1, H2, H3, andb_false_r. simpl. lia.
Qed.

Lemma toUpperChar_sep (c : char) : c <> c_underscore -> toUpperChar c <> c_underscore.
Proof.
  unfold toUpperChar, in_range, c_underscore. intros Hc.
  destruct ((97 <=? c) && (c <=? 122)) eqn:E; [|done].
  apply andb_true_iff in E as [E1 E2].
  apply N.leb_le in E1. apply N.leb_le in E2. lia.
Qed.

Lemma toLowerChar_sep (c : char) : c <> c_underscore -> toLowerChar c <> c_underscore.
Proof.
  unfold toLowerChar, in_range, c_underscore. intros Hc.
  destruct ((65 <=? c) && (c <=? 90)) eqn:E; [|done].
  apply andb_true_iff in E as [E1 E2].
  apply N.leb_le in E1. apply N.leb_le in E2. lia.
Qed.

Lemma toLowerCase_idem (s : str) : toLowerCase (toLowerCase s) = toLowerCase s.
Proof.
  unfold toLowerCase. rewrite map_map. apply map_ext. apply toLowerChar_idem.
Qed.

Lemma capitalize_idem (x : str) : capitalize (capitalize x) = capitalize x.
Proof.
  destruct x as [|c x]; simpl; [done|].
  by rewrite toUpperChar_idem, toLowerCase_idem.
Qed.

Lemma capitalize_sep (x : str) :
  Forall (fun c => c <> c_underscore) x ->
  Forall (fun c => c <> c_underscore) (capitalize x).
Proof.
  intros H. destruct H as [|c x Hc Hx]; simpl; [done|].
  constructor; [by apply toUpperChar_sep|].
  unfold toLowerCase. apply Forall_map.
  eapply Forall_impl; [exact Hx|]. intros d. apply toLowerChar_sep.
Qed.

Lemma capitalize_lower (x : str) : toLowerCase (capitalize x) = toLowerCase x.
Proof.
  destruct x as [|c x]; simpl; [done|].
  by rewrite toLowerChar_upper, toLowerCase_idem.
Qed.

Lemma map_joinWith (f : char -> char) (sep : char) (parts : list str) :
  map f (joinWith [sep] parts) = joinWith [f sep] (map (map f) parts).
Proof.
  induction parts as [|x parts IH]; [done|].
  destruct parts as [|y parts]; [done|].
  change (joinWith [sep] (x :: y :: parts))
    with (x ++ sep :: joinWith [sep] (y :: parts)).
  change (joinWith [f sep] (map (map f) (x :: y :: parts)))
    with (map f x ++ f sep :: joinWith [f sep] (map (map f) (y :: parts))).
  by rewrite map_app, map_cons, IH.
Qed.

Lemma toLowerCase_joinWith (parts : list str) :
  toLowerCase (joinWith [c_underscore] parts)
  = joinWith [c_underscore] (map toLowerCase parts).
Proof. apply (map_joinWith toLowerChar c_underscore). Qed.

(** X21.  On names of the ASCII range, [normalizeAreaName] changes the
    case of letters and nothing else, and normalising twice is normalising
    once. *)
Theorem normalizeAreaName_idempotent (name : str) (Hascii : ascii name) :
  normalizeAreaName (normalizeAreaName name) = normalizeAreaName name
  /\ toLowerCase (normalizeAreaName name) = toLowerCase name.
Proof.
  unfold normalizeAreaName. split.
  - rewrite split_joinWith.
    + rewrite map_map. f_equal. apply map_ext. apply capitalize_idem.
    + intros H. apply map_eq_nil in H. by apply split_nonempty in H.
    + apply Forall_map. eapply Forall_impl; [apply split_no_sep|].
      intros x. apply capitalize_sep.
  - rewrite toLowerCase_joinWith, map_map.
    rewrite (map_ext _ toLowerCase capitalize_lower).
    rewrite <- toLowerCase_joinWith. by rewrite joinWith_split.
Qed.

Lemma normalizeAreaName_idempotent_witness :
  normalizeAreaName (normalizeAreaName (js "hA_nOI")) = normalizeAreaName (js "hA_nOI")
  /\ toLowerCase (normalizeAreaName (js "hA_nOI")) = toLowerCase (js "hA_nOI").
Proof.
  apply (normalizeAreaName_idempotent (js "hA_nOI")).
  unfold ascii. repeat constructor.
Defined.

(** ** getAreas *)

Lemma strings_of_strings (ss : list str) : strings_of (map VString ss) = Some ss.
Proof.
  unfold strings_of. apply mapM_Some.
  induction ss as [|s ss IH]; simpl; by constructor.
Qed.

Lemma find_first {A} (f : A -> bool) (pre post : list A) (c : A) :
  Forall (fun o => f o = false) pre -> f c = true ->
  List.find f (pre ++ c :: post) = Some c.
Proof.
  induction 1 as [|o pre Ho _ IH]; intros Hc; simpl.
  - by rewrite Hc.
  - rewrite Ho. by apply IH.
Qed.

(** X22.  [getAreas] answers with the first condition whose right value
    is a call of [get], under whatever key and alias it stands: its
    arguments, normalised one by one.  The names are of the ASCII range,
    and the right values before that condition are plain, so that none
    of them inherits a [fnName]. *)
Theorem getAreas_first_get
    (ast : SelectAst) (pre post : list Condition) (c : Condition)
    (names : list str)
    (Hwhere : sel_where ast = Some (pre ++ c :: post))
    (Hpre : Forall (fun o => isGet o = false) pre)
    (Hplain : Forall (fun o => plainValue (right_ o) = true) pre)
    (Hget : right_ c = VFn (js "get") (map VString names))
    (Hascii : Forall ascii names) :
  getAreas ast = inr (Some (map normalizeAreaName names)).
Proof.
  unfold getAreas. rewrite Hwhere.
  rewrite (find_first isGet pre post c Hpre).
  - rewrite Hget. simpl. by rewrite strings_of_strings.
  - unfold isGet. by rewrite Hget.
Qed.

Lemma getAreas_first_get_witness :
  getAreas
    {| sel_database := {| name := js "m"; db_alias := None |};
       sel_join := None;
       sel_where := Some [
         {| left_ := {| alias := None; key := js "id" |}; operator_ := js "=";
            right_ := VNumber (Int 1) |};
         {| left_ := {| alias := None; key := js "area" |}; operator_ := js "in";
            right_ := VFn (js "get") [VString (js "ha_noi"); VString (js "DONG_da")] |} ];
       sel_limit := None |}
  = inr (Some [js "Ha_Noi"; js "Dong_Da"]).
Proof.
  apply (getAreas_first_get _
           [ {| left_ := {| alias := None; key := js "id" |}; operator_ := js "=";
                right_ := VNumber (Int 1) |} ] []
           {| left_ := {| alias := None; key := js "area" |}; operator_ := js "in";
              right_ := VFn (js "get") [VString (js "ha_noi"); VString (js "DONG_da")] |}
           [js "ha_noi"; js "DONG_da"]).
  - reflexivity.
  - by repeat constructor.
  - by repeat constructor.
  - reflexivity.
  - unfold ascii. repeat constructor.
Defined.


(** ** Numbers written and read back *)

Lemma digits_acc (d : Decimal.uint) (acc : positive) :
  fold_left (fun a c => (a * 10 + Z.of_N (c - 48))%Z)
            (js (DecimalString.NilEmpty.string_of_uint d)) (Z.pos acc)
  = Z.pos (Pos.of_uint_acc d acc).
Proof.
  revert acc. induction d; intros acc; simpl; [done|..];
    rewrite <- IHd; f_equal; lia.
Qed.

Lemma digits_val_uint (d : Decimal.uint) :
  digits_val (js (DecimalString.NilEmpty.string_of_uint d))
  = Z.of_N (Pos.of_uint d).
Proof.
  unfold digits_val. induction d; simpl; [done| |..]; [exact IHd|..];
    match goal with
    | |- fold_left _ _ ?a = _ =>
      let p := eval cbv in (Z.to_pos a) in
      change a with (Z.pos p); apply digits_acc
    end.
Qed.

Lemma to_uint_normal (p : positive) :
  Decimal.nzhead (Pos.to_uint p) = Pos.to_uint p.
Proof.
  pose proof (DecimalPos.Unsigned.to_of (Pos.to_uint p)) as H.
  rewrite DecimalPos.Unsigned.of_to in H. simpl in H.
  pose proof (DecimalPos.Unsigned.to_uint_nonzero p) as Hz.
  assert (Hn : Decimal.nzhead (Pos.to_uint p) <> Decimal.Nil).
  { intros Hn. apply Hz. rewrite H. by apply DecimalFacts.unorm_0. }
  rewrite <- (DecimalFacts.unorm_nzhead _ Hn). by rewrite <- H.
Qed.

Lemma js_String (a : Ascii.ascii) (s : String.string) :
  js (String.String a s) = Ascii.N_of_ascii a :: js s.
Proof. reflexivity. Qed.

Ltac digit_step :=
  cbn [DecimalString.NilEmpty.string_of_uint];
  rewrite ?js_String;
  repeat match goal with
         | |- context [Ascii.N_of_ascii ?a] =>
           let v := eval vm_compute in (Ascii.N_of_ascii a) in
           change (Ascii.N_of_ascii a) with v
         end.

Lemma span_digits (d : Decimal.uint) (rest : str) :
  numberEnd rest = true ->
  span is_digit (js (DecimalString.NilEmpty.string_of_uint d) ++ rest)
  = (js (DecimalString.NilEmpty.string_of_uint d), rest).
Proof.
  intros Hr. induction d;
    try (digit_step; rewrite <- app_comm_cons, span_cons, IHd; reflexivity).
  destruct rest as [|c rest]; [done|]. simpl in *.
  by destruct (is_digit c).
Qed.

Lemma number_int_uint (p : positive) (rest : str) :
  numberEnd rest = true ->
  number_int (js (DecimalString.NilEmpty.string_of_uint (Pos.to_uint p)) ++ rest)
  = Some (js (DecimalString.NilEmpty.string_of_uint (Pos.to_uint p)), rest).
Proof.
  intros Hr. pose proof (to_uint_normal p) as Hn.
  pose proof (DecimalFacts.nzhead_nonzero (Pos.to_uint p)) as H0.
  pose proof (DecimalPos.Unsigned.to_uint_nonnil p) as Hnil.
  rewrite Hn in H0.
  destruct (Pos.to_uint p) as [|d|d|d|d|d|d|d|d|d|d]; [done|by destruct (H0 d)|..];
    digit_step; rewrite <- app_comm_cons; unfold number_int;
    rewrite (span_digits d rest Hr); reflexivity.
Qed.

Lemma number_frac_end (rest : str) :
  numberEnd rest = true -> number_frac rest = ([], rest).
Proof.
  destruct rest as [|c rest]; [done|]. simpl. intros H.
  destruct (c =? c_dot); [|done]. by rewrite andb_false_r in H.
Qed.

Lemma number_exp_end (rest : str) :
  numberEnd rest = true -> number_exp rest = ([], rest).
Proof.
  destruct rest as [|c rest]; [done|]. simpl. intros H.
  destruct ((c =? 101) || (c =? 69)); [|done]. by rewrite andb_false_r in H.
Qed.

Lemma string_of_uint_nonnil (d : Decimal.uint) :
  d <> Decimal.Nil ->
  DecimalString.NilZero.string_of_uint d = DecimalString.NilEmpty.string_of_uint d.
Proof. by destruct d. Qed.

Lemma digits_not_minus (p : positive) (rest : str) :
  match js (DecimalString.NilEmpty.string_of_uint (Pos.to_uint p)) ++ rest with
  | c :: r => if c =? c_minus then (true, r)
              else (false, js (DecimalString.NilEmpty.string_of_uint (Pos.to_uint p))
                           ++ rest)
  | [] => (false, js (DecimalString.NilEmpty.string_of_uint (Pos.to_uint p)) ++ rest)
  end
  = (false, js (DecimalString.NilEmpty.string_of_uint (Pos.to_uint p)) ++ rest).
Proof.
  pose proof (DecimalPos.Unsigned.to_uint_nonnil p) as Hnil.
  by destruct (Pos.to_uint p).
Qed.

Lemma Number_integer (neg : bool) (ip : str) (z : Z) :
  digits_val ip = z -> (0 < z <= max_safe)%Z ->
  Number neg ip [] [] = Int (if neg then - z else z)%Z.
Proof.
  intros Hv Hz.
  assert (H0 : (z =? 0)%Z = false) by (apply Z.eqb_neq; lia).
  assert (Hle : (z <=? max_safe)%Z = true) by (apply Z.leb_le; lia).
  assert (He : exact_int ip [] [] = Some z).
  { unfold exact_int. simpl. rewrite app_nil_r, Hv, H0.
    change (10 ^ 0)%Z with 1%Z. by rewrite Z.mul_1_r, Hle. }
  unfold Number. by rewrite He, H0, andb_false_r.
Qed.

Lemma number_regexp_int (ops : DecOps) (z : Z) (rest : str) :
  (- max_safe <= z <= max_safe)%Z -> numberEnd rest = true ->
  number_regexp (numToString ops (Int z) ++ rest) = Ok (Int z) rest.
Proof.
  intros Hz Hr. unfold numToString, intToString.
  destruct z as [|p|p]; simpl Z.to_int.
  - unfold number_regexp. simpl.
    by rewrite (number_frac_end _ Hr), (number_exp_end _ Hr).
  - pose proof (number_int_uint p rest Hr) as Hi.
    pose proof (digits_val_uint (Pos.to_uint p)) as Hv.
    rewrite DecimalPos.Unsigned.of_to in Hv.
    cbn [DecimalString.NilZero.string_of_int].
    rewrite (string_of_uint_nonnil _ (DecimalPos.Unsigned.to_uint_nonnil p)).
    unfold number_regexp.
    rewrite digits_not_minus, Hi, (number_frac_end _ Hr), (number_exp_end _ Hr).
    by rewrite (Number_integer false _ (Z.pos p) Hv) by lia.
  - pose proof (number_int_uint p rest Hr) as Hi.
    pose proof (digits_val_uint (Pos.to_uint p)) as Hv.
    rewrite DecimalPos.Unsigned.of_to in Hv.
    cbn [DecimalString.NilZero.string_of_int].
    rewrite (string_of_uint_nonnil _ (DecimalPos.Unsigned.to_uint_nonnil p)).
    rewrite js_String.
    change (Ascii.N_of_ascii _) with c_minus.
    unfold number_regexp. rewrite <- app_comm_cons.
    change (c_minus =? c_minus) with true. cbv iota.
    rewrite Hi, (number_frac_end _ Hr), (number_exp_end _ Hr).
    by rewrite (Number_integer true _ (Z.pos p) Hv) by lia.
Qed.

(** X24.  An integer of the exact range that the compiler writes into a
    query is read back by the number rule as the same integer, when what
    follows is not a digit, a dot or an exponent mark. *)
Theorem number_round_trip
    (ops : DecOps) (z : Z) (rest : str)
    (Hrange : (- max_safe <= z <= max_safe)%Z)
    (Hend : numberEnd rest = true) :
  kql.number (numToString ops (Int z) ++ rest) = Ok (Int z) (trail rest).
Proof.
  unfold kql.number. apply token_ok. by apply number_regexp_int.
Qed.

Lemma number_round_trip_witness :
  kql.number (numToString noDec (Int (-21041)) ++ js " and") = Ok (Int (-21041)) (js "and").
Proof.
  apply (number_round_trip noDec (-21041) (js " and")); [|reflexivity].
  unfold max_safe. lia.
Defined.
